(** * Move Selection To File: a shallow embedding of [extension.ts]

    The extension moves the text selected in the active editor to a file
    picked (or created) below one of the workspace roots.  This development
    embeds the functions of [src/extension.ts] over explicit models of the
    host services they call (Node's [path] and [fs], [mkdirp], [glob],
    [gitignore-to-glob], [lodash], [vscode-cache] and the editor API) and
    proves the properties the specification states about them.

    Conventions: paths are POSIX ([path.sep] is a slash); JavaScript numbers
    that index arrays are [Z] where [-1] can occur and [nat] otherwise;
    an exception is the [Throw] outcome of the command monad. *)

From Stdlib Require Import ZArith String Ascii List Lia.
From stdpp Require Import base option list strings gmap fin_maps sorting.

Local Open Scope string_scope.
Local Open Scope list_scope.
Local Open Scope nat_scope.

(* ===================================================================== *)
(** * Part I: definitions                                                 *)
(* ===================================================================== *)

(** ** The data model of [extension.ts] *)

Record FSLocation := mkFSLocation { relative : string; absolute : string }.

Record WorkspaceRoot := mkWorkspaceRoot {
  rootPath : string;
  baseName : string;
  multi : bool
}.

Record DirectoryOption := mkDirectoryOption {
  displayText : string;
  fsLocation : FSLocation
}.

(** [vscode.QuickPickItem], extended by the module declaration of the
    source with the optional fields [option] (here [itemOption], the name
    of the option type being taken) and [uri]. *)
Record QuickPickItem := mkQuickPickItem {
  label : string;
  description : option string;
  itemOption : option DirectoryOption;
  uri : option string
}.

Global Instance FSLocation_eq_dec : EqDecision FSLocation.
Proof. solve_decision. Defined.
Global Instance WorkspaceRoot_eq_dec : EqDecision WorkspaceRoot.
Proof. solve_decision. Defined.
Global Instance DirectoryOption_eq_dec : EqDecision DirectoryOption.
Proof. solve_decision. Defined.
Global Instance QuickPickItem_eq_dec : EqDecision QuickPickItem.
Proof. solve_decision. Defined.

(** ** JavaScript strings and arrays *)

Module Js.

(** [s.charAt(s.length - 1) === c]: false on the empty string, whose
    [charAt(-1)] is the empty string. *)
Fixpoint lastCharIs (c : ascii) (s : string) : bool :=
  match s with
  | "" => false
  | String a "" => bool_decide (a = c)
  | String _ s' => lastCharIs c s'
  end.

(** [s.split(c)] for a one-character separator. *)
Fixpoint split (c : ascii) (s : string) : list string :=
  match s with
  | "" => [""]
  | String a s' =>
      if bool_decide (a = c) then "" :: split c s'
      else match split c s' with
           | [] => [String a ""]
           | x :: xs => String a x :: xs
           end
  end.

(** [l.join(sep)]. *)
Fixpoint join (sep : string) (l : list string) : string :=
  match l with
  | [] => ""
  | [x] => x
  | x :: xs => x +:+ sep +:+ join sep xs
  end.

(** [s.startsWith(p)], also lodash's [startsWith] and the idiom
    [s.indexOf(p) === 0]. *)
Definition startsWith (s p : string) : bool := String.prefix p s.

(** [s.slice(n)]. *)
Fixpoint dropString (n : nat) (s : string) : string :=
  match n, s with
  | 0, _ => s
  | S n', String _ s' => dropString n' s'
  | S _, "" => ""
  end.

(** [s.slice(0, n)]. *)
Fixpoint takeString (n : nat) (s : string) : string :=
  match n, s with
  | 0, _ => ""
  | S n', String a s' => String a (takeString n' s')
  | S _, "" => ""
  end.

(** [l.indexOf(x)] on an array of strings: the first position of [x],
    [-1] when absent. *)
Fixpoint indexOfFrom (l : list string) (x : string) (i : Z) : Z :=
  match l with
  | [] => (-1)%Z
  | y :: l' => if bool_decide (y = x) then i else indexOfFrom l' x (i + 1)%Z
  end.
Definition indexOf (l : list string) (x : string) : Z := indexOfFrom l x 0.

(** [l.splice(i, 1)] for an index [i] in range. *)
Definition splice1 (l : list string) (i : nat) : list string := delete i l.

(** [l.find(p)]. *)
Definition find {A} (p : A → bool) (l : list A) : option A := List.find p l.

End Js.

(** ** Node's [path] module (POSIX flavour) *)

Module Path.

Definition sep : string := "/".
Definition slash : ascii := "/"%char.

Definition isAbsolute (p : string) : bool :=
  match p with
  | String a _ => bool_decide (a = slash)
  | "" => false
  end.

(** One step of [normalizeString]: [res] holds the segments kept so far,
    last segment first.  Empty segments and [.] are dropped, [..] removes
    the last kept segment; above the top it is kept only when
    [allowAboveRoot]. *)
Definition pushSegment (allowAboveRoot : bool) (res : list string)
    (seg : string) : list string :=
  if bool_decide (seg = "" ∨ seg = ".") then res
  else if bool_decide (seg = "..") then
    match res with
    | top :: rest =>
        if bool_decide (top = "..")
        then (if allowAboveRoot then ".." :: res else res)
        else rest
    | [] => if allowAboveRoot then [".."] else []
    end
  else seg :: res.

Definition normalizeSegments (allowAboveRoot : bool) (segs : list string)
    : list string :=
  rev (fold_left (pushSegment allowAboveRoot) segs []).

Definition normalizeString (path : string) (allowAboveRoot : bool) : string :=
  Js.join sep (normalizeSegments allowAboveRoot (Js.split slash path)).

(** The loop of [path.resolve] over its arguments, right to left, the
    working directory last: it stops at the first absolute one. *)
Fixpoint resolveArgs (argsRev : list string) (resolvedPath : string)
    : string * bool :=
  match argsRev with
  | [] => (resolvedPath, false)
  | path :: rest =>
      if bool_decide (path = "") then resolveArgs rest resolvedPath
      else
        let r := path +:+ "/" +:+ resolvedPath in
        if isAbsolute path then (r, true) else resolveArgs rest r
  end.

(** [path.resolve(...args)], in a process whose working directory is [cwd]. *)
Definition resolve (cwd : string) (args : list string) : string :=
  let '(resolvedPath, resolvedAbsolute) := resolveArgs (rev args ++ [cwd]) "" in
  let n := normalizeString resolvedPath (negb resolvedAbsolute) in
  if resolvedAbsolute then "/" +:+ n
  else if bool_decide (n = "") then "." else n.

(** [path.normalize(p)]. *)
Definition normalize (path : string) : string :=
  if bool_decide (path = "") then "."
  else
    let isAbs := isAbsolute path in
    let trailingSeparator := Js.lastCharIs slash path in
    let n := normalizeString path (negb isAbs) in
    if bool_decide (n = "") then
      (if isAbs then "/" else if trailingSeparator then "./" else ".")
    else
      let n' := if trailingSeparator then n +:+ "/" else n in
      if isAbs then "/" +:+ n' else n'.

(** [path.join(...args)]: the non-empty arguments joined by a slash, then
    normalized. *)
Definition join (args : list string) : string :=
  match filter (λ a, a ≠ "") args with
  | [] => "."
  | parts => normalize (Js.join "/" parts)
  end.

(** The backwards scan of [path.dirname] over the characters at index
    [1] and above, given last character first: trailing slashes are
    skipped, then the last segment, and the rest (still reversed, its
    head being the slash at index [end]) is returned; [None] is
    [end === -1]. *)
Fixpoint skipSlashes (l : list ascii) : list ascii :=
  match l with
  | a :: l' => if bool_decide (a = slash) then skipSlashes l' else l
  | [] => []
  end.
Fixpoint skipSegment (l : list ascii) : option (list ascii) :=
  match l with
  | a :: l' => if bool_decide (a = slash) then Some l' else skipSegment l'
  | [] => None
  end.

(** [path.dirname(p)]. *)
Definition dirname (path : string) : string :=
  match list_ascii_of_string path with
  | [] => "."
  | c0 :: tl =>
      let hasRoot := bool_decide (c0 = slash) in
      match skipSegment (skipSlashes (rev tl)) with
      | None => if hasRoot then "/" else "."
      | Some before =>
          if hasRoot && bool_decide (before = []) then "//"
          else string_of_list_ascii (c0 :: rev before)
      end
  end.

(** [path.basename(p)]: the last non-empty segment. *)
Definition basename (path : string) : string :=
  List.last (filter (λ s, s ≠ "") (Js.split slash path)) "".

End Path.

(** ** Node's [fs] module over an explicit file-system state *)

Module Fs.

Inductive Node := File (content : string) | Dir.

Inductive Errno := ENOENT | ENOTDIR | EEXIST | EISDIR.

(** The tree, keyed by the segments of the canonical absolute path (the
    root directory is [[]]), and the working directory of the process. *)
Record t := mk { nodes : gmap (list string) Node; cwd : string }.

Global Instance Node_eq_dec : EqDecision Node.
Proof. solve_decision. Defined.
Global Instance Errno_eq_dec : EqDecision Errno.
Proof. solve_decision. Defined.

Definition isDirectory (n : Node) : bool :=
  match n with Dir => true | File _ => false end.

(** Every entry but the root lies in a directory. *)
Definition wf (fs : t) : Prop :=
  nodes fs !! [] = Some Dir ∧
  map_Forall (λ p _, p = [] ∨ nodes fs !! removelast p = Some Dir) (nodes fs).

Global Instance wf_dec fs : Decision (wf fs).
Proof. apply _. Defined.

(** The segments the kernel walks for [p], from the root directory. *)
Definition components (fs : t) (p : string) : list string :=
  if Path.isAbsolute p then Js.split Path.slash p
  else Js.split Path.slash (cwd fs) ++ Js.split Path.slash p.

(** Path resolution (no symbolic links): each segment is looked up in
    the directory reached so far, which has to exist and be one. *)
Fixpoint walk (m : gmap (list string) Node) (cur : list string)
    (segs : list string) : Errno + list string :=
  match segs with
  | [] => inr cur
  | seg :: rest =>
      match m !! cur with
      | None => inl ENOENT
      | Some (File _) => inl ENOTDIR
      | Some Dir =>
          if bool_decide (seg = "" ∨ seg = ".") then walk m cur rest
          else if bool_decide (seg = "..") then walk m (removelast cur) rest
          else walk m (cur ++ [seg]) rest
      end
  end.

Definition locate (fs : t) (p : string) : Errno + list string :=
  if bool_decide (p = "") then inl ENOENT
  else walk (nodes fs) [] (components fs p).

(** [fs.statSync(p)]. *)
Definition statSync (fs : t) (p : string) : Errno + Node :=
  match locate fs p with
  | inl e => inl e
  | inr q => match nodes fs !! q with
             | Some n => inr n
             | None => inl ENOENT
             end
  end.

(** [fs.existsSync(p)]. *)
Definition existsSync (fs : t) (p : string) : bool :=
  match statSync fs p with inr _ => true | inl _ => false end.

(** [fs.readFileSync(p, "utf8")]. *)
Definition readFileSync (fs : t) (p : string) : Errno + string :=
  match statSync fs p with
  | inl e => inl e
  | inr Dir => inl EISDIR
  | inr (File c) => inr c
  end.

Fixpoint dropEmpty (l : list string) : list string :=
  match l with
  | x :: l' => if bool_decide (x = "") then dropEmpty l' else l
  | [] => []
  end.

(** The directory that is to hold the last segment of [p], and that
    segment; trailing slashes are dropped.  [None] when [p] names the
    root. *)
Definition parentAndName (fs : t) (p : string)
    : option (Errno + list string * string) :=
  match dropEmpty (rev (components fs p)) with
  | [] => None
  | name :: parentRev =>
      Some (match walk (nodes fs) [] (rev parentRev) with
            | inl e => inl e
            | inr parent => inr (parent, name)
            end)
  end.

Definition withNodes (fs : t) (m : gmap (list string) Node) : t :=
  mk m (cwd fs).

(** [fs.mkdirSync(p)]. *)
Definition mkdirSync (fs : t) (p : string) : Errno + t :=
  if bool_decide (p = "") then inl ENOENT
  else match parentAndName fs p with
  | None => inl EEXIST
  | Some (inl e) => inl e
  | Some (inr (parent, name)) =>
      match nodes fs !! parent with
      | None => inl ENOENT
      | Some (File _) => inl ENOTDIR
      | Some Dir =>
          if bool_decide (name = "." ∨ name = "..") then inl EEXIST
          else match nodes fs !! (parent ++ [name]) with
               | Some _ => inl EEXIST
               | None => inr (withNodes fs (<[parent ++ [name] := Dir]> (nodes fs)))
               end
      end
  end.

(** Opening [p] for writing, creating the file when it is missing:
    [update] gives the new content from the old one. *)
Definition openWrite (update : option string → string) (fs : t) (p : string)
    : Errno + t :=
  if bool_decide (p = "") then inl ENOENT
  else if Js.lastCharIs Path.slash p then inl EISDIR
  else match parentAndName fs p with
  | None => inl EISDIR
  | Some (inl e) => inl e
  | Some (inr (parent, name)) =>
      match nodes fs !! parent with
      | None => inl ENOENT
      | Some (File _) => inl ENOTDIR
      | Some Dir =>
          if bool_decide (name = "." ∨ name = "..") then inl EISDIR
          else match nodes fs !! (parent ++ [name]) with
               | Some Dir => inl EISDIR
               | Some (File c) =>
                   inr (withNodes fs (<[parent ++ [name] := File (update (Some c))]> (nodes fs)))
               | None =>
                   inr (withNodes fs (<[parent ++ [name] := File (update None)]> (nodes fs)))
               end
      end
  end.

(** [fs.appendFileSync(p, data)]. *)
Definition appendFileSync (fs : t) (p : string) (data : string) : Errno + t :=
  openWrite (λ old, default "" old +:+ data) fs p.

(** [fs.writeFileSync(p, data)]. *)
Definition writeFileSync (fs : t) (p : string) (data : string) : Errno + t :=
  openWrite (λ _, data) fs p.

Fixpoint stripPrefix (pre l : list string) : option (list string) :=
  match pre, l with
  | [], _ => Some l
  | x :: pre', y :: l' => if bool_decide (x = y) then stripPrefix pre' l' else None
  | _ :: _, [] => None
  end.

(** The entries below the directory [dir], as paths relative to it. *)
Definition descendants (fs : t) (dir : list string) : list (list string) :=
  omap (λ kv, match stripPrefix dir kv.1 with
              | Some (x :: rest) => Some (x :: rest)
              | _ => None
              end) (map_to_list (nodes fs)).

End Fs.

(** ** [mkdirp] *)

Module Mkdirp.

(** [mkdirp.sync(p)]: make [p], and on [ENOENT] first its parent, then
    [p] again; any other error is fine when [p] is a directory by
    then.  [fuel] bounds the recursion on the parent. *)
Fixpoint syncFuel (fuel : nat) (fs : Fs.t) (p : string) : Fs.Errno + Fs.t :=
  match fuel with
  | 0 => inl Fs.ENOENT
  | S fuel' =>
      let p := Path.resolve (Fs.cwd fs) [p] in
      match Fs.mkdirSync fs p with
      | inr fs' => inr fs'
      | inl Fs.ENOENT =>
          match syncFuel fuel' fs (Path.dirname p) with
          | inr fs1 => syncFuel fuel' fs1 p
          | inl e => inl e
          end
      | inl err0 =>
          match Fs.statSync fs p with
          | inr st => if Fs.isDirectory st then inr fs else inl err0
          | inl _ => inl err0
          end
      end
  end.

(** The parent of a resolved path is strictly shorter, so its length
    bounds the depth of the recursion. *)
Definition sync (fs : Fs.t) (p : string) : Fs.Errno + Fs.t :=
  syncFuel (String.length (Path.resolve (Fs.cwd fs) [p]) + 2) fs p.

End Mkdirp.

(** ** [lodash] *)

Module Lodash.

Section sortBy.
Context {A : Type}.

(** The objects [baseOrderBy] sorts: the value, its sort key and its
    position in the collection. *)
Record Entry := mkEntry { criteria : Z; index : nat; value : A }.

(** [compareMultiple] for a single ascending criterion: the keys are
    compared first, and equal keys fall back on the positions. *)
Definition compareEntries (a b : Entry) : Z :=
  if (criteria b <? criteria a)%Z then 1%Z
  else if (criteria a <? criteria b)%Z then (-1)%Z
  else (Z.of_nat (index a) - Z.of_nat (index b))%Z.

(** [array.sort(comparer)], as an insertion sort. *)
Fixpoint insertEntry (e : Entry) (l : list Entry) : list Entry :=
  match l with
  | [] => [e]
  | x :: l' =>
      if (compareEntries e x <=? 0)%Z then e :: x :: l'
      else x :: insertEntry e l'
  end.

Definition baseSortBy (l : list Entry) : list Entry :=
  foldr insertEntry [] l.

Definition decorate (iteratee : A → Z) (collection : list A) : list Entry :=
  imap (λ i v, mkEntry (iteratee v) i v) collection.

(** [sortBy(collection, iteratee)] for a numeric iteratee. *)
Definition sortBy (collection : list A) (iteratee : A → Z) : list A :=
  value <$> baseSortBy (decorate iteratee collection).
End sortBy.

Global Arguments Entry : clear implicits.

(** [compact(array)]: the falsy entries (here: [undefined]) removed. *)
Definition compact {A} (array : list (option A)) : list A :=
  omap id array.

End Lodash.

(** ** [vscode-cache] *)

(** The values the cache can hold, by their JavaScript type: [VStrings]
    is an array of strings, [VObject] a [DirectoryOption]. *)
Inductive Value :=
| VNull
| VBoolean (b : bool)
| VNumber (n : Z)
| VString (s : string)
| VStrings (l : list string)
| VObject (o : DirectoryOption).

Global Instance Value_eq_dec : EqDecision Value.
Proof. solve_decision. Defined.

(** [typeof v]; [None] is [undefined]. *)
Definition typeof (v : option Value) : string :=
  match v with
  | None => "undefined"
  | Some (VBoolean _) => "boolean"
  | Some (VNumber _) => "number"
  | Some (VString _) => "string"
  | Some VNull | Some (VStrings _) | Some (VObject _) => "object"
  end.

(** Truthiness, as [||] and [!] test it. *)
Definition truthy (v : option Value) : bool :=
  match v with
  | None | Some VNull => false
  | Some (VBoolean b) => b
  | Some (VNumber n) => negb (n =? 0)%Z
  | Some (VString s) => negb (bool_decide (s = ""))
  | Some (VStrings _) | Some (VObject _) => true
  end.

Module Cache.

(** A cache is its key-value store; no entry of the extension expires. *)
Abbreviation t := (gmap string Value).

Definition has (cache : t) (key : string) : bool :=
  bool_decide (is_Some (cache !! key)).
Definition get (cache : t) (key : string) : option Value := cache !! key.
Definition put (cache : t) (key : string) (v : Value) : t := <[key := v]> cache.
Definition forget (cache : t) (key : string) : t := delete key cache.

End Cache.

(** ** Text documents *)

Module TextDocument.

Record Position := mkPosition { line : nat; character : nat }.
Record Range := mkRange { start : Position; end_ : Position }.

Global Instance Position_eq_dec : EqDecision Position.
Proof. solve_decision. Defined.
Global Instance Range_eq_dec : EqDecision Range.
Proof. solve_decision. Defined.

Definition newline : ascii := "010"%char.
Definition eol : string := String newline "".

Definition lines (text : string) : list string := Js.split newline text.

(** [document.lineCount]. *)
Definition lineCount (text : string) : nat := length (lines text).

(** [document.lineAt(i).range.end]. *)
Definition lineEnd (text : string) (i : nat) : Position :=
  mkPosition i (String.length (default "" (lines text !! i))).

(** The offset of the position [(l, c)] in the lines [ls]; a position
    is validated first: a line past the last one means the end of the
    document, a character past the end of its line means that end. *)
Fixpoint offsetIn (ls : list string) (l c : nat) : nat :=
  match ls with
  | [] => 0
  | [x] => match l with 0 => c `min` String.length x | S _ => String.length x end
  | x :: ls' =>
      match l with
      | 0 => c `min` String.length x
      | S l' => String.length x + 1 + offsetIn ls' l' c
      end
  end.

(** [document.offsetAt(position)]. *)
Definition offsetAt (text : string) (p : Position) : nat :=
  offsetIn (lines text) (line p) (character p).

Definition startOffset (text : string) (r : Range) : nat :=
  offsetAt text (start r) `min` offsetAt text (end_ r).
Definition endOffset (text : string) (r : Range) : nat :=
  offsetAt text (start r) `max` offsetAt text (end_ r).

(** [document.getText(range)]. *)
Definition getText (text : string) (r : Range) : string :=
  Js.takeString (endOffset text r - startOffset text r)
    (Js.dropString (startOffset text r) text).

(** The text after [editBuilder.delete(range)]. *)
Definition delete (text : string) (r : Range) : string :=
  Js.takeString (startOffset text r) text +:+ Js.dropString (endOffset text r) text.

(** The text after [editBuilder.insert(position, value)]. *)
Definition insert (text : string) (p : Position) (value : string) : string :=
  Js.takeString (offsetAt text p) text +:+ value +:+ Js.dropString (offsetAt text p) text.

End TextDocument.

(** ** [gitignore-to-glob] *)

(** The conversion the library performs on the lines of an ignore file,
    stage by stage, without its optional list of directories. *)
Module GitignoreToGlob.

(** [s.indexOf(sub) !== -1]. *)
Definition includes (sub s : string) : bool :=
  match String.index 0 sub s with Some _ => true | None => false end.

(** Empty lines and comments are no patterns. *)
Definition isPattern (pattern : string) : bool :=
  match pattern with
  | "" => false
  | String a _ => negb (bool_decide (a = "#"%char))
  end.

(** An exclamation mark means opposite things in a [.gitignore] and in a
    glob: the flag of the glob and the bare pattern. *)
Definition swapNegation (pattern : string) : string * string :=
  match pattern with
  | String "!"%char rest => ("", rest)
  | _ => ("!", pattern)
  end.

(** Hidden files and directories are left out. *)
Definition notHidden (pair : string * string) : bool :=
  negb (includes "/." pair.2) && negb (Js.startsWith pair.2 ".").

(** A pattern without a leading slash applies at any depth; one with a
    leading slash is relative to the directory. *)
Definition anchor (pair : string * string) : string * string :=
  match pair.2 with
  | String "/"%char rest => (pair.1, rest)
  | pattern => (pair.1, "**/" +:+ pattern)
  end.

(** The pattern itself and everything below it. *)
Definition withChildren (pair : string * string) : list string :=
  [pair.1 +:+ pair.2; pair.1 +:+ pair.2 +:+ "/**"].

(** The conversion of the content of an ignore file (the [string: true]
    mode of the library). *)
Definition ofString (content : string) : list string :=
  flat_map withChildren
    (anchor <$> filter (λ pr, notHidden pr)
       (swapNegation <$> filter (λ l, isPattern l) (Js.split "010"%char content))).

(** [gitignoreToGlob(file)]. *)
Definition ofFile (fs : Fs.t) (file : string) : Fs.Errno + list string :=
  match Fs.readFileSync fs file with
  | inl e => inl e
  | inr content => inr (ofString content)
  end.

End GitignoreToGlob.

(** ** [glob] and [minimatch] *)

Module Glob.

(** One path segment against a segment pattern made of literal
    characters, [?] and [*]. *)
Fixpoint wildcard (pat : string) : string → bool :=
  match pat with
  | "" => λ s, bool_decide (s = "")
  | String p pat' =>
      if bool_decide (p = "*"%char) then
        fix star (s : string) : bool :=
          wildcard pat' s ||
          match s with "" => false | String _ s' => star s' end
      else λ s,
        match s with
        | "" => false
        | String c s' =>
            (bool_decide (p = "?"%char) || bool_decide (p = c)) && wildcard pat' s'
        end
  end.

(** Without the [dot] option a segment starting with a dot is matched
    only by a pattern that starts with a dot itself. *)
Definition dotOk (dot : bool) (pat seg : string) : bool :=
  dot || negb (Js.startsWith seg ".") || Js.startsWith pat ".".

Definition matchSegment (dot : bool) (pat seg : string) : bool :=
  dotOk dot pat seg && wildcard pat seg.

(** The segments of a path against those of a pattern; [**] stands for
    any number of segments, at least one when it ends the pattern. *)
Fixpoint matchSegments (dot : bool) (pats : list string) : list string → bool :=
  match pats with
  | [] => λ segs, bool_decide (segs = [])
  | p :: pats' =>
      if bool_decide (p = "**") then
        match pats' with
        | [] => λ segs,
            negb (bool_decide (segs = [])) && forallb (dotOk dot "**") segs
        | _ =>
            fix star (segs : list string) : bool :=
              matchSegments dot pats' segs ||
              match segs with
              | [] => false
              | s :: segs' => dotOk dot "**" s && star segs'
              end
        end
      else λ segs,
        match segs with
        | [] => false
        | s :: segs' => matchSegment dot p s && matchSegments dot pats' segs'
        end
  end.

(** [minimatch(path, pattern, {dot})] on the fragment of patterns above. *)
Definition minimatch (dot : bool) (pattern path : string) : bool :=
  matchSegments dot (Js.split Path.slash pattern) (Js.split Path.slash path).

Fixpoint dropGlobstars (patsRev : list string) : list string :=
  match patsRev with
  | p :: (_ :: _) as rest =>
      if bool_decide (p = "**") then dropGlobstars rest else patsRev
  | _ => patsRev
  end.

(** For an ignore pattern that ends in [/**], the pattern of the
    directory itself. *)
Definition gmatcher (pattern : string) : option string :=
  let pats := Js.split Path.slash pattern in
  let kept := rev (dropGlobstars (rev pats)) in
  if bool_decide (length kept < length pats) then Some (Js.join "/" kept) else None.

(** One ignore pattern against a path; ignore patterns always match in
    [dot] mode. *)
Definition ignores (pattern path : string) : bool :=
  minimatch true pattern path ||
  match gmatcher pattern with
  | Some g => minimatch true g path
  | None => false
  end.

Definition isIgnored (ignore : list string) (path : string) : bool :=
  existsb (λ pattern, ignores pattern path) ignore.

(** [glob.sync(pattern, {cwd, ignore})]: the entries below [cwd] that
    match the pattern and no ignore pattern, as paths relative to [cwd],
    sorted. *)
Definition sync (fs : Fs.t) (pattern : string) (cwd : string)
    (ignore : list string) : list string :=
  match Fs.locate fs cwd with
  | inl _ => []
  | inr dir =>
      merge_sort String.le
        (filter (λ f, minimatch false pattern f && negb (isIgnored ignore f))
           (Js.join "/" <$> Fs.descendants fs dir))
  end.

End Glob.

(** ** Exceptions *)

Inductive Outcome (A : Type) :=
| Ok (a : A)
| Throw (error : string).
Global Arguments Ok {A} a.
Global Arguments Throw {A} error.

(** Sequencing: an exception ends the computation. *)
Definition bindOutcome {A B} (c : Outcome A) (f : A → Outcome B) : Outcome B :=
  match c with
  | Ok a => f a
  | Throw e => Throw e
  end.

Notation "x ⇐ c ; k" := (bindOutcome c (λ x, k))
  (at level 20, c at level 100, k at level 200, only parsing).

Definition ofErrno {A} (r : Fs.Errno + A) : Outcome A :=
  match r with
  | inr a => Ok a
  | inl Fs.ENOENT => Throw "ENOENT"
  | inl Fs.ENOTDIR => Throw "ENOTDIR"
  | inl Fs.EEXIST => Throw "EEXIST"
  | inl Fs.EISDIR => Throw "EISDIR"
  end.

(** [array.map(f)] for an [f] that can throw. *)
Fixpoint mapOutcome {A B} (f : A → Outcome B) (l : list A) : Outcome (list B) :=
  match l with
  | [] => Ok []
  | x :: l' => y ⇐ f x; ys ⇐ mapOutcome f l'; Ok (y :: ys)
  end.

(** [array.filter(p)] for a [p] that can throw. *)
Fixpoint filterOutcome {A} (p : A → Outcome bool) (l : list A) : Outcome (list A) :=
  match l with
  | [] => Ok []
  | x :: l' =>
      b ⇐ p x; ys ⇐ filterOutcome p l';
      Ok (if b : bool then x :: ys else ys)
  end.

(** ** The editor *)

Record TextEditor := mkTextEditor {
  document : string;
  selection : TextDocument.Range
}.

(** The settings the extension reads.  An exclude object is the list of
    its keys, each with whether its value is [true]. *)
Record Configuration := mkConfiguration {
  advancedNewFileExclude : list (string * bool);
  filesExclude : string → list (string * bool);
  convenienceOptionNames : list string;
  showInformationMessages : bool
}.

Inductive Message :=
| ErrorMessage (text : string)
| InformationMessage (text : string).

Record World := mkWorld {
  activeTextEditor : option TextEditor;
  textDocuments : gmap string string;
  fileSystem : Fs.t;
  workspaceFolders : option (list string);
  workspaceRootPath : option string;
  configuration : Configuration;
  globalState : gmap string (gmap string Value);
  messages : list Message
}.

(** What the user does with the two pickers (the position of the item
    picked, [None] to dismiss) and with the input box (the text typed for
    a prompt, [None] to dismiss). *)
Record User := mkUser {
  pickDirectory : list QuickPickItem → option nat;
  pickFile : list QuickPickItem → option nat;
  typePath : string → option string
}.

Definition setActiveTextEditor (w : World) (e : option TextEditor) : World :=
  mkWorld e (textDocuments w) (fileSystem w) (workspaceFolders w)
    (workspaceRootPath w) (configuration w) (globalState w) (messages w).
Definition setTextDocuments (w : World) (d : gmap string string) : World :=
  mkWorld (activeTextEditor w) d (fileSystem w) (workspaceFolders w)
    (workspaceRootPath w) (configuration w) (globalState w) (messages w).
Definition setFileSystem (w : World) (fs : Fs.t) : World :=
  mkWorld (activeTextEditor w) (textDocuments w) fs (workspaceFolders w)
    (workspaceRootPath w) (configuration w) (globalState w) (messages w).
Definition setGlobalState (w : World) (g : gmap string (gmap string Value)) : World :=
  mkWorld (activeTextEditor w) (textDocuments w) (fileSystem w) (workspaceFolders w)
    (workspaceRootPath w) (configuration w) g (messages w).
Definition setMessages (w : World) (m : list Message) : World :=
  mkWorld (activeTextEditor w) (textDocuments w) (fileSystem w) (workspaceFolders w)
    (workspaceRootPath w) (configuration w) (globalState w) m.

(** [vscode.window.showErrorMessage] and [showInformationMessage]. *)
Definition showErrorMessage (w : World) (text : string) : World :=
  setMessages w (messages w ++ [ErrorMessage text]).
Definition showInformationMessage (w : World) (text : string) : World :=
  setMessages w (messages w ++ [InformationMessage text]).

(** The text of an open document. *)
Definition documentText (w : World) (doc : string) : string :=
  default "" (textDocuments w !! doc).

(** [editor.edit(callback)]: the edit applied to the editor's document. *)
Definition edit (w : World) (doc : string) (change : string → string) : World :=
  setTextDocuments w (alter change doc (textDocuments w)).

(** [vscode.workspace.openTextDocument(file)]: the document already open
    for the file, or a new one read from disk. *)
Definition openTextDocument (w : World) (file : string) : Outcome unit * World :=
  match textDocuments w !! file with
  | Some _ => (Ok (), w)
  | None =>
      match Fs.readFileSync (fileSystem w) file with
      | inr content => (Ok (), setTextDocuments w (<[file := content]> (textDocuments w)))
      | inl e => (ofErrno (inl e), w)
      end
  end.

(** [vscode.window.showTextDocument(document)]: the editor that shows it
    becomes the active one. *)
Definition showTextDocument (w : World) (doc : string) : World :=
  match activeTextEditor w with
  | Some e =>
      if bool_decide (document e = doc) then w
      else setActiveTextEditor w (Some (mkTextEditor doc
             (TextDocument.mkRange (TextDocument.mkPosition 0 0) (TextDocument.mkPosition 0 0))))
  | None =>
      setActiveTextEditor w (Some (mkTextEditor doc
        (TextDocument.mkRange (TextDocument.mkPosition 0 0) (TextDocument.mkPosition 0 0))))
  end.

(** [document.save()]; a failure to write is not reported. *)
Definition save (w : World) (doc : string) : World :=
  match textDocuments w !! doc with
  | Some text =>
      match Fs.writeFileSync (fileSystem w) doc text with
      | inr fs' => setFileSystem w fs'
      | inl _ => w
      end
  | None => w
  end.

(** [vscode.workspace.findFiles(new RelativePattern(base, "*"))]: the
    files directly in [base]. *)
Definition findFiles (fs : Fs.t) (base : string) : list string :=
  match Fs.locate fs base with
  | inl _ => []
  | inr dir =>
      merge_sort String.le
        (omap (λ kv, match Fs.stripPrefix dir kv.1, kv.2 with
                     | Some [name], Fs.File _ => Some ("/" +:+ Js.join "/" (dir ++ [name]))
                     | _, _ => None
                     end) (map_to_list (Fs.nodes fs)))
  end.

(** [Object.assign([], ...sources)] on exclude objects: a key keeps the
    place of its first occurrence and takes its last value. *)
Fixpoint assignKey (target : list (string * bool)) (key : string) (v : bool)
    : list (string * bool) :=
  match target with
  | [] => [(key, v)]
  | (k, v') :: target' =>
      if bool_decide (k = key) then (k, v) :: target'
      else (k, v') :: assignKey target' key v
  end.
Definition objectAssign (target source : list (string * bool)) : list (string * bool) :=
  foldl (λ acc kv, assignKey acc kv.1 kv.2) target source.

(** ** The functions of [extension.ts] *)

Definition isFolderDescriptor (filepath : string) : bool :=
  Js.lastCharIs Path.slash filepath.

(** [pattern.replace(/^!/, "")]. *)
Definition invertGlob (pattern : string) : string :=
  match pattern with
  | String "!"%char rest => rest
  | _ => pattern
  end.

(** [walkupGitignores(dir, found)], the recursion on the parent directory
    bounded by [fuel]; [None] when the fuel runs out. *)
Fixpoint walkupGitignoresFuel (fuel : nat) (fs : Fs.t) (dir : string)
    (found : list string) : option (list string) :=
  match fuel with
  | 0 => None
  | S fuel' =>
      let gitignore := Path.join [dir; ".gitignore"] in
      let found := if Fs.existsSync fs gitignore then found ++ [gitignore] else found in
      let parentDir := Path.resolve (Fs.cwd fs) [dir; ".."] in
      let reachedSystemRoot := bool_decide (dir = parentDir) in
      if negb reachedSystemRoot then walkupGitignoresFuel fuel' fs parentDir found
      else Some found
  end.

(** The parent of a resolved directory is shorter than it, so the length
    of the resolved input bounds the walk. *)
Definition walkupGitignores (fs : Fs.t) (dir : string) : option (list string) :=
  walkupGitignoresFuel (String.length (Path.resolve (Fs.cwd fs) [dir]) + 2) fs dir [].

Definition flatten {A} (memo : list A) (item : list A) : list A := memo ++ item.

Definition gitignoreGlobs (fs : Fs.t) (root : string) : Outcome (list string) :=
  match walkupGitignores fs root with
  | None => Throw "RangeError"
  | Some gitignoreFiles =>
      globs ⇐ mapOutcome (λ g, ofErrno (GitignoreToGlob.ofFile fs g)) gitignoreFiles;
      Ok (foldl flatten [] globs)
  end.

Definition configIgnoredGlobs (config : Configuration) (root : string) : list string :=
  let configFilesExclude :=
    objectAssign (objectAssign [] (advancedNewFileExclude config)) (filesExclude config root) in
  let configIgnored := (fst <$> filter (λ kv, kv.2 = true) configFilesExclude) in
  GitignoreToGlob.ofString (Js.join (String "010"%char "") configIgnored).

(** The ignore patterns [directoriesSync] hands to [glob]. *)
Definition ignoreGlobs (fs : Fs.t) (config : Configuration) (root : string)
    : Outcome (list string) :=
  globs ⇐ gitignoreGlobs fs root;
  Ok (invertGlob <$> (globs ++ configIgnoredGlobs config root)).

Definition directoriesSync (fs : Fs.t) (config : Configuration) (root : string)
    : Outcome (list FSLocation) :=
  ignore ⇐ ignoreGlobs fs config root;
  filterOutcome
    (λ f, st ⇐ ofErrno (Fs.statSync fs (absolute f)); Ok (Fs.isDirectory st))
    ((λ f, mkFSLocation (Path.join [Path.sep; f]) (Path.join [root; f]))
       <$> Glob.sync fs "**" root ignore).

(** [directories(root)]: [directoriesSync] behind a timer. *)
Definition directories (fs : Fs.t) (config : Configuration) (root : string)
    : Outcome (list FSLocation) :=
  directoriesSync fs config root.

Definition buildQuickPickItem (opt : option DirectoryOption)
    (description : option string) : option QuickPickItem :=
  match opt with
  | None => None
  | Some o => Some (mkQuickPickItem (displayText o) description (Some o) None)
  end.

Definition currentEditorPath (w : World) : option string :=
  match activeTextEditor w with
  | None => None
  | Some activeEditor => Some (Path.dirname (document activeEditor))
  end.

Definition createFileOrFolder (fs : Fs.t) (absolutePath : string) : Outcome Fs.t :=
  let directoryToFile := Path.dirname absolutePath in
  if negb (Fs.existsSync fs absolutePath) then
    if isFolderDescriptor absolutePath then
      ofErrno (Mkdirp.sync fs absolutePath)
    else
      fs1 ⇐ ofErrno (Mkdirp.sync fs directoryToFile);
      ofErrno (Fs.appendFileSync fs1 absolutePath "")
  else Ok fs.

Definition openFile (w : World) (absolutePath : string) : Outcome unit * World :=
  if isFolderDescriptor absolutePath then
    if showInformationMessages (configuration w)
    then (Ok (), showInformationMessage w ("Folder created: " +:+ absolutePath))
    else (Ok (), w)
  else
    match openTextDocument w absolutePath with
    | (Ok _, w1) => (Ok (), showTextDocument w1 absolutePath)
    | (Throw e, w1) => (Throw e, w1)
    end.

Definition lastSelection (cache : Cache.t) : option Value * Cache.t :=
  if negb (Cache.has cache "last") then (None, cache)
  else
    let value := Cache.get cache "last" in
    if bool_decide (typeof value = "object") then (value, cache)
    else (None, Cache.forget cache "last").

Definition workspaceRoots (w : World) : list WorkspaceRoot :=
  match workspaceFolders w with
  | Some folders =>
      let multi := bool_decide (1 < length folders) in
      (λ folder, mkWorkspaceRoot folder (Path.basename folder) multi) <$> folders
  | None =>
      match workspaceRootPath w with
      | Some rootPath =>
          if bool_decide (rootPath = "") then []
          else [mkWorkspaceRoot rootPath (Path.basename rootPath) false]
      | None => []
      end
  end.

Definition rootOptions (roots : list WorkspaceRoot) : list DirectoryOption :=
  (λ root, mkDirectoryOption
     (if multi root then Path.join [Path.sep; baseName root] else Path.sep)
     (mkFSLocation Path.sep (rootPath root))) <$> roots.

(** [currentEditorPathOption(roots)]; the regular expression built from
    the root path is taken to match that path literally (it does for a
    path without metacharacters), where it is known to be a prefix. *)
Definition currentEditorPathOption (w : World) (roots : list WorkspaceRoot)
    : option DirectoryOption :=
  match currentEditorPath w with
  | None => None
  | Some currentFilePath =>
      if bool_decide (currentFilePath = "") then None
      else
        match Js.find (λ r, Js.startsWith currentFilePath (rootPath r)) roots with
        | None => None
        | Some currentFileRoot =>
            let stripped := Js.dropString (String.length (rootPath currentFileRoot)) currentFilePath in
            let relativeCurrentFilePath :=
              if bool_decide (stripped = "") then Path.sep else stripped in
            let displayText :=
              if multi currentFileRoot
              then Path.join [Path.sep; baseName currentFileRoot; relativeCurrentFilePath]
              else relativeCurrentFilePath in
            Some (mkDirectoryOption displayText
                    (mkFSLocation relativeCurrentFilePath currentFilePath))
        end
  end.

(** A value of the cache read as a [DirectoryOption]: the command stores
    nothing else under ["last"], and [null] is no option. *)
Definition asDirectoryOption (v : option Value) : option DirectoryOption :=
  match v with
  | Some (VObject o) => Some o
  | _ => None
  end.

Definition convenienceOptions (w : World) (roots : list WorkspaceRoot)
    (cache : Cache.t) : Outcome (list QuickPickItem) * Cache.t :=
  let config := convenienceOptionNames (configuration w) in
  let '(lastValue, cache') := lastSelection cache in
  let optionsByName (name : string) : option (list (option QuickPickItem)) :=
    if bool_decide (name = "last") then
      Some [buildQuickPickItem (asDirectoryOption lastValue) (Some "- last selection")]
    else if bool_decide (name = "current") then
      Some [buildQuickPickItem (currentEditorPathOption w roots) (Some "- current file")]
    else if bool_decide (name = "root") then
      Some ((λ o, buildQuickPickItem (Some o) (Some "- workspace root")) <$> rootOptions roots)
    else None in
  let concat memo (item : option (list (option QuickPickItem))) :=
    match item with
    | Some l => flatten memo l
    | None => memo ++ [None]
    end in
  (match optionsByName <$> config with
   | [] => Throw "TypeError: Reduce of empty array with no initial value"
   | [only] => Ok (Lodash.compact (default [] only))
   | None :: _ => Throw "TypeError: Cannot read properties of undefined"
   | Some first :: rest => Ok (Lodash.compact (foldl concat first rest))
   end, cache').

Definition subdirOptionsForRoot (w : World) (root : WorkspaceRoot)
    : Outcome (list DirectoryOption) :=
  dirs ⇐ directories (fileSystem w) (configuration w) (rootPath root);
  Ok ((λ dir,
         let displayText :=
           if multi root then Path.join [Path.sep; baseName root; relative dir]
           else relative dir in
         mkDirectoryOption displayText dir) <$> dirs).

Definition dirQuickPickItems (w : World) (roots : list WorkspaceRoot)
    (cache : Cache.t) : Outcome (list QuickPickItem) * Cache.t :=
  match mapOutcome (subdirOptionsForRoot w) roots with
  | Throw e => (Throw e, cache)
  | Ok [] => (Throw "TypeError: Reduce of empty array with no initial value", cache)
  | Ok (first :: rest) =>
      let quickPickItems :=
        omap (λ o, buildQuickPickItem (Some o) None) (foldl flatten first rest) in
      match convenienceOptions w roots cache with
      | (Ok convenience, cache') => (Ok (convenience ++ quickPickItems), cache')
      | (Throw e, cache') => (Throw e, cache')
      end
  end.

(** [cacheSelection(cache, dir, root)]; [root] is [None] when
    [rootForDir] found none, and reading its path throws then. *)
Definition cacheSelection (cache : Cache.t) (dir : DirectoryOption)
    (root : option WorkspaceRoot) : Outcome unit * Cache.t :=
  let cache1 := Cache.put cache "last" (VObject dir) in
  let stored := Cache.get cache1 "recentRoots" in
  match root with
  | None => (Throw "TypeError: Cannot read properties of undefined", cache1)
  | Some root =>
      match (if truthy stored then stored else Some (VStrings [])) with
      | Some (VStrings recentRoots) =>
          let rootIndex := Js.indexOf recentRoots (rootPath root) in
          let recentRoots :=
            if (0 <=? rootIndex)%Z then Js.splice1 recentRoots (Z.to_nat rootIndex)
            else recentRoots in
          let recentRoots := rootPath root :: recentRoots in
          (Ok (), Cache.put cache1 "recentRoots" (VStrings recentRoots))
      | _ => (Throw "TypeError: recentRoots.unshift is not a function", cache1)
      end
  end.

(** The iteratee of [sortRoots]. *)
Definition desiredIndexOf (roots : list WorkspaceRoot) (desiredOrder : list string)
    (root : WorkspaceRoot) : Z :=
  let desiredIndex := Js.indexOf desiredOrder (rootPath root) in
  if (0 <=? desiredIndex)%Z then desiredIndex else Z.of_nat (length roots).

Definition sortRoots (roots : list WorkspaceRoot) (desiredOrder : list string)
    : list WorkspaceRoot :=
  Lodash.sortBy roots (desiredIndexOf roots desiredOrder).

Definition rootForDir (roots : list WorkspaceRoot) (dir : DirectoryOption)
    : option WorkspaceRoot :=
  Js.find (λ r, Js.startsWith (absolute (fsLocation dir)) (rootPath r)) roots.

Definition showInputBox (user : User) (baseDirectory : DirectoryOption)
    : option string :=
  match typePath user ("Relative to " +:+ displayText baseDirectory) with
  | Some input => Some (Path.join [absolute (fsLocation baseDirectory); input])
  | None => None
  end.

(** The cache of a workspace lives in the global state of the extension
    under its name; [put] and [forget] write it back. *)
Definition loadCache (w : World) (namespace : string) : Cache.t :=
  default ∅ (globalState w !! namespace).
Definition storeCache (w : World) (namespace : string) (cache : Cache.t) : World :=
  setGlobalState w (<[namespace := cache]> (globalState w)).
Definition storeCacheIfChanged (w : World) (namespace : string)
    (before after : Cache.t) : World :=
  if bool_decide (before = after) then w else storeCache w namespace after.

(** [cache.get("recentRoots") || []]; the command stores nothing but
    arrays of strings under that key, and any other truthy value is
    reported as a type error. *)
Definition recentRootsOrEmpty (cache : Cache.t) : Outcome (list string) :=
  let stored := Cache.get cache "recentRoots" in
  if truthy stored then
    match stored with
    | Some (VStrings l) => Ok l
    | _ => Throw "TypeError: desiredOrder.indexOf is not a function"
    end
  else Ok [].

Definition emptySelection : TextDocument.Range :=
  TextDocument.mkRange (TextDocument.mkPosition 0 0) (TextDocument.mkPosition 0 0).

(** The entries of the second picker. *)
Definition fileChoices (localFiles : list string) : list QuickPickItem :=
  ((λ file, mkQuickPickItem (List.last (Js.split Path.slash file) "") None None (Some file))
     <$> localFiles)
  ++ [mkQuickPickItem "Create new file" None None None].

(** The branch of [command] for a picked existing file; the edits take
    effect in the order in which they are issued. *)
Definition moveToExistingFile (w : World) (editor : TextEditor)
    (selectionText : string) (fileUri : string) : Outcome unit * World :=
  let w1 := edit w (document editor) (λ text, TextDocument.delete text (selection editor)) in
  match openTextDocument w1 fileUri with
  | (Throw e, w2) => (Throw e, w2)
  | (Ok _, w2) =>
      let w3 := showTextDocument w2 fileUri in
      let w4 := edit w3 fileUri (λ text,
        TextDocument.insert text
          (TextDocument.lineEnd text (TextDocument.lineCount text - 1))
          (TextDocument.eol +:+ selectionText)) in
      (Ok (), save w4 fileUri)
  end.

(** The branch of [command] for "Create new file".  The state after a
    failed [createFileOrFolder] is the one before the call. *)
Definition moveToNewFile (user : User) (w : World) (editor : TextEditor)
    (selectionText : string) (dir : DirectoryOption) : Outcome unit * World :=
  match showInputBox user dir with
  | None => (Ok (), w)
  | Some newFileInput =>
      if bool_decide (newFileInput = "") then (Ok (), w) else
      match createFileOrFolder (fileSystem w) newFileInput with
      | Throw e => (Throw e, w)
      | Ok fs' =>
          let w1 := setFileSystem w fs' in
          let w2 := edit w1 (document editor)
                      (λ text, TextDocument.delete text (selection editor)) in
          match openFile w2 newFileInput with
          | (Throw e, w3) => (Throw e, w3)
          | (Ok _, w3) =>
              match activeTextEditor w3 with
              | None => (Throw "TypeError: Cannot read properties of undefined", w3)
              | Some activeEditor =>
                  let w4 := edit w3 (document activeEditor) (λ text,
                    TextDocument.insert text (TextDocument.mkPosition 0 0) selectionText) in
                  let w5 := save w4 (document activeEditor) in
                  (Ok (), setActiveTextEditor w5
                            (Some (mkTextEditor (document activeEditor) emptySelection)))
              end
          end
      end
  end.

Definition command (user : User) (w : World) : Outcome unit * World :=
  match activeTextEditor w with
  | None => (Ok (), w)
  | Some editor =>
      let selectionText :=
        TextDocument.getText (documentText w (document editor)) (selection editor) in
      if bool_decide (String.length selectionText = 0) then
        (Ok (), showErrorMessage w "There isn't any text selected.")
      else
        let roots := workspaceRoots w in
        if bool_decide (0 < length roots) then
          let cacheName := Js.join ";" (rootPath <$> roots) in
          let namespace := "workspace:" +:+ cacheName in
          let cache := loadCache w namespace in
          match recentRootsOrEmpty cache with
          | Throw e => (Throw e, w)
          | Ok recentRoots =>
              let sortedRoots := sortRoots roots recentRoots in
              match dirQuickPickItems w sortedRoots cache with
              | (Throw e, cache1) => (Throw e, storeCacheIfChanged w namespace cache cache1)
              | (Ok items, cache1) =>
                  let w1 := storeCacheIfChanged w namespace cache cache1 in
                  match pickDirectory user items ≫= (items !!.) with
                  | None => (Ok (), w1)
                  | Some dirSelection =>
                      match itemOption dirSelection with
                      | None => (Throw "TypeError: Cannot read properties of undefined", w1)
                      | Some dir =>
                          let selectedRoot := rootForDir roots dir in
                          let '(cached, cache2) := cacheSelection cache1 dir selectedRoot in
                          let w2 := storeCache w1 namespace cache2 in
                          match cached with
                          | Throw e => (Throw e, w2)
                          | Ok _ =>
                              let localFiles :=
                                findFiles (fileSystem w2) (absolute (fsLocation dir)) in
                              let choices := fileChoices localFiles in
                              match pickFile user choices ≫= (choices !!.) with
                              | None => (Ok (), w2)
                              | Some choice =>
                                  match uri choice with
                                  | Some fileUri =>
                                      moveToExistingFile w2 editor selectionText fileUri
                                  | None =>
                                      moveToNewFile user w2 editor selectionText dir
                                  end
                              end
                          end
                      end
                  end
              end
          end
        else
          (Ok (), showErrorMessage w
            ("It doesn't look like you have a folder opened in your workspace. " +:+
             "Try opening a folder first."))
  end.

(** ** Notions the properties are stated with *)

(** [output] is [input] sorted by [key], stably: it lists the elements of
    [input] along a permutation of their positions, by ascending key, and
    elements of equal key in the order of their positions. *)
Definition stablySortedBy {A} (key : A → Z) (input output : list A) : Prop :=
  ∃ positions : list nat,
    positions ≡ₚ seq 0 (length input) ∧
    Forall2 (λ i x, input !! i = Some x) positions output ∧
    ∀ i j a b x y, i < j →
      positions !! i = Some a → positions !! j = Some b →
      input !! a = Some x → input !! b = Some y →
      (key x < key y)%Z ∨ (key x = key y ∧ a < b).

(** Every root that is not in the order list comes after every root that
    is. *)
Definition unseenLast (order : list string) (output : list WorkspaceRoot) : Prop :=
  ∀ i j r1 r2,
    output !! i = Some r1 → output !! j = Some r2 →
    rootPath r1 ∉ order → rootPath r2 ∈ order → j < i.

(** The order [compareEntries] decides: by key, then by position. *)
Definition entryLe {A} (e1 e2 : Lodash.Entry A) : Prop :=
  (Lodash.criteria e1 < Lodash.criteria e2)%Z ∨
  (Lodash.criteria e1 = Lodash.criteria e2 ∧ Lodash.index e1 ≤ Lodash.index e2).

(** A decorated entry records where its value stands and its key. *)
Definition faithful {A} (key : A → Z) (input : list A) (e : Lodash.Entry A) : Prop :=
  input !! Lodash.index e = Some (Lodash.value e) ∧
  Lodash.criteria e = key (Lodash.value e).

(** Three roots, and an order list longer than the first two of them in
    which only the second one occurs. *)
Definition rootA : WorkspaceRoot := mkWorkspaceRoot "/a" "a" true.
Definition rootB : WorkspaceRoot := mkWorkspaceRoot "/b" "b" true.
Definition rootC : WorkspaceRoot := mkWorkspaceRoot "/c" "c" true.

(** A cache with two recent roots, and a selection below the second. *)
Definition cacheAB : Cache.t := {[ "recentRoots" := VStrings ["/a"; "/b"] ]}.
Definition dirB : DirectoryOption :=
  mkDirectoryOption "/b/src" (mkFSLocation "/src" "/b/src").

(** A cache whose last selection is a string, and one where it is an
    option. *)
Definition cacheStaleLast : Cache.t := {[ "last" := VString "/b/src" ]}.
Definition cacheLastB : Cache.t := {[ "last" := VObject dirB ]}.

(** The text selected in an editor. *)
Definition selectedText (w : World) (editor : TextEditor) : string :=
  TextDocument.getText (documentText w (document editor)) (selection editor).

(** The name of the cache of the workspace. *)
Definition cacheNamespace (roots : list WorkspaceRoot) : string :=
  "workspace:" +:+ Js.join ";" (rootPath <$> roots).

(** The text [openTextDocument] finds for a file: that of the open
    document, else the content on disk. *)
Definition openedText (w : World) (file : string) : option string :=
  match textDocuments w !! file with
  | Some text => Some text
  | None =>
      match Fs.readFileSync (fileSystem w) file with
      | inr content => Some content
      | inl _ => None
      end
  end.

(** The user confirms the directory [dir] in the first picker and the
    existing file [fileUri] in the second: the candidates were listed, the
    item picked carries [dir], the selection was cached, and the item
    picked among the files of [dir] carries [fileUri]. *)
Definition confirmsExistingFile (user : User) (w : World)
    (dir : DirectoryOption) (fileUri : string) : Prop :=
  let roots := workspaceRoots w in
  let cache := loadCache w (cacheNamespace roots) in
  let choices := fileChoices (findFiles (fileSystem w) (absolute (fsLocation dir))) in
  ∃ recent items cache1 i dirSelection cache2 j choice,
    recentRootsOrEmpty cache = Ok recent ∧
    dirQuickPickItems w (sortRoots roots recent) cache = (Ok items, cache1) ∧
    pickDirectory user items = Some i ∧ items !! i = Some dirSelection ∧
    itemOption dirSelection = Some dir ∧
    cacheSelection cache1 dir (rootForDir roots dir) = (Ok (), cache2) ∧
    pickFile user choices = Some j ∧ choices !! j = Some choice ∧
    uri choice = Some fileUri.

(** A workspace [/w] with an ignore file, two source files and three
    directories, and editors on it. *)
Definition sampleFs : Fs.t :=
  Fs.mk (list_to_map
    [ ([], Fs.Dir);
      (["w"], Fs.Dir);
      (["w"; ".gitignore"], Fs.File ("build" +:+ TextDocument.eol +:+ "!keep"));
      (["w"; "build"], Fs.Dir);
      (["w"; "keep"], Fs.Dir);
      (["w"; "src"], Fs.Dir);
      (["w"; "src"; "a.ts"], Fs.File ("hello" +:+ TextDocument.eol +:+ "world"));
      (["w"; "src"; "b.ts"], Fs.File ("one" +:+ TextDocument.eol +:+ "two")) ]) "/home".

Definition sampleConfiguration : Configuration :=
  mkConfiguration [("node_modules", true)] (λ _, [("**/.git", true)])
    ["last"; "current"; "root"] true.

(** The editor shows [/w/src/a.ts] with the text from the second character
    of its first line to the third of its second line selected. *)
Definition sampleWorld : World :=
  mkWorld
    (Some (mkTextEditor "/w/src/a.ts"
       (TextDocument.mkRange (TextDocument.mkPosition 0 1) (TextDocument.mkPosition 1 2))))
    {[ "/w/src/a.ts" := "hello" +:+ TextDocument.eol +:+ "world" ]}
    sampleFs (Some ["/w"]) None sampleConfiguration ∅ [].

Definition worldWithoutEditor : World :=
  mkWorld None ∅ sampleFs (Some ["/w"]) None sampleConfiguration ∅ [].

Definition worldWithoutSelection : World :=
  setActiveTextEditor sampleWorld (Some (mkTextEditor "/w/src/a.ts" emptySelection)).

Definition worldWithoutFolder : World :=
  mkWorld (activeTextEditor sampleWorld) (textDocuments sampleWorld) sampleFs
    None None sampleConfiguration ∅ [].

(** The user picks the third directory offered (the first two entries are
    the convenience options), then the second file of it, [/w/src/b.ts]. *)
Definition sampleUser : User :=
  mkUser (λ _, Some 2) (λ _, Some 1) (λ _, Some "x/y/new.ts").

Definition dirSrc : DirectoryOption :=
  mkDirectoryOption "/src" (mkFSLocation "/src" "/w/src").

(** The globs that apply below [root]: those converted from an ignore
    file found on the walk up from [root], and those of the configured
    excludes. *)
Definition applicableIgnoreGlob (fs : Fs.t) (config : Configuration)
    (root : string) (glob : string) : Prop :=
  (∃ files file content,
     walkupGitignores fs root = Some files ∧ file ∈ files ∧
     Fs.readFileSync fs file = inr content ∧
     glob ∈ GitignoreToGlob.ofString content) ∨
  glob ∈ configIgnoredGlobs config root.

(** The location [directoriesSync] builds for the entry [f] of [root]. *)
Definition locationOf (root f : string) : FSLocation :=
  mkFSLocation (Path.join [Path.sep; f]) (Path.join [root; f]).


(** [c] occurs in [s]. *)
Fixpoint includesChar (c : ascii) (s : string) : bool :=
  match s with
  | "" => false
  | String a s' => bool_decide (a = c) || includesChar c s'
  end.

(** A proper name of a directory entry: not empty, not [.] or [..], and
    without a slash. *)
Definition properSegment (seg : string) : Prop :=
  seg ≠ "" ∧ seg ≠ "." ∧ seg ≠ ".." ∧ includesChar Path.slash seg = false.

(** The canonical absolute path of the entry with the segments [segs]. *)
Definition absolutePath (segs : list string) : string :=
  "/" +:+ Js.join "/" segs.

(** The segments a path stands for once empty segments, [.] and [..] are
    resolved. *)
Definition segmentsOf (path : string) : list string :=
  Path.normalizeSegments false (Js.split Path.slash path).

(** The path [path.resolve] works on for the single argument [dir]. *)
Definition fullPath (cwd dir : string) : string :=
  if bool_decide (dir = "") then cwd
  else if Path.isAbsolute dir then dir
  else cwd +:+ "/" +:+ dir.

(** The walk of [walkupGitignores] from [dir]: each directory is followed
    by its parent, up to the one that is its own parent. *)
Inductive walkChain (cwd : string) : string → list string → Prop :=
| walkChain_root dir :
    dir = Path.resolve cwd [dir; ".."] → walkChain cwd dir [dir]
| walkChain_step dir dirs :
    dir ≠ Path.resolve cwd [dir; ".."] →
    walkChain cwd (Path.resolve cwd [dir; ".."]) dirs →
    walkChain cwd dir (dir :: dirs).

(** The ignore file looked for in a directory. *)
Definition gitignoreOf (dir : string) : string := Path.join [dir; ".gitignore"].

(** Every prefix of [segs], [segs] included, is a directory of [m]. *)
Definition dirsAlong (m : gmap (list string) Fs.Node) (segs : list string) : Prop :=
  ∀ k, k ≤ length segs → m !! take k segs = Some Fs.Dir.

(** No prefix of [segs], [segs] included, is a regular file of [m]. *)
Definition noFileAlong (m : gmap (list string) Fs.Node) (segs : list string) : Prop :=
  ∀ k c, k ≤ length segs → m !! take k segs ≠ Some (Fs.File c).

(** The entry, if any, is a regular file. *)
Definition isFile (entry : option Fs.Node) : bool :=
  match entry with
  | Some (Fs.File _) => true
  | _ => false
  end.

(** No regular file stands where a directory above the entry [segs] is to
    be: every proper prefix of [segs] is a directory or missing. *)
Definition noFileAbove (m : gmap (list string) Fs.Node) (segs : list string) : Prop :=
  Forall (λ k, isFile (m !! take k segs) = false) (seq 0 (length segs)).

(** The directories above the entry [segs] are all there. *)
Definition dirsAbove (m : gmap (list string) Fs.Node) (segs : list string) : Prop :=
  Forall (λ k, m !! take k segs = Some Fs.Dir) (seq 0 (length segs)).

(** An option below [/w/src], and a user who types a path with two new
    directories. *)
Definition typingUser : User :=
  mkUser (λ _, Some 2) (λ _, Some 2) (λ _, Some "x/y/new.ts").

(** A message of one line. *)
Definition oneLine (text : string) : Prop :=
  TextDocument.newline ∉ list_ascii_of_string text.

(** ** Notions for the further properties *)

(** The recent roots the command keeps for the roots of a workspace: no
    path twice, and paths of these roots only. *)
Definition recentRootsInvariant (roots : list WorkspaceRoot)
    (recent : list string) : Prop :=
  NoDup recent ∧ Forall (λ p, p ∈ rootPath <$> roots) recent.

(** The keys of [sortRoots] ascend along the roots. *)
Definition inRecencyOrder (roots : list WorkspaceRoot) (order : list string) : Prop :=
  StronglySorted Z.le (desiredIndexOf roots order <$> roots).

(** The glob [gitignore-to-glob] makes of an ordinary line: the pattern,
    anchored; the library puts an exclamation mark before it, which
    [invertGlob] removes. *)
Definition ordinaryGlob (line : string) : string :=
  (GitignoreToGlob.anchor ("!", line)).2.

(** The value an exclude object gives a key: that of its last entry for
    the key. *)
Fixpoint lastValue (object : list (string * bool)) (key : string) : option bool :=
  match object with
  | [] => None
  | (k, v) :: object' =>
      match lastValue object' key with
      | Some v' => Some v'
      | None => if bool_decide (k = key) then Some v else None
      end
  end.

(** The value the settings give an exclude key below [root]: that of
    [files.exclude] when it has the key, else that of the extension's own
    setting. *)
Definition effectiveExclude (config : Configuration) (root key : string)
    : option bool :=
  match lastValue (filesExclude config root) key with
  | Some v => Some v
  | None => lastValue (advancedNewFileExclude config) key
  end.

(** The keys [configIgnoredGlobs] converts. *)
Definition enabledKeys (config : Configuration) (root : string) : list string :=
  fst <$> filter (λ kv, kv.2 = true)
    (objectAssign (objectAssign [] (advancedNewFileExclude config))
       (filesExclude config root)).

(** Settings in which [files.exclude] switches off a key that the
    extension's own setting switches on. *)
Definition overridingConfiguration : Configuration :=
  mkConfiguration [("node_modules", true); ("dist", true)]
    (λ _, [("dist", false); ("out", true)]) ["root"] true.


(** The user confirms the directory [dir] in the first picker: the
    candidates were listed, the item picked carries [dir], and the
    selection was cached, the cache being [cache2] then. *)
Definition confirmsDirectory (user : User) (w : World)
    (dir : DirectoryOption) (cache2 : Cache.t) : Prop :=
  let roots := workspaceRoots w in
  let cache := loadCache w (cacheNamespace roots) in
  ∃ recent items cache1 i dirSelection,
    recentRootsOrEmpty cache = Ok recent ∧
    dirQuickPickItems w (sortRoots roots recent) cache = (Ok items, cache1) ∧
    pickDirectory user items = Some i ∧ items !! i = Some dirSelection ∧
    itemOption dirSelection = Some dir ∧
    cacheSelection cache1 dir (rootForDir roots dir) = (Ok (), cache2).

(** What the user picks in the second picker below [dir]. *)
Definition filePick (user : User) (w : World) (dir : DirectoryOption)
    : option QuickPickItem :=
  pickFile user (fileChoices (findFiles (fileSystem w) (absolute (fsLocation dir))))
  ≫= (fileChoices (findFiles (fileSystem w) (absolute (fsLocation dir))) !!.).

(** Users who dismiss the second picker, and the first one. *)
Definition dismissingUser : User :=
  mkUser (λ _, Some 2) (λ _, None) (λ _, None).
Definition leavingUser : User :=
  mkUser (λ _, None) (λ _, None) (λ _, None).

(** The sample world with no convenience option configured. *)
Definition worldWithoutConvenience : World :=
  mkWorld (activeTextEditor sampleWorld) (textDocuments sampleWorld) sampleFs
    (Some ["/w"]) None
    (mkConfiguration [("node_modules", true)] (λ _, []) [] true) ∅ [].

(** No prefix of [segs], [segs] included, is a regular file of [m]; and
    some proper prefix of [segs] is one. *)
Definition noFileUpTo (m : gmap (list string) Fs.Node) (segs : list string) : Prop :=
  Forall (λ k, isFile (m !! take k segs) = false) (seq 0 (S (length segs))).
Definition fileAbove (m : gmap (list string) Fs.Node) (segs : list string) : Prop :=
  Exists (λ k, isFile (m !! take k segs) = true) (seq 0 (length segs)).

(** Users who type the path of a new folder, and a path through the
    source file [a.ts]. *)
Definition folderUser : User :=
  mkUser (λ _, Some 2) (λ _, Some 2) (λ _, Some "x/y/").
Definition blockedUser : User :=
  mkUser (λ _, Some 2) (λ _, Some 2) (λ _, Some "a.ts/new.ts").

(** Every entry of the tree is named by proper segments. *)
Definition properTree (fs : Fs.t) : Prop :=
  map_Forall (λ q _, Forall properSegment q) (Fs.nodes fs).

(** A user who confirms the input box without typing. *)
Definition silentUser : User :=
  mkUser (λ _, Some 2) (λ _, Some 2) (λ _, Some "").


(** The entry of the second picker that stands for a new file. *)
Definition createNewFile : QuickPickItem :=
  mkQuickPickItem "Create new file" None None None.

(** A workspace of two folders. *)
Definition twoFolderWorld : World :=
  mkWorld (activeTextEditor sampleWorld) (textDocuments sampleWorld) sampleFs
    (Some ["/w/src"; "/w/keep"]) None sampleConfiguration ∅ [].

(* ===================================================================== *)
(** * Part II: properties                                                 *)
(* ===================================================================== *)

(** ** Sorting by a key ([lodash]) *)

Section sortBy_facts.
Context {A : Type}.
Implicit Types (e : Lodash.Entry A) (l : list (Lodash.Entry A)).

Lemma compareEntries_le e1 e2 :
  (Lodash.compareEntries e1 e2 <=? 0)%Z = true ↔ entryLe e1 e2.
Proof.
  unfold Lodash.compareEntries, entryLe.
  destruct (Z.ltb_spec (Lodash.criteria e2) (Lodash.criteria e1));
    [|destruct (Z.ltb_spec (Lodash.criteria e1) (Lodash.criteria e2))];
    rewrite Z.leb_le; lia.
Qed.

Lemma compareEntries_gt e1 e2 :
  (Lodash.compareEntries e1 e2 <=? 0)%Z = false → entryLe e2 e1.
Proof.
  unfold Lodash.compareEntries, entryLe.
  destruct (Z.ltb_spec (Lodash.criteria e2) (Lodash.criteria e1));
    [|destruct (Z.ltb_spec (Lodash.criteria e1) (Lodash.criteria e2))];
    rewrite Z.leb_gt; lia.
Qed.

Global Instance entryLe_trans : Transitive (@entryLe A).
Proof. intros x y z; unfold entryLe; lia. Qed.

Lemma insertEntry_perm e l : Lodash.insertEntry e l ≡ₚ e :: l.
Proof.
  induction l as [|x l IH]; simpl; [done|].
  destruct (_ <=? _)%Z; [done|]. rewrite IH. apply Permutation_swap.
Qed.

Lemma insertEntry_sorted e l :
  StronglySorted (@entryLe A) l → StronglySorted (@entryLe A) (Lodash.insertEntry e l).
Proof.
  induction 1 as [|x l Hs IH Hx]; simpl.
  - repeat constructor.
  - destruct (_ <=? _)%Z eqn:Hc.
    + apply compareEntries_le in Hc. constructor; [by constructor|].
      constructor; [done|]. eapply Forall_impl; [exact Hx|].
      intros y Hy. by etrans.
    + apply compareEntries_gt in Hc. constructor; [done|].
      rewrite insertEntry_perm. by constructor.
Qed.

Lemma baseSortBy_perm l : Lodash.baseSortBy l ≡ₚ l.
Proof.
  induction l as [|e l IH]; simpl; [done|].
  by rewrite insertEntry_perm, IH.
Qed.

Lemma baseSortBy_sorted l : StronglySorted (@entryLe A) (Lodash.baseSortBy l).
Proof.
  induction l as [|e l IH]; simpl; [constructor|].
  by apply insertEntry_sorted.
Qed.

Lemma StronglySorted_lookup (R : relation (Lodash.Entry A)) l i j x y :
  StronglySorted R l → i < j → l !! i = Some x → l !! j = Some y → R x y.
Proof.
  intros Hs. revert i j. induction Hs as [|z l Hs IH Hz]; intros i j Hij Hi Hj.
  - by rewrite lookup_nil in Hi.
  - destruct j as [|j]; [lia|]. destruct i as [|i]; simpl in *.
    + simplify_eq. rewrite Forall_forall in Hz. apply Hz.
      by eapply list_elem_of_lookup_2.
    + eapply (IH i j); [lia|done..].
Qed.

Context (key : A → Z).

Lemma decorate_index (input : list A) :
  Lodash.index <$> Lodash.decorate key input = seq 0 (length input).
Proof.
  unfold Lodash.decorate. rewrite fmap_imap.
  apply list_eq; intros i. rewrite list_lookup_imap.
  destruct (input !! i) as [x|] eqn:Hi; simpl.
  - symmetry. apply lookup_seq. split; [done|]. by eapply lookup_lt_Some.
  - symmetry. apply lookup_ge_None. rewrite length_seq.
    by apply lookup_ge_None.
Qed.

Lemma decorate_faithful (input : list A) :
  Forall (faithful key input) (Lodash.decorate key input).
Proof.
  apply Forall_forall; intros e He.
  unfold Lodash.decorate in He.
  apply list_elem_of_lookup in He as [i Hi].
  rewrite list_lookup_imap in Hi.
  destruct (input !! i) eqn:?; simplify_eq/=. by split.
Qed.

Lemma sortBy_stable (input : list A) :
  stablySortedBy key input (Lodash.sortBy input key).
Proof.
  set (sorted := Lodash.baseSortBy (Lodash.decorate key input)).
  assert (Hperm : sorted ≡ₚ Lodash.decorate key input) by apply baseSortBy_perm.
  assert (Hfaith : Forall (faithful key input) sorted).
  { rewrite Hperm. apply decorate_faithful. }
  assert (Hidx : Lodash.index <$> sorted ≡ₚ seq 0 (length input)).
  { rewrite Hperm. by rewrite decorate_index. }
  exists (Lodash.index <$> sorted). split; [done|]. split.
  - unfold Lodash.sortBy. fold sorted.
    apply Forall2_fmap. apply Forall_Forall2_diag.
    eapply Forall_impl; [exact Hfaith|]. by intros e [? _].
  - intros i j a b x y Hij Ha Hb Hx Hy.
    rewrite list_lookup_fmap in Ha, Hb.
    destruct (sorted !! i) as [e1|] eqn:H1; simplify_eq/=.
    destruct (sorted !! j) as [e2|] eqn:H2; simplify_eq/=.
    assert (entryLe e1 e2) as Hle.
    { eapply StronglySorted_lookup; [apply baseSortBy_sorted|exact Hij|done..]. }
    rewrite Forall_forall in Hfaith.
    destruct (Hfaith e1) as [Hv1 Hk1]; [by eapply list_elem_of_lookup_2|].
    destruct (Hfaith e2) as [Hv2 Hk2]; [by eapply list_elem_of_lookup_2|].
    rewrite Hx in Hv1. rewrite Hy in Hv2. simplify_eq.
    rewrite <- Hk1, <- Hk2.
    destruct Hle as [?|[? Hle]]; [by left|right; split; [done|]].
    assert (Lodash.index e1 ≠ Lodash.index e2); [|lia].
    intros Heq.
    assert (NoDup (Lodash.index <$> sorted)) as Hnd.
    { rewrite Hidx. apply NoDup_seq. }
    assert (i = j); [|lia].
    eapply NoDup_lookup; [exact Hnd|..]; rewrite list_lookup_fmap.
    + by rewrite H1.
    + rewrite H2. simpl. by rewrite Heq.
Qed.

Lemma stablySortedBy_length (input output : list A) :
  stablySortedBy key input output → length output = length input.
Proof.
  intros (positions & Hperm & Hall & _).
  rewrite <- (Forall2_length _ _ _ Hall), Hperm. apply length_seq.
Qed.


(** Keys ascend along the output. *)
Lemma stablySortedBy_keys (input output : list A) i j x y :
  stablySortedBy key input output → i < j →
  output !! i = Some x → output !! j = Some y → (key x ≤ key y)%Z.
Proof.
  intros (positions & _ & Hall & Hord) Hij Hi Hj.
  destruct (Forall2_lookup_r _ _ _ _ _ Hall Hi) as (a & Ha & Hxa).
  destruct (Forall2_lookup_r _ _ _ _ _ Hall Hj) as (b & Hb & Hyb).
  destruct (Hord i j a b x y Hij Ha Hb Hxa Hyb); lia.
Qed.

(** Whatever stands in the input stands in the output. *)
Lemma stablySortedBy_elem_of_inv (input output : list A) x :
  stablySortedBy key input output → x ∈ input → x ∈ output.
Proof.
  intros (positions & Hperm & Hall & _) Hx.
  apply list_elem_of_lookup in Hx as [a Ha].
  assert (a ∈ positions) as Hin.
  { rewrite Hperm. apply elem_of_seq. split; [lia|].
    simpl. by eapply lookup_lt_Some. }
  apply list_elem_of_lookup in Hin as [i Hi].
  destruct (Forall2_lookup_l _ _ _ _ _ Hall Hi) as (y & Hy & Hay).
  rewrite Ha in Hay. simplify_eq. by eapply list_elem_of_lookup_2.
Qed.
End sortBy_facts.

(** ** [indexOf] *)

Lemma indexOfFrom_spec (l : list string) (x : string) (i : Z) :
  ((x ∉ l) ∧ Js.indexOfFrom l x i = (-1)%Z) ∨
  (∃ n, l !! n = Some x ∧ (∀ m, m < n → l !! m ≠ Some x) ∧
        Js.indexOfFrom l x i = (i + Z.of_nat n)%Z).
Proof.
  revert i. induction l as [|y l IH]; intros i; simpl.
  - left. split; [apply not_elem_of_nil|done].
  - case_bool_decide as Hy.
    + right. exists 0. subst y. split; [done|]. split; [lia|]. lia.
    + destruct (IH (i + 1)%Z) as [[Hni ->]|(n & Hn & Hfirst & ->)].
      * left. split; [|done]. rewrite elem_of_cons.
        intros [Heq|Hin]; [apply Hy; by rewrite Heq|by apply Hni].
      * right. exists (S n). split; [done|]. split; [|lia].
        intros [|m] Hm; simpl; [congruence|]. apply Hfirst. lia.
Qed.

Lemma indexOf_absent (l : list string) (x : string) :
  x ∉ l → Js.indexOf l x = (-1)%Z.
Proof.
  intros Hx. destruct (indexOfFrom_spec l x 0) as [[_ ?]|(n & Hn & _)]; [done|].
  exfalso. apply Hx. by eapply list_elem_of_lookup_2.
Qed.

Lemma indexOf_present (l : list string) (x : string) :
  x ∈ l →
  ∃ n, l !! n = Some x ∧ (∀ m, m < n → l !! m ≠ Some x) ∧
       Js.indexOf l x = Z.of_nat n.
Proof.
  intros Hx. destruct (indexOfFrom_spec l x 0) as [[? _]|(n & Hn & Hf & Hi)]; [done|].
  exists n. by rewrite Z.add_0_l in Hi.
Qed.

Lemma indexOf_first (l : list string) (x : string) n :
  l !! n = Some x → (∀ m, m < n → l !! m ≠ Some x) → Js.indexOf l x = Z.of_nat n.
Proof.
  intros Hn Hfirst.
  destruct (indexOf_present l x) as (n' & Hn' & Hfirst' & ->);
    [by eapply list_elem_of_lookup_2|].
  f_equal. destruct (Nat.lt_trichotomy n n') as [?|[?|?]]; [|done|].
  - by destruct (Hfirst' n).
  - by destruct (Hfirst n').
Qed.

(** ** [sortRoots] *)

Lemma desiredIndexOf_seen roots order r n :
  order !! n = Some (rootPath r) → (∀ m, m < n → order !! m ≠ Some (rootPath r)) →
  desiredIndexOf roots order r = Z.of_nat n.
Proof.
  intros Hn Hfirst. unfold desiredIndexOf.
  rewrite (indexOf_first _ _ _ Hn Hfirst).
  destruct (Z.leb_spec 0 (Z.of_nat n)); [done|lia].
Qed.

Lemma desiredIndexOf_unseen roots order r :
  rootPath r ∉ order → desiredIndexOf roots order r = Z.of_nat (length roots).
Proof. intros Hr. unfold desiredIndexOf. by rewrite indexOf_absent. Qed.

Lemma sortRoots_stable roots order :
  stablySortedBy (desiredIndexOf roots order) roots (sortRoots roots order).
Proof. apply sortBy_stable. Qed.




(** The root whose path heads the order list heads the sorted roots. *)
Lemma sortRoots_head roots p rest :
  (∃ r, r ∈ roots ∧ rootPath r = p) →
  ∃ first others, sortRoots roots (p :: rest) = first :: others ∧ rootPath first = p.
Proof.
  intros (r & Hr & Hp).
  pose proof (sortRoots_stable roots (p :: rest)) as Hst.
  assert (r ∈ sortRoots roots (p :: rest)) as Hin
    by (eapply stablySortedBy_elem_of_inv; eauto).
  destruct (sortRoots roots (p :: rest)) as [|first others] eqn:Hs.
  { by apply elem_of_nil in Hin. }
  exists first, others. split; [done|].
  assert (desiredIndexOf roots (p :: rest) r = 0%Z) as Hr0.
  { apply (desiredIndexOf_seen _ _ _ 0); [by rewrite Hp|lia]. }
  assert (desiredIndexOf roots (p :: rest) first ≤ 0)%Z as Hle.
  { apply list_elem_of_lookup in Hin as [[|j] Hj]; simpl in Hj.
    - simplify_eq. lia.
    - rewrite <- Hr0.
      eapply (stablySortedBy_keys _ _ _ 0 (S j)); [exact Hst|lia|done..]. }
  unfold desiredIndexOf in Hle.
  assert (roots ≠ []) as Hne by (intros ->; by apply elem_of_nil in Hr).
  unfold Js.indexOf in Hle. simpl in Hle.
  case_bool_decide as Hfirst; [done|].
  destruct (indexOfFrom_spec rest (rootPath first) (0 + 1)) as [[_ Hi]|(n & _ & _ & Hi)];
    rewrite Hi in Hle; simpl in Hle.
  - destruct roots; [done|]. simpl in Hle. lia.
  - destruct (Z.leb_spec 0 (0 + 1 + Z.of_nat n)); lia.
Qed.

(** ** [cacheSelection] *)

Lemma filter_other_absent (l : list string) (p : string) :
  p ∉ l → filter (λ q, q ≠ p) l = l.
Proof.
  induction l as [|q l IH]; [done|]. rewrite not_elem_of_cons. intros [Hq Hl].
  rewrite filter_cons_True by done. by rewrite IH.
Qed.

Lemma delete_first_occurrence (l : list string) (p : string) n :
  l !! n = Some p → (∀ m, m < n → l !! m ≠ Some p) →
  length (filter (λ q, q = p) l) ≤ 1 →
  delete n l = filter (λ q, q ≠ p) l.
Proof.
  revert n. induction l as [|q l IH]; intros n Hn Hfirst Hcount; [done|].
  destruct n as [|n]; simpl in Hn.
  - simplify_eq. rewrite filter_cons_False by (intros Hne; by apply Hne).
    rewrite filter_cons_True in Hcount by done. simpl in Hcount.
    simpl. symmetry. apply filter_other_absent.
    apply (filter_nil_not_elem_of (λ q, q = p)); [|done].
    apply length_zero_iff_nil. lia.
  - assert (q ≠ p) as Hq by (intros ->; by apply (Hfirst 0); [lia|]).
    rewrite filter_cons_True by done.
    rewrite filter_cons_False in Hcount by done.
    simpl. f_equal. apply IH; [done| |done].
    intros m Hm. apply (Hfirst (S m)). lia.
Qed.

(** What [cacheSelection] leaves under ["recentRoots"]. *)
Lemma indexOf_splice (recent : list string) (p : string) :
  length (filter (λ q, q = p) recent) ≤ 1 →
  (if (0 <=? Js.indexOf recent p)%Z
   then Js.splice1 recent (Z.to_nat (Js.indexOf recent p)) else recent)
  = filter (λ q, q ≠ p) recent.
Proof.
  intros Hcount. destruct (decide (p ∈ recent)) as [Hin|Hni].
  - destruct (indexOf_present _ _ Hin) as (n & Hn & Hfirst & ->).
    destruct (Z.leb_spec 0 (Z.of_nat n)); [|lia]. rewrite Nat2Z.id.
    by apply delete_first_occurrence.
  - rewrite (indexOf_absent _ _ Hni). simpl. symmetry.
    by apply filter_other_absent.
Qed.

Lemma recentRootsOrEmpty_inv (cache : Cache.t) (recent : list string) :
  recentRootsOrEmpty cache = Ok recent →
  (if truthy (cache !! "recentRoots") then cache !! "recentRoots"
   else Some (VStrings [])) = Some (VStrings recent).
Proof.
  unfold recentRootsOrEmpty, Cache.get.
  destruct (cache !! "recentRoots") as [[| | | | |]|]; simpl;
    repeat case_match; intros; simplify_eq; done.
Qed.

(** C6: after a confirmed selection below [root], [cacheSelection] stores
    the selection under ["last"] and, under ["recentRoots"], the path of
    [root] followed by the former list without that path: it heads the
    list and, having occurred at most once before, occurs nowhere else; so
    the next [sortRoots] over roots that include it puts it first. *)
Theorem cacheSelection_root_first (cache : Cache.t) (dir : DirectoryOption)
    (root : WorkspaceRoot) (recent : list string) :
  recentRootsOrEmpty cache = Ok recent →
  length (filter (λ q, q = rootPath root) recent) ≤ 1 →
  ∃ rest,
    cacheSelection cache dir (Some root) =
      (Ok (), <["recentRoots" := VStrings (rootPath root :: rest)]>
                (<["last" := VObject dir]> cache)) ∧
    rest = filter (λ q, q ≠ rootPath root) recent ∧
    (rootPath root ∉ rest) ∧
    recentRootsOrEmpty (cacheSelection cache dir (Some root)).2
      = Ok (rootPath root :: rest) ∧
    ∀ roots, (∃ r, r ∈ roots ∧ rootPath r = rootPath root) →
      ∃ first others,
        sortRoots roots (rootPath root :: rest) = first :: others ∧
        rootPath first = rootPath root.
Proof.
  intros Hrecent Hcount. exists (filter (λ q, q ≠ rootPath root) recent).
  assert (Hsel : cacheSelection cache dir (Some root) =
      (Ok (), <["recentRoots" :=
                  VStrings (rootPath root :: filter (λ q, q ≠ rootPath root) recent)]>
                (<["last" := VObject dir]> cache))).
  { unfold cacheSelection, Cache.get, Cache.put.
    rewrite lookup_insert_ne by done.
    rewrite (recentRootsOrEmpty_inv _ _ Hrecent).
    by rewrite (indexOf_splice _ _ Hcount). }
  split; [done|]. split; [done|]. split.
  { rewrite list_elem_of_filter. by intros [? _]. }
  split.
  { rewrite Hsel. unfold recentRootsOrEmpty, Cache.get. simpl.
    by rewrite lookup_insert_eq. }
  intros roots. apply sortRoots_head.
Qed.

Lemma cacheSelection_root_first_witness :
  ∃ rest,
    cacheSelection cacheAB dirB (Some rootB) =
      (Ok (), <["recentRoots" := VStrings ("/b" :: rest)]>
                (<["last" := VObject dirB]> cacheAB)) ∧ rest = ["/a"].
Proof.
  destruct (cacheSelection_root_first cacheAB dirB rootB ["/a"; "/b"])
    as (rest & Hsel & Hrest & _).
  - vm_compute. reflexivity.
  - vm_compute. lia.
  - exists rest. split; [exact Hsel|]. rewrite Hrest. vm_compute. reflexivity.
Defined.

(** ** [lastSelection] *)

(** C10: [lastSelection] returns the entry cached under ["last"] exactly
    when there is one and its type is object, and leaves the cache as it
    is then; an entry of another type is removed and nothing is returned;
    without an entry nothing is returned and the cache is left as it is. *)
Theorem lastSelection_cases (cache : Cache.t) :
  (∀ v, (lastSelection cache).1 = Some v →
        cache !! "last" = Some v ∧ typeof (Some v) = "object") ∧
  (∀ v, cache !! "last" = Some v → typeof (Some v) = "object" →
        lastSelection cache = (Some v, cache)) ∧
  (∀ v, cache !! "last" = Some v → typeof (Some v) ≠ "object" →
        lastSelection cache = (None, delete "last" cache)) ∧
  (cache !! "last" = None → lastSelection cache = (None, cache)).
Proof.
  unfold lastSelection, Cache.has, Cache.get, Cache.forget.
  destruct (cache !! "last") as [v|] eqn:Hlast.
  - rewrite bool_decide_eq_true_2 by eauto. simpl.
    case_bool_decide as Hty; repeat split; intros; simplify_eq/=; done.
  - rewrite bool_decide_eq_false_2 by (by intros [? ?]). simpl.
    repeat split; intros; simplify_eq/=; done.
Qed.

Lemma lastSelection_cases_witness :
  lastSelection cacheStaleLast = (None, delete "last" cacheStaleLast) ∧
  lastSelection cacheLastB = (Some (VObject dirB), cacheLastB).
Proof.
  split.
  - apply (lastSelection_cases cacheStaleLast) with (v := VString "/b/src").
    + vm_compute. reflexivity.
    + vm_compute. discriminate.
  - apply (lastSelection_cases cacheLastB) with (v := VObject dirB).
    + vm_compute. reflexivity.
    + vm_compute. reflexivity.
Defined.

(** ** Strings *)

Lemma app_String (a : ascii) (s t : string) : String a s +:+ t = String a (s +:+ t).
Proof. reflexivity. Qed.

Lemma app_empty_l (t : string) : "" +:+ t = t.
Proof. reflexivity. Qed.

Lemma string_app_length (s t : string) :
  String.length (s +:+ t) = String.length s + String.length t.
Proof.
  induction s as [|a s IH]; [done|]. rewrite app_String. simpl. by rewrite IH.
Qed.

Lemma string_app_empty_r (s : string) : s +:+ "" = s.
Proof.
  induction s as [|a s IH]; [done|]. rewrite app_String. by rewrite IH.
Qed.

Lemma string_app_assoc (s t u : string) : (s +:+ t) +:+ u = s +:+ (t +:+ u).
Proof.
  induction s as [|a s IH]; [done|]. rewrite !app_String. by rewrite IH.
Qed.

Lemma split_nonempty (c : ascii) (s : string) : Js.split c s ≠ [].
Proof.
  destruct s as [|a s]; simpl; [done|].
  case_bool_decide; [done|]. by destruct (Js.split c s).
Qed.

Lemma join_cons (sep x : string) (l : list string) :
  l ≠ [] → Js.join sep (x :: l) = x +:+ sep +:+ Js.join sep l.
Proof. by destruct l. Qed.

Lemma join_split (c : ascii) (s : string) :
  Js.join (String c "") (Js.split c s) = s.
Proof.
  induction s as [|a s IH]; simpl; [done|].
  case_bool_decide as Ha.
  - rewrite join_cons by apply split_nonempty. rewrite IH. by subst.
  - pose proof (split_nonempty c s) as Hne.
    destruct (Js.split c s) as [|x xs]; [done|].
    destruct xs as [|y xs]; simpl in *; rewrite <- IH; [done|].
    by rewrite app_String.
Qed.

Lemma takeString_length (s : string) : Js.takeString (String.length s) s = s.
Proof. induction s; simpl; by f_equal. Qed.

Lemma dropString_length (s : string) : Js.dropString (String.length s) s = "".
Proof. induction s; simpl; done. Qed.

(** ** Text documents *)

Lemma offsetIn_cons (x y : string) (ls : list string) (l c : nat) :
  TextDocument.offsetIn (x :: y :: ls) (S l) c
  = String.length x + 1 + TextDocument.offsetIn (y :: ls) l c.
Proof. reflexivity. Qed.

Lemma offsetIn_end (ls : list string) :
  ls ≠ [] →
  TextDocument.offsetIn ls (length ls - 1)
    (String.length (default "" (ls !! (length ls - 1))))
  = String.length (Js.join TextDocument.eol ls).
Proof.
  induction ls as [|x ls IH]; [done|]. intros _.
  destruct ls as [|y ls].
  - simpl. lia.
  - rewrite join_cons by done. rewrite !string_app_length.
    replace (length (x :: y :: ls) - 1) with (S (length (y :: ls) - 1))
      by (simpl; lia).
    rewrite offsetIn_cons. rewrite lookup_cons. rewrite IH by done.
    simpl. lia.
Qed.

(** The end of the last line is the end of the text. *)
Lemma offsetAt_lastLineEnd (text : string) :
  TextDocument.offsetAt text
    (TextDocument.lineEnd text (TextDocument.lineCount text - 1))
  = String.length text.
Proof.
  unfold TextDocument.offsetAt, TextDocument.lineEnd, TextDocument.lineCount,
    TextDocument.lines. simpl.
  rewrite offsetIn_end by apply split_nonempty.
  unfold TextDocument.eol. by rewrite join_split.
Qed.

Lemma insert_lastLineEnd (text value : string) :
  TextDocument.insert text
    (TextDocument.lineEnd text (TextDocument.lineCount text - 1)) value
  = text +:+ value.
Proof.
  unfold TextDocument.insert. rewrite offsetAt_lastLineEnd.
  rewrite takeString_length, dropString_length. by rewrite string_app_empty_r.
Qed.

(** ** The command *)

Lemma selectedText_nonempty_open (w : World) (editor : TextEditor) :
  selectedText w editor ≠ "" → is_Some (textDocuments w !! document editor).
Proof.
  unfold selectedText, documentText, TextDocument.getText.
  destruct (textDocuments w !! document editor) as [text|]; [eauto|].
  simpl. intros Hne. exfalso. apply Hne.
  by destruct (_ - _), (TextDocument.startOffset "" (selection editor)).
Qed.

Lemma string_length_zero (s : string) : String.length s = 0 ↔ s = "".
Proof. by destruct s. Qed.

Lemma storeCacheIfChanged_frame (w : World) namespace before after :
  activeTextEditor (storeCacheIfChanged w namespace before after) = activeTextEditor w ∧
  textDocuments (storeCacheIfChanged w namespace before after) = textDocuments w ∧
  fileSystem (storeCacheIfChanged w namespace before after) = fileSystem w ∧
  messages (storeCacheIfChanged w namespace before after) = messages w.
Proof. unfold storeCacheIfChanged. by case_bool_decide. Qed.

(** The branch for an existing file: the selection leaves the source and
    ends the target, after a line break. *)
Lemma moveToExistingFile_appends (w : World) (editor : TextEditor)
    (selectionText fileUri target : string) :
  is_Some (textDocuments w !! document editor) →
  openedText w fileUri = Some target →
  ∃ w',
    moveToExistingFile w editor selectionText fileUri = (Ok (), w') ∧
    documentText w' fileUri =
      (if bool_decide (fileUri = document editor)
       then TextDocument.delete target (selection editor) else target)
      +:+ TextDocument.eol +:+ selectionText ∧
    (fileUri ≠ document editor →
     documentText w' (document editor) =
       TextDocument.delete (documentText w (document editor)) (selection editor)) ∧
    messages w' = messages w.
Proof.
  intros [source Hsource] Hopened. unfold moveToExistingFile, openTextDocument, edit.
  unfold openedText in Hopened. simpl.
  destruct (decide (fileUri = document editor)) as [->|Hne].
  - rewrite Hsource in Hopened. simplify_eq.
    rewrite lookup_alter_eq, Hsource. simpl. eexists. split; [done|].
    rewrite bool_decide_eq_true_2 by done.
    unfold save, documentText, showTextDocument; simpl.
    repeat case_match; simpl in *; simplify_eq;
      rewrite ?lookup_alter_eq, ?Hsource; simpl;
      rewrite ?insert_lastLineEnd; done.
  - rewrite lookup_alter_ne by done.
    rewrite bool_decide_eq_false_2 by done.
    destruct (textDocuments w !! fileUri) as [text|] eqn:Htext.
    + simplify_eq. eexists. split; [done|].
      unfold save, documentText, showTextDocument; simpl.
      repeat case_match; simpl in *; simplify_eq;
        rewrite ?lookup_alter_eq, ?lookup_alter_ne, ?lookup_alter_eq by done;
        rewrite ?Htext, ?Hsource; simpl; rewrite ?insert_lastLineEnd; done.
    + destruct (Fs.readFileSync (fileSystem w) fileUri) as [e|content] eqn:Hread;
        [done|]. simplify_eq. eexists. split; [done|].
      unfold save, documentText, showTextDocument; simpl.
      repeat case_match; simpl in *; simplify_eq;
        rewrite ?lookup_alter_eq, ?lookup_alter_ne, ?lookup_insert_eq,
          ?lookup_insert_ne, ?lookup_alter_eq by done;
        rewrite ?Hsource; simpl; rewrite ?insert_lastLineEnd; done.
Qed.

(** C1: when the user confirms an existing file as the target, the command
    ends with the target document being its former text (the text of the
    open document, else the content on disk; without the selection when the
    target is the source document itself), a line break and the selected
    text; and the source document has lost the selected text. *)
Theorem command_existing_file_appends (user : User) (w : World)
    (editor : TextEditor) (dir : DirectoryOption) (fileUri target : string) :
  activeTextEditor w = Some editor →
  selectedText w editor ≠ "" →
  confirmsExistingFile user w dir fileUri →
  openedText w fileUri = Some target →
  ∃ w',
    command user w = (Ok (), w') ∧
    documentText w' fileUri =
      (if bool_decide (fileUri = document editor)
       then TextDocument.delete target (selection editor) else target)
      +:+ TextDocument.eol +:+ selectedText w editor ∧
    (fileUri ≠ document editor →
     documentText w' (document editor) =
       TextDocument.delete (documentText w (document editor)) (selection editor)).
Proof.
  intros Hactive Hsel
    (recent & items & cache1 & i & dirSelection & cache2 & j & choice &
     Hrecent & Hitems & Hpick & Hitem & Hdir & Hcached & Hpick2 & Hchoice & Huri)
    Hopened.
  pose proof (selectedText_nonempty_open _ _ Hsel) as Hopen.
  set (roots := workspaceRoots w) in *.
  set (w1 := storeCacheIfChanged w (cacheNamespace roots)
               (loadCache w (cacheNamespace roots)) cache1).
  set (w2 := storeCache w1 (cacheNamespace roots) cache2).
  destruct (storeCacheIfChanged_frame w (cacheNamespace roots)
              (loadCache w (cacheNamespace roots)) cache1) as (_ & Hdocs & Hfs & _).
  destruct (moveToExistingFile_appends w2 editor (selectedText w editor) fileUri target)
    as (w' & Hmove & Htarget & Hsource & _).
  { unfold w2, storeCache. simpl. fold w1. unfold w1. by rewrite Hdocs. }
  { unfold openedText, w2, storeCache. simpl. fold w1. unfold w1.
    rewrite Hdocs, Hfs. exact Hopened. }
  exists w'. split; [|split; [exact Htarget|]].
  - unfold command. rewrite Hactive. fold (selectedText w editor).
    rewrite bool_decide_eq_false_2 by (by rewrite string_length_zero).
    fold roots.
    assert (roots ≠ []) as Hroots.
    { intros Hnil. unfold dirQuickPickItems in Hitems. rewrite Hnil in Hitems.
      unfold sortRoots, Lodash.sortBy in Hitems. simpl in Hitems. done. }
    rewrite bool_decide_eq_true_2 by (destruct roots; [done|simpl; lia]).
    fold (cacheNamespace roots). cbv zeta. rewrite Hrecent, Hitems, Hpick.
    simpl. rewrite Hitem, Hdir, Hcached. fold w1. fold w2.
    replace (fileSystem w1) with (fileSystem w) by (unfold w1; by rewrite Hfs).
    rewrite Hpick2. simpl. rewrite Hchoice, Huri. exact Hmove.
  - intros Hne. rewrite (Hsource Hne).
    unfold documentText, w2, storeCache. simpl. fold w1. unfold w1.
    by rewrite Hdocs.
Qed.

Lemma command_existing_file_appends_witness :
  ∃ w',
    command sampleUser sampleWorld = (Ok (), w') ∧
    documentText w' "/w/src/b.ts" =
      "one" +:+ TextDocument.eol +:+ "two" +:+ TextDocument.eol +:+
      "ello" +:+ TextDocument.eol +:+ "wo" ∧
    documentText w' "/w/src/a.ts" = "hrld".
Proof.
  destruct (command_existing_file_appends sampleUser sampleWorld
              (mkTextEditor "/w/src/a.ts"
                 (TextDocument.mkRange (TextDocument.mkPosition 0 1)
                    (TextDocument.mkPosition 1 2)))
              dirSrc "/w/src/b.ts" ("one" +:+ TextDocument.eol +:+ "two"))
    as (w' & Hcommand & Htarget & Hsource).
  - reflexivity.
  - vm_compute. discriminate.
  - unfold confirmsExistingFile. do 8 eexists.
    repeat (split; [vm_compute; reflexivity|]). vm_compute. reflexivity.
  - vm_compute. reflexivity.
  - exists w'. split; [exact Hcommand|]. split.
    + rewrite Htarget. vm_compute. reflexivity.
    + etrans; [apply Hsource; discriminate|]. vm_compute. reflexivity.
Defined.

(** C2, as stated, fails for the first of the three failures: without an
    active text editor the command returns at once and shows no message. *)
Lemma command_without_editor_is_silent :
  activeTextEditor worldWithoutEditor = None ∧
  command sampleUser worldWithoutEditor = (Ok (), worldWithoutEditor) ∧
  messages (command sampleUser worldWithoutEditor).2 = [].
Proof. repeat split. Qed.

(** C2, amended: without an active text editor the command aborts
    silently, the state left as it was; with an editor but an empty
    selection, and with a selection but no workspace folder, it shows one
    error message of one line and changes nothing else. *)
Theorem command_precondition_failures (user : User) (w : World) :
  (activeTextEditor w = None → command user w = (Ok (), w)) ∧
  (∀ editor,
     activeTextEditor w = Some editor →
     selectedText w editor = "" ∨ workspaceRoots w = [] →
     ∃ text,
       oneLine text ∧
       command user w = (Ok (), showErrorMessage w text) ∧
       messages (command user w).2 = messages w ++ [ErrorMessage text] ∧
       textDocuments (command user w).2 = textDocuments w ∧
       fileSystem (command user w).2 = fileSystem w ∧
       activeTextEditor (command user w).2 = activeTextEditor w ∧
       globalState (command user w).2 = globalState w).
Proof.
  split.
  - intros Hnone. unfold command. by rewrite Hnone.
  - intros editor Hactive Hfail. unfold command. rewrite Hactive.
    fold (selectedText w editor).
    destruct (decide (selectedText w editor = "")) as [Hempty|Hsel].
    + rewrite bool_decide_eq_true_2 by (by rewrite string_length_zero).
      eexists. split; [|done]. apply (bool_decide_unpack _). vm_compute. reflexivity.
    + rewrite bool_decide_eq_false_2 by (by rewrite string_length_zero).
      destruct Hfail as [?|Hroots]; [done|]. rewrite Hroots.
      rewrite bool_decide_eq_false_2 by (simpl; lia).
      eexists. split; [|done]. apply (bool_decide_unpack _). vm_compute. reflexivity.
Qed.

Lemma command_precondition_failures_witness :
  (∃ text, command sampleUser worldWithoutSelection
           = (Ok (), showErrorMessage worldWithoutSelection text)) ∧
  (∃ text, command sampleUser worldWithoutFolder
           = (Ok (), showErrorMessage worldWithoutFolder text)).
Proof.
  split.
  - destruct (command_precondition_failures sampleUser worldWithoutSelection)
      as [_ Hfail].
    destruct (Hfail (mkTextEditor "/w/src/a.ts" emptySelection))
      as (text & _ & Hcommand & _).
    + reflexivity.
    + left. vm_compute. reflexivity.
    + by exists text.
  - destruct (command_precondition_failures sampleUser worldWithoutFolder)
      as [_ Hfail].
    destruct (Hfail (mkTextEditor "/w/src/a.ts"
                (TextDocument.mkRange (TextDocument.mkPosition 0 1)
                   (TextDocument.mkPosition 1 2))))
      as (text & _ & Hcommand & _).
    + reflexivity.
    + right. vm_compute. reflexivity.
    + by exists text.
Defined.

(** ** [createFileOrFolder] on an existing path *)

(** C9: on a path that exists, [createFileOrFolder] returns with the file
    system as it was: no directory is made and no content changes. *)
Theorem createFileOrFolder_existing (fs : Fs.t) (absolutePath : string) :
  Fs.existsSync fs absolutePath = true →
  createFileOrFolder fs absolutePath = Ok fs.
Proof. intros Hexists. unfold createFileOrFolder. by rewrite Hexists. Qed.

Lemma createFileOrFolder_existing_witness :
  createFileOrFolder sampleFs "/w/src/a.ts" = Ok sampleFs ∧
  createFileOrFolder sampleFs "/w/src/" = Ok sampleFs.
Proof.
  split; apply createFileOrFolder_existing; vm_compute; reflexivity.
Defined.


(** ** Exceptions threaded through lists *)

Lemma bindOutcome_Ok {A B} (c : Outcome A) (f : A → Outcome B) (b : B) :
  bindOutcome c f = Ok b → ∃ a, c = Ok a ∧ f a = Ok b.
Proof. destruct c as [a|e]; simpl; [eauto|done]. Qed.

Lemma mapOutcome_Ok {A B} (f : A → Outcome B) (l : list A) (ys : list B) :
  mapOutcome f l = Ok ys → Forall2 (λ x y, f x = Ok y) l ys.
Proof.
  revert ys. induction l as [|x l IH]; intros ys; simpl.
  - intros [= <-]. constructor.
  - intros (y & Hy & Hrest)%bindOutcome_Ok.
    apply bindOutcome_Ok in Hrest as (ys' & Hys' & [= <-]).
    constructor; [done|]. by apply IH.
Qed.

Lemma filterOutcome_Ok {A} (p : A → Outcome bool) (l ys : list A) (y : A) :
  filterOutcome p l = Ok ys → y ∈ ys → y ∈ l ∧ p y = Ok true.
Proof.
  revert ys. induction l as [|x l IH]; intros ys; simpl.
  - intros [= <-] Hy. by apply elem_of_nil in Hy.
  - intros (b & Hb & Hrest)%bindOutcome_Ok.
    apply bindOutcome_Ok in Hrest as (ys' & Hys' & [= <-]).
    destruct b.
    + rewrite elem_of_cons. intros [->|Hy].
      * split; [left|done].
      * destruct (IH ys' Hys' Hy). split; [by right|done].
    + intros Hy. destruct (IH ys' Hys' Hy). split; [by right|done].
Qed.

Lemma elem_of_foldl_flatten {A} (acc : list A) (ls : list (list A)) (x : A) :
  x ∈ foldl flatten acc ls ↔ x ∈ acc ∨ ∃ l, l ∈ ls ∧ x ∈ l.
Proof.
  revert acc. induction ls as [|l ls IH]; intros acc; simpl.
  - split; [by left|]. intros [?|(l & Hl & _)]; [done|].
    by apply elem_of_nil in Hl.
  - rewrite IH. unfold flatten. rewrite elem_of_app. split.
    + intros [[?|?]|(l' & Hl' & ?)]; [by left|right..].
      * exists l. split; [left|done].
      * exists l'. split; [by right|done].
    + intros [?|(l' & Hl' & ?)]; [by left; left|].
      apply elem_of_cons in Hl' as [->|?]; [by left; right|].
      right. by exists l'.
Qed.

(** ** The directory listing *)

Lemma isIgnored_false (ignore : list string) (f g : string) :
  Glob.isIgnored ignore f = false → g ∈ ignore → Glob.ignores g f = false.
Proof.
  unfold Glob.isIgnored. intros Hex Hg.
  destruct (Glob.ignores g f) eqn:Hgf; [|done].
  assert (existsb (λ pattern, Glob.ignores pattern f) ignore = true); [|congruence].
  apply existsb_exists. exists g. split; [by apply list_elem_of_In|done].
Qed.

(** Nothing [glob] returns matches one of its ignore patterns. *)
Lemma glob_sync_not_ignored (fs : Fs.t) (pattern cwd : string)
    (ignore : list string) (f : string) :
  f ∈ Glob.sync fs pattern cwd ignore →
  Glob.minimatch false pattern f = true ∧ Glob.isIgnored ignore f = false.
Proof.
  unfold Glob.sync. destruct (Fs.locate fs cwd) as [e|dir].
  { intros Hf. by apply elem_of_nil in Hf. }
  rewrite merge_sort_Permutation, list_elem_of_filter.
  intros [Hkeep _]. apply Is_true_true, andb_true_iff in Hkeep as [? Hneg].
  split; [done|]. by apply negb_true_iff.
Qed.

(** The globs of the ignore files are those of the files of the walk. *)
Lemma gitignoreGlobs_elem_of (fs : Fs.t) (root : string) (globs : list string)
    (files : list string) (file content glob : string) :
  gitignoreGlobs fs root = Ok globs →
  walkupGitignores fs root = Some files → file ∈ files →
  Fs.readFileSync fs file = inr content →
  glob ∈ GitignoreToGlob.ofString content →
  glob ∈ globs.
Proof.
  unfold gitignoreGlobs. intros Hglobs Hfiles Hfile Hread Hglob.
  rewrite Hfiles in Hglobs.
  apply bindOutcome_Ok in Hglobs as (perFile & Hmap & [= <-]).
  apply mapOutcome_Ok in Hmap.
  apply list_elem_of_lookup in Hfile as [i Hi].
  destruct (Forall2_lookup_l _ _ _ _ _ Hmap Hi) as (converted & Hconv & Hof).
  unfold GitignoreToGlob.ofFile in Hof. rewrite Hread in Hof. simpl in Hof.
  simplify_eq. apply elem_of_foldl_flatten. right.
  eexists. split; [by eapply list_elem_of_lookup_2|done].
Qed.

Lemma ignoreGlobs_applicable (fs : Fs.t) (config : Configuration)
    (root : string) (ignore : list string) (glob : string) :
  ignoreGlobs fs config root = Ok ignore →
  applicableIgnoreGlob fs config root glob →
  invertGlob glob ∈ ignore.
Proof.
  unfold ignoreGlobs. intros (globs & Hglobs & [= <-])%bindOutcome_Ok Happ.
  apply list_elem_of_fmap_2, elem_of_app.
  destruct Happ as [(files & file & content & ? & ? & ? & ?)|?]; [left|by right].
  by eapply gitignoreGlobs_elem_of.
Qed.

(** What [directoriesSync] returns: locations of entries that are
    directories and that no pattern handed to [glob] ignores. *)
Lemma directoriesSync_elem_of (fs : Fs.t) (config : Configuration)
    (root : string) (dirs : list FSLocation) (loc : FSLocation) :
  directoriesSync fs config root = Ok dirs → loc ∈ dirs →
  ∃ ignore f,
    ignoreGlobs fs config root = Ok ignore ∧
    loc = locationOf root f ∧
    Fs.statSync fs (absolute loc) = inr Fs.Dir ∧
    Glob.isIgnored ignore f = false.
Proof.
  unfold directoriesSync. intros (ignore & Hignore & Hfilter)%bindOutcome_Ok Hloc.
  destruct (filterOutcome_Ok _ _ _ _ Hfilter Hloc) as [Hin Hdir].
  apply list_elem_of_fmap in Hin as (f & -> & Hf).
  apply glob_sync_not_ignored in Hf as [_ Hf].
  exists ignore, f. split; [done|]. split; [done|]. split; [|done].
  apply bindOutcome_Ok in Hdir as (st & Hst & [= Hd]).
  destruct (Fs.statSync fs _) as [[]|[]]; simpl in Hst; by simplify_eq.
Qed.




(** ** Negated ignore patterns *)

Lemma invertGlob_flagged (glob : string) : invertGlob ("!" +:+ glob) = glob.
Proof. reflexivity. Qed.

Lemma invertGlob_plain (glob : string) :
  Js.startsWith glob "!" = false → invertGlob glob = glob.
Proof.
  destruct glob as [|a glob]; [done|]. unfold invertGlob, Js.startsWith. simpl.
  destruct (Ascii.ascii_dec "!" a) as [<-|Hne]; [|intros _].
  - by destruct glob.
  - destruct a as [[] [] [] [] [] [] [] []]; try done.
Qed.

Lemma ofString_line (content line : string) :
  line ∈ Js.split "010" content →
  GitignoreToGlob.isPattern line = true →
  GitignoreToGlob.notHidden (GitignoreToGlob.swapNegation line) = true →
  ∀ glob,
    glob ∈ GitignoreToGlob.withChildren
             (GitignoreToGlob.anchor (GitignoreToGlob.swapNegation line)) →
    glob ∈ GitignoreToGlob.ofString content.
Proof.
  intros Hline Hpat Hvis glob Hglob. unfold GitignoreToGlob.ofString.
  apply list_elem_of_In, in_flat_map.
  exists (GitignoreToGlob.anchor (GitignoreToGlob.swapNegation line)).
  split; [|by apply list_elem_of_In].
  apply list_elem_of_In, list_elem_of_fmap_2, list_elem_of_filter.
  split; [by apply Is_true_true|].
  apply list_elem_of_fmap_2, list_elem_of_filter.
  split; [by apply Is_true_true|done].
Qed.

Lemma anchor_flag (pair : string * string) :
  (GitignoreToGlob.anchor pair).1 = pair.1.
Proof.
  unfold GitignoreToGlob.anchor. destruct pair.2 as [|a rest]; [done|].
  by destruct a as [[] [] [] [] [] [] [] []].
Qed.






(** ** Splitting and joining paths *)

Lemma split_single (c : ascii) (s : string) :
  includesChar c s = false → Js.split c s = [s].
Proof.
  induction s as [|a s IH]; simpl; [done|].
  intros [Ha Hs]%orb_false_iff. rewrite Ha. by rewrite IH.
Qed.

Lemma split_app_sep (c : ascii) (a b : string) :
  Js.split c (a +:+ String c b) = Js.split c a ++ Js.split c b.
Proof.
  induction a as [|ch a IH].
  - rewrite app_empty_l. simpl. by rewrite bool_decide_eq_true_2.
  - rewrite app_String. simpl. rewrite IH. case_bool_decide; [done|].
    pose proof (split_nonempty c a). by destruct (Js.split c a).
Qed.

Lemma split_elements (c : ascii) (s : string) :
  Forall (λ x, includesChar c x = false) (Js.split c s).
Proof.
  induction s as [|a s IH]; simpl; [by repeat constructor|].
  case_bool_decide as Ha.
  - by constructor.
  - pose proof (split_nonempty c s).
    destruct (Js.split c s) as [|x xs]; [done|].
    apply Forall_cons in IH as [Hx Hxs]. constructor; [|done].
    simpl. rewrite Hx. by rewrite bool_decide_eq_false_2.
Qed.

Lemma split_join (c : ascii) (segs : list string) :
  Forall (λ x, includesChar c x = false) segs → segs ≠ [] →
  Js.split c (Js.join (String c "") segs) = segs.
Proof.
  induction segs as [|x segs IH]; [done|]. intros [Hx Hsegs]%Forall_cons _.
  destruct segs as [|y segs].
  - by apply split_single.
  - rewrite join_cons by done.
    change (String c "" +:+ ?t) with (String c t).
    rewrite split_app_sep, (split_single _ _ Hx). simpl. f_equal. by apply IH.
Qed.

Lemma properSegment_noSlash (segs : list string) :
  Forall properSegment segs → Forall (λ x, includesChar Path.slash x = false) segs.
Proof. intros H. eapply Forall_impl; [exact H|]. by intros x (_ & _ & _ & ?). Qed.

(** ** Normalizing segments *)

Lemma pushSegment_proper (allow : bool) (res : list string) (seg : string) :
  properSegment seg → Path.pushSegment allow res seg = seg :: res.
Proof.
  intros (H1 & H2 & H3 & _). unfold Path.pushSegment.
  rewrite bool_decide_eq_false_2 by (intros [?|?]; done).
  by rewrite bool_decide_eq_false_2.
Qed.

Lemma fold_pushSegment_proper (allow : bool) (segs res : list string) :
  Forall properSegment segs →
  fold_left (Path.pushSegment allow) segs res = rev segs ++ res.
Proof.
  revert res. induction segs as [|x segs IH]; intros res; [done|].
  intros [Hx Hsegs]%Forall_cons. simpl.
  rewrite (pushSegment_proper _ _ _ Hx), IH by done.
  by rewrite <- app_assoc.
Qed.

Lemma pushSegment_keeps_proper (res : list string) (seg : string) :
  includesChar Path.slash seg = false →
  Forall properSegment res → Forall properSegment (Path.pushSegment false res seg).
Proof.
  intros Hseg Hres. unfold Path.pushSegment.
  case_bool_decide as H1; [done|]. case_bool_decide as H2.
  - destruct res as [|top rest]; [done|].
    apply Forall_cons in Hres as [Htop Hrest].
    case_bool_decide; [by constructor|done].
  - constructor; [|done]. split; [tauto|]. split; [tauto|]. done.
Qed.

Lemma fold_pushSegment_keeps_proper (segs res : list string) :
  Forall (λ x, includesChar Path.slash x = false) segs →
  Forall properSegment res →
  Forall properSegment (fold_left (Path.pushSegment false) segs res).
Proof.
  revert res. induction segs as [|x segs IH]; intros res; [done|].
  intros [Hx Hsegs]%Forall_cons Hres. simpl.
  apply IH; [done|]. by apply pushSegment_keeps_proper.
Qed.

Lemma segmentsOf_proper (path : string) : Forall properSegment (segmentsOf path).
Proof.
  unfold segmentsOf, Path.normalizeSegments.
  apply Forall_rev, fold_pushSegment_keeps_proper; [apply split_elements|done].
Qed.

Lemma pushSegment_empty (allow : bool) (res : list string) :
  Path.pushSegment allow res "" = res.
Proof. unfold Path.pushSegment. by rewrite bool_decide_eq_true_2 by by left. Qed.

Lemma pushSegment_up (res : list string) :
  Forall properSegment res → Path.pushSegment false res ".." = tail res.
Proof.
  intros Hres. unfold Path.pushSegment.
  rewrite bool_decide_eq_false_2 by (intros [?|?]; done).
  rewrite bool_decide_eq_true_2 by done.
  destruct res as [|top rest]; [done|].
  apply Forall_cons in Hres as [(_ & _ & Htop & _) _].
  by rewrite bool_decide_eq_false_2.
Qed.

(** The segments of a canonical absolute path are the ones it is made of. *)
Lemma split_absolutePath (segs : list string) :
  Forall properSegment segs → segs ≠ [] →
  Js.split Path.slash (absolutePath segs) = "" :: segs.
Proof.
  intros Hsegs Hne. unfold absolutePath.
  change ("/" +:+ ?t) with ("" +:+ String Path.slash t).
  rewrite split_app_sep. simpl. f_equal.
  apply (split_join Path.slash); [by apply properSegment_noSlash|done].
Qed.

Lemma segmentsOf_absolutePath (segs : list string) :
  Forall properSegment segs → segmentsOf (absolutePath segs) = segs.
Proof.
  intros Hsegs. unfold segmentsOf, Path.normalizeSegments.
  destruct segs as [|x segs]; [done|].
  rewrite split_absolutePath by done.
  change ("" :: x :: segs) with ([""] ++ x :: segs). rewrite fold_left_app.
  change (fold_left (Path.pushSegment false) [""] []) with (@nil string).
  rewrite fold_pushSegment_proper by done.
  by rewrite app_nil_r, rev_involutive.
Qed.


(** ** [path.resolve] *)

Lemma isAbsolute_nonempty (p : string) : Path.isAbsolute p = true → p ≠ "".
Proof. by destruct p. Qed.

Lemma resolveArgs_dir (cwd dir r : string) :
  Path.isAbsolute cwd = true →
  Path.resolveArgs [dir; cwd] r = (fullPath cwd dir +:+ "/" +:+ r, true).
Proof.
  intros Hcwd. pose proof (isAbsolute_nonempty _ Hcwd) as Hne.
  unfold fullPath. simpl. case_bool_decide as Hdir.
  - rewrite bool_decide_eq_false_2 by done. by rewrite Hcwd.
  - destruct (Path.isAbsolute dir) eqn:Habs; [done|].
    rewrite bool_decide_eq_false_2 by done. rewrite Hcwd.
    by rewrite !string_app_assoc.
Qed.

Lemma normalizeSegments_app (allow : bool) (l1 l2 : list string) :
  Path.normalizeSegments allow (l1 ++ l2)
  = rev (fold_left (Path.pushSegment allow) l2 (rev (Path.normalizeSegments allow l1))).
Proof.
  unfold Path.normalizeSegments. by rewrite fold_left_app, rev_involutive.
Qed.

Lemma rev_tail {A} (l : list A) : rev (tail l) = removelast (rev l).
Proof.
  destruct l as [|x l]; [done|]. simpl. by rewrite removelast_last.
Qed.

Lemma absolutePath_nil : absolutePath [] = "/".
Proof. reflexivity. Qed.

(** [path.resolve(dir)] is canonical. *)
Lemma resolve_single (cwd dir : string) :
  Path.isAbsolute cwd = true →
  Path.resolve cwd [dir] = absolutePath (segmentsOf (fullPath cwd dir)).
Proof.
  intros Hcwd. unfold Path.resolve. simpl rev. simpl app.
  rewrite (resolveArgs_dir _ _ _ Hcwd). simpl negb. cbv iota beta.
  unfold absolutePath, Path.normalizeString. do 2 f_equal.
  change ("/" +:+ "") with (String Path.slash "").
  rewrite split_app_sep, normalizeSegments_app. simpl.
  rewrite pushSegment_empty. apply rev_involutive.
Qed.

(** [path.resolve(dir, "..")] is the canonical path of the parent. *)
Lemma resolve_parent (cwd dir : string) :
  Path.isAbsolute cwd = true →
  Path.resolve cwd [dir; ".."]
  = absolutePath (removelast (segmentsOf (fullPath cwd dir))).
Proof.
  intros Hcwd. unfold Path.resolve. simpl rev. simpl app.
  change (Path.resolveArgs [".."; dir; cwd] "")
    with (Path.resolveArgs [dir; cwd] (".." +:+ "/" +:+ "")).
  rewrite (resolveArgs_dir _ _ _ Hcwd). simpl negb. cbv iota beta.
  unfold absolutePath, Path.normalizeString. do 2 f_equal.
  change ("/" +:+ ".." +:+ "/" +:+ "") with (String Path.slash "../").
  rewrite split_app_sep, normalizeSegments_app.
  change (Js.split Path.slash "../") with [".."; ""]. simpl fold_left.
  rewrite pushSegment_empty, pushSegment_up.
  - rewrite rev_tail. by rewrite rev_involutive.
  - apply Forall_rev. apply segmentsOf_proper.
Qed.

Lemma fullPath_absolutePath (cwd : string) (segs : list string) :
  fullPath cwd (absolutePath segs) = absolutePath segs.
Proof. reflexivity. Qed.

Lemma resolve_parent_canonical (cwd : string) (segs : list string) :
  Path.isAbsolute cwd = true → Forall properSegment segs →
  Path.resolve cwd [absolutePath segs; ".."] = absolutePath (removelast segs).
Proof.
  intros Hcwd Hsegs. rewrite resolve_parent by done.
  by rewrite fullPath_absolutePath, segmentsOf_absolutePath.
Qed.

Lemma resolve_single_canonical (cwd : string) (segs : list string) :
  Path.isAbsolute cwd = true → Forall properSegment segs →
  Path.resolve cwd [absolutePath segs] = absolutePath segs.
Proof.
  intros Hcwd Hsegs. rewrite resolve_single by done.
  by rewrite fullPath_absolutePath, segmentsOf_absolutePath.
Qed.

Lemma removelast_proper (segs : list string) :
  Forall properSegment segs → Forall properSegment (removelast segs).
Proof.
  intros Hsegs. destruct (decide (segs = [])) as [->|Hne]; [done|].
  rewrite (app_removelast_last "" Hne) in Hsegs.
  by apply Forall_app in Hsegs as [? _].
Qed.

Lemma removelast_fixpoint {A} (l : list A) : removelast l = l → l = [].
Proof.
  intros Heq. destruct (decide (l = [])) as [|Hne]; [done|].
  destruct l as [|x l]; [done|].
  assert (length (removelast (x :: l)) = length (x :: l)) as Hlen by by rewrite Heq.
  rewrite (app_removelast_last x Hne) in Hlen at 2.
  rewrite length_app in Hlen. simpl in Hlen. lia.
Qed.

(** A directory is its own parent exactly when it is the root directory. *)
Lemma own_parent_iff_root (cwd dir : string) :
  Path.isAbsolute cwd = true →
  dir = Path.resolve cwd [dir; ".."] ↔ dir = "/".
Proof.
  intros Hcwd. split.
  - intros Hdir. rewrite resolve_parent in Hdir by done.
    set (segs := removelast (segmentsOf (fullPath cwd dir))) in *.
    assert (Forall properSegment segs) as Hsegs
      by apply removelast_proper, segmentsOf_proper.
    assert (segmentsOf (fullPath cwd dir) = segs) as Hcanon.
    { rewrite Hdir at 1. by rewrite fullPath_absolutePath, segmentsOf_absolutePath. }
    unfold segs in Hcanon. symmetry in Hcanon.
    apply removelast_fixpoint in Hcanon.
    rewrite Hdir. unfold segs. by rewrite Hcanon.
  - intros ->. by rewrite resolve_parent.
Qed.

Lemma absolutePath_inj (segs1 segs2 : list string) :
  Forall properSegment segs1 → Forall properSegment segs2 →
  absolutePath segs1 = absolutePath segs2 → segs1 = segs2.
Proof.
  intros H1 H2 Heq.
  by rewrite <- (segmentsOf_absolutePath segs1), <- (segmentsOf_absolutePath segs2), Heq.
Qed.

(** From a canonical directory the walk visits one directory per segment,
    and the root directory. *)
Lemma walkChain_canonical (cwd : string) (segs : list string) :
  Path.isAbsolute cwd = true → Forall properSegment segs →
  ∃ dirs, walkChain cwd (absolutePath segs) dirs ∧
          length dirs = S (length segs) ∧ last dirs = Some "/".
Proof.
  intros Hcwd. induction segs as [|x segs IH] using rev_ind; intros Hsegs.
  - exists ["/"]. split; [|done]. apply walkChain_root.
    by apply own_parent_iff_root.
  - pose proof Hsegs as [Hinit _]%Forall_app.
    destruct (IH Hinit) as (dirs & Hchain & Hlen & Hlast).
    exists (absolutePath (segs ++ [x]) :: dirs). split; [|split].
    + apply walkChain_step.
      * rewrite resolve_parent_canonical, removelast_last by done.
        intros Heq%absolutePath_inj; [|done..].
        apply (f_equal length) in Heq. rewrite length_app in Heq. simpl in Heq. lia.
      * by rewrite resolve_parent_canonical, removelast_last.
    + simpl. rewrite Hlen, length_app. simpl. lia.
    + destruct dirs; [done|]. by rewrite last_cons_cons.
Qed.

Lemma removelast_length {A} (l : list A) : length (removelast l) = length l - 1.
Proof.
  destruct l as [|x l]; [done|].
  assert (x :: l ≠ []) as Hne by done.
  rewrite (app_removelast_last x Hne) at 2.
  rewrite !length_app. simpl. lia.
Qed.

(** From any directory the walk reaches the root directory. *)
Lemma walkChain_exists (cwd dir : string) :
  Path.isAbsolute cwd = true →
  ∃ dirs, walkChain cwd dir dirs ∧
          length dirs ≤ length (segmentsOf (fullPath cwd dir)) + 2 ∧
          last dirs = Some "/".
Proof.
  intros Hcwd.
  destruct (decide (dir = Path.resolve cwd [dir; ".."])) as [Hroot|Hstep].
  - exists [dir]. split; [by apply walkChain_root|]. split; [simpl; lia|].
    simpl. f_equal. by apply (own_parent_iff_root cwd).
  - pose proof (segmentsOf_proper (fullPath cwd dir)) as Hsegs.
    destruct (walkChain_canonical cwd _ Hcwd (removelast_proper _ Hsegs))
      as (dirs & Hchain & Hlen & Hlast).
    exists (dir :: dirs). split; [|split].
    + apply walkChain_step; [done|]. by rewrite resolve_parent.
    + simpl. rewrite Hlen, removelast_length. lia.
    + destruct dirs; [done|]. by rewrite last_cons_cons.
Qed.


(** ** [walkupGitignores] *)

(** Along a walk, [walkupGitignores] collects the ignore files that exist,
    given fuel for each directory of the walk. *)
Lemma walkupGitignoresFuel_chain (fs : Fs.t) (dir : string) (dirs : list string) :
  walkChain (Fs.cwd fs) dir dirs →
  ∀ fuel found, length dirs ≤ fuel →
    walkupGitignoresFuel fuel fs dir found
    = Some (found ++ filter (λ g, Fs.existsSync fs g) (gitignoreOf <$> dirs)).
Proof.
  induction 1 as [dir Hroot|dir dirs Hstep Hchain IH]; intros fuel found Hfuel.
  - destruct fuel as [|fuel]; [simpl in Hfuel; lia|]. simpl.
    rewrite bool_decide_eq_true_2 by done. simpl. f_equal.
    fold (gitignoreOf dir). rewrite filter_cons, filter_nil.
    destruct (Fs.existsSync fs (gitignoreOf dir)); simpl;
      by rewrite ?app_nil_r.
  - destruct fuel as [|fuel]; [simpl in Hfuel; lia|]. simpl in Hfuel. simpl.
    rewrite bool_decide_eq_false_2 by done. simpl.
    rewrite IH by lia. f_equal. fold (gitignoreOf dir). rewrite filter_cons.
    destruct (Fs.existsSync fs (gitignoreOf dir)); simpl;
      by rewrite <- ?app_assoc.
Qed.

Lemma join_length_proper (segs : list string) :
  Forall properSegment segs → length segs ≤ String.length (Js.join "/" segs).
Proof.
  induction segs as [|x segs IH]; [done|]. intros [Hx Hsegs]%Forall_cons.
  destruct Hx as (Hx & _). destruct segs as [|y segs].
  - destruct x; [done|]. simpl. lia.
  - rewrite join_cons by done. rewrite !string_app_length.
    specialize (IH Hsegs). simpl in *. lia.
Qed.

Lemma absolutePath_length (segs : list string) :
  Forall properSegment segs → length segs < String.length (absolutePath segs).
Proof.
  intros Hsegs. unfold absolutePath. rewrite string_app_length. simpl.
  pose proof (join_length_proper _ Hsegs). lia.
Qed.

(** C8: [walkupGitignores] terminates on every directory (the working
    directory of the process being absolute): there is a walk from the
    directory, each directory followed by its parent, that ends with the
    root directory, the only directory that is its own parent; the fuel of
    the model covers it, as does any fuel not less than its length; and
    the result is the list of the ignore files that exist in the
    directories of the walk, in that order. *)
Theorem walkupGitignores_terminates (fs : Fs.t) (dir : string) :
  Path.isAbsolute (Fs.cwd fs) = true →
  (∀ d, d = Path.resolve (Fs.cwd fs) [d; ".."] ↔ d = "/") ∧
  ∃ dirs,
    walkChain (Fs.cwd fs) dir dirs ∧ last dirs = Some "/" ∧
    walkupGitignores fs dir
      = Some (filter (λ g, Fs.existsSync fs g) (gitignoreOf <$> dirs)) ∧
    ∀ fuel, length dirs ≤ fuel →
      walkupGitignoresFuel fuel fs dir []
      = Some (filter (λ g, Fs.existsSync fs g) (gitignoreOf <$> dirs)).
Proof.
  intros Hcwd. split; [intros d; by apply own_parent_iff_root|].
  destruct (walkChain_exists (Fs.cwd fs) dir Hcwd) as (dirs & Hchain & Hlen & Hlast).
  exists dirs. split; [done|]. split; [done|].
  assert (∀ fuel, length dirs ≤ fuel →
            walkupGitignoresFuel fuel fs dir []
            = Some (filter (λ g, Fs.existsSync fs g) (gitignoreOf <$> dirs))) as Hfuel.
  { intros fuel Hle. by rewrite (walkupGitignoresFuel_chain fs dir dirs Hchain). }
  split; [|done]. unfold walkupGitignores. apply Hfuel.
  rewrite resolve_single by done.
  pose proof (absolutePath_length _ (segmentsOf_proper (fullPath (Fs.cwd fs) dir))).
  lia.
Qed.

Lemma walkupGitignores_terminates_witness :
  ∃ dirs,
    walkChain "/home" "/w/src" dirs ∧
    walkupGitignores sampleFs "/w/src"
      = Some (filter (λ g, Fs.existsSync sampleFs g) (gitignoreOf <$> dirs)).
Proof.
  destruct (walkupGitignores_terminates sampleFs "/w/src")
    as (_ & dirs & Hchain & _ & Hresult & _).
  - reflexivity.
  - exists dirs. split; [exact Hchain|exact Hresult].
Defined.

Example walkupGitignores_sample :
  walkupGitignores sampleFs "/w/src" = Some ["/w/.gitignore"].
Proof. vm_compute. reflexivity. Qed.


(** ** [path.join] and [path.dirname] on canonical paths *)

Lemma lastCharIs_snoc (c : ascii) (s : string) :
  Js.lastCharIs c (s +:+ String c "") = true.
Proof.
  induction s as [|a s IH]; [simpl; by rewrite bool_decide_eq_true_2|].
  rewrite app_String. simpl. rewrite IH. by destruct s.
Qed.

Lemma join_empty_iff (segs : list string) :
  Forall properSegment segs → Js.join "/" segs = "" → segs = [].
Proof.
  intros Hsegs Hjoin. destruct segs as [|x segs]; [done|].
  pose proof (join_length_proper _ Hsegs) as Hlen. rewrite Hjoin in Hlen.
  simpl in Hlen. lia.
Qed.

(** A normalized absolute path that does not end in a slash is the
    canonical path of its segments, and has some. *)
Lemma normalize_absolute (path : string) :
  Path.isAbsolute path = true →
  isFolderDescriptor (Path.normalize path) = false →
  Path.normalize path = absolutePath (segmentsOf path) ∧ segmentsOf path ≠ [].
Proof.
  intros Habs. unfold Path.normalize, isFolderDescriptor.
  rewrite bool_decide_eq_false_2 by by apply isAbsolute_nonempty.
  rewrite Habs. simpl negb. unfold Path.normalizeString. fold (segmentsOf path).
  case_bool_decide as Hn; [done|].
  destruct (Js.lastCharIs Path.slash path).
  - rewrite <- string_app_assoc.
    by rewrite (lastCharIs_snoc Path.slash).
  - intros _. split; [done|]. by intros Hnil; rewrite Hnil in Hn.
Qed.

(** What the input box returns below an absolute directory, when it does
    not end in a slash: the canonical path of the typed path resolved
    against the directory. *)
Lemma join_absolute (base input : string) :
  Path.isAbsolute base = true →
  isFolderDescriptor (Path.join [base; input]) = false →
  ∃ segs x,
    Path.join [base; input] = absolutePath (segs ++ [x]) ∧
    Forall properSegment (segs ++ [x]) ∧
    segs ++ [x] = segmentsOf (Js.join "/" (filter (λ a, a ≠ "") [base; input])).
Proof.
  intros Habs. unfold Path.join.
  pose proof (isAbsolute_nonempty _ Habs) as Hne.
  rewrite filter_cons_True by done.
  set (parts := base :: filter (λ a, a ≠ "") [input]).
  assert (Path.isAbsolute (Js.join "/" parts) = true) as Hjoin.
  { unfold parts. rewrite filter_cons. case_decide; [|by rewrite filter_nil].
    rewrite filter_nil, join_cons by done. destruct base; [done|].
    by rewrite app_String. }
  intros Hfile. destruct (normalize_absolute _ Hjoin Hfile) as [Hnorm Hsegs].
  destruct (segmentsOf (Js.join "/" parts)) as [|y segs] eqn:Heq using rev_ind;
    [done|]. clear IHsegs.
  exists segs, y. split; [done|]. split; [|done].
  rewrite <- Heq. apply segmentsOf_proper.
Qed.

Lemma list_ascii_of_string_app (s t : string) :
  list_ascii_of_string (s +:+ t) = list_ascii_of_string s ++ list_ascii_of_string t.
Proof.
  induction s as [|a s IH]; [done|]. rewrite app_String. simpl. by rewrite IH.
Qed.

Lemma includesChar_elem_of (c : ascii) (s : string) :
  includesChar c s = false → c ∉ list_ascii_of_string s.
Proof.
  induction s as [|a s IH]; simpl; [intros _; apply not_elem_of_nil|].
  intros [Ha Hs]%orb_false_iff. apply bool_decide_eq_false in Ha.
  rewrite not_elem_of_cons. split; [by intros ->|by apply IH].
Qed.

Lemma skipSlashes_head (a : ascii) (l : list ascii) :
  a ≠ Path.slash → Path.skipSlashes (a :: l) = a :: l.
Proof. intros Ha. simpl. by rewrite bool_decide_eq_false_2. Qed.

Lemma skipSegment_app (l1 l2 : list ascii) :
  Path.slash ∉ l1 → Path.skipSegment (l1 ++ Path.slash :: l2) = Some l2.
Proof.
  induction l1 as [|a l1 IH]; simpl; [done|].
  rewrite not_elem_of_cons. intros [Ha Hl1].
  rewrite bool_decide_eq_false_2 by (intros ->; by apply Ha). by apply IH.
Qed.

Lemma skipSegment_none (l : list ascii) :
  Path.slash ∉ l → Path.skipSegment l = None.
Proof.
  induction l as [|a l IH]; simpl; [done|].
  rewrite not_elem_of_cons. intros [Ha Hl].
  rewrite bool_decide_eq_false_2 by (intros ->; by apply Ha). by apply IH.
Qed.

Lemma join_snoc (sep : string) (segs : list string) (x : string) :
  segs ≠ [] → Js.join sep (segs ++ [x]) = Js.join sep segs +:+ sep +:+ x.
Proof.
  induction segs as [|y segs IH]; [done|]. intros _.
  destruct segs as [|z segs]; [done|].
  change ((y :: z :: segs) ++ [x]) with (y :: ((z :: segs) ++ [x])).
  rewrite join_cons by (by destruct segs). rewrite IH by done.
  rewrite (join_cons sep y (z :: segs)) by done. by rewrite !string_app_assoc.
Qed.

(** The scan of [dirname] over a proper last segment. *)
Lemma dirname_scan (x : string) (rest : list ascii) :
  properSegment x →
  Path.skipSlashes (rev (list_ascii_of_string x) ++ rest)
  = rev (list_ascii_of_string x) ++ rest ∧
  Path.slash ∉ rev (list_ascii_of_string x).
Proof.
  intros (Hne & _ & _ & Hslash). apply includesChar_elem_of in Hslash.
  assert (Path.slash ∉ rev (list_ascii_of_string x)) as Hrev.
  { intros Hin. apply Hslash. apply list_elem_of_In. apply in_rev.
    by apply list_elem_of_In. }
  split; [|done].
  destruct (rev (list_ascii_of_string x)) as [|a l] eqn:Hx.
  - exfalso. apply Hne. destruct x; [done|].
    apply (f_equal (@length ascii)) in Hx. rewrite length_rev in Hx. done.
  - apply skipSlashes_head. intros ->. apply Hrev. left.
Qed.

(** The parent of a canonical path, as [path.dirname] computes it. *)
Lemma dirname_absolutePath (segs : list string) (x : string) :
  Forall properSegment (segs ++ [x]) →
  Path.dirname (absolutePath (segs ++ [x])) = absolutePath segs.
Proof.
  intros [Hsegs [Hx _]%Forall_cons]%Forall_app.
  unfold Path.dirname, absolutePath.
  change ("/" +:+ ?t) with (String Path.slash t). simpl list_ascii_of_string.
  cbv beta iota. rewrite !(bool_decide_eq_true_2 (Path.slash = Path.slash)) by done.
  destruct (decide (segs = [])) as [->|Hne].
  - simpl Js.join. rewrite <- (app_nil_r (rev _)).
    destruct (dirname_scan x [] Hx) as [-> Hslash].
    rewrite app_nil_r. by rewrite skipSegment_none.
  - rewrite join_snoc by done.
    change ("/" +:+ x) with (String Path.slash x).
    rewrite list_ascii_of_string_app. simpl list_ascii_of_string.
    rewrite rev_app_distr. simpl rev. rewrite <- app_assoc. simpl app.
    destruct (dirname_scan x (Path.slash :: rev (list_ascii_of_string (Js.join "/" segs))) Hx)
      as [-> Hslash].
    rewrite skipSegment_app by done.
    rewrite rev_involutive.
    assert (list_ascii_of_string (Js.join "/" segs) ≠ []) as Hjoin.
    { intros Hnil. apply Hne. apply join_empty_iff; [done|].
      rewrite <- (string_of_list_ascii_of_string (Js.join "/" segs)).
      by rewrite Hnil. }
    rewrite bool_decide_eq_false_2.
    + simpl. by rewrite string_of_list_ascii_of_string.
    + intros Hnil. apply Hjoin.
      apply (f_equal (@rev ascii)) in Hnil. by rewrite rev_involutive in Hnil.
Qed.


(** ** The file system on canonical paths *)

Lemma walk_app (m : gmap (list string) Fs.Node) (pre l1 l2 : list string) :
  Fs.walk m pre (l1 ++ l2)
  = match Fs.walk m pre l1 with
    | inl e => inl e
    | inr cur => Fs.walk m cur l2
    end.
Proof.
  revert pre. induction l1 as [|seg l1 IH]; intros pre; [done|]. simpl.
  destruct (m !! pre) as [[]|]; [done| |done].
  repeat case_bool_decide; apply IH.
Qed.

Lemma walk_proper_cons (m : gmap (list string) Fs.Node) (cur rest : list string)
    (seg : string) :
  properSegment seg →
  Fs.walk m cur (seg :: rest)
  = match m !! cur with
    | None => inl Fs.ENOENT
    | Some (Fs.File _) => inl Fs.ENOTDIR
    | Some Fs.Dir => Fs.walk m (cur ++ [seg]) rest
    end.
Proof.
  intros (H1 & H2 & H3 & _). simpl. destruct (m !! cur) as [[]|]; [done| |done].
  rewrite bool_decide_eq_false_2 by (intros [?|?]; done).
  by rewrite bool_decide_eq_false_2.
Qed.

(** The walk succeeds through directories. *)
Lemma walk_dirs (m : gmap (list string) Fs.Node) (pre segs : list string) :
  Forall properSegment segs →
  (∀ k, k < length segs → m !! (pre ++ take k segs) = Some Fs.Dir) →
  Fs.walk m pre segs = inr (pre ++ segs).
Proof.
  revert pre. induction segs as [|x segs IH]; intros pre Hsegs Hdirs.
  - simpl. by rewrite app_nil_r.
  - apply Forall_cons in Hsegs as [Hx Hsegs].
    rewrite walk_proper_cons by done.
    pose proof (Hdirs 0) as H0. simpl in H0. rewrite app_nil_r in H0.
    rewrite H0 by lia. rewrite IH; [by rewrite <- app_assoc|done|].
    intros k Hk. rewrite <- app_assoc. apply (Hdirs (S k)). simpl. lia.
Qed.

(** A walk that succeeds went through directories, to the entry named. *)
Lemma walk_inr (m : gmap (list string) Fs.Node) (pre segs cur : list string) :
  Forall properSegment segs →
  Fs.walk m pre segs = inr cur →
  cur = pre ++ segs ∧
  ∀ k, k < length segs → m !! (pre ++ take k segs) = Some Fs.Dir.
Proof.
  revert pre. induction segs as [|x segs IH]; intros pre Hsegs Hwalk.
  - simpl in Hwalk. simplify_eq. split; [by rewrite app_nil_r|].
    intros k Hk. simpl in Hk. lia.
  - apply Forall_cons in Hsegs as [Hx Hsegs].
    rewrite walk_proper_cons in Hwalk by done.
    destruct (m !! pre) as [[]|] eqn:Hpre; [done| |done].
    destruct (IH _ Hsegs Hwalk) as [-> Hdirs]. split; [by rewrite <- app_assoc|].
    intros [|k] Hk; simpl.
    + by rewrite app_nil_r.
    + specialize (Hdirs k). rewrite <- app_assoc in Hdirs. apply Hdirs.
      simpl in Hk. lia.
Qed.

(** Where no file is in the way, a walk can only fail for a missing
    directory. *)
Lemma walk_inl (m : gmap (list string) Fs.Node) (pre segs : list string)
    (e : Fs.Errno) :
  Forall properSegment segs →
  (∀ k c, k < length segs → m !! (pre ++ take k segs) ≠ Some (Fs.File c)) →
  Fs.walk m pre segs = inl e → e = Fs.ENOENT.
Proof.
  revert pre. induction segs as [|x segs IH]; intros pre Hsegs Hfiles Hwalk;
    [done|].
  apply Forall_cons in Hsegs as [Hx Hsegs].
  rewrite walk_proper_cons in Hwalk by done.
  destruct (m !! pre) as [[c|]|] eqn:Hpre.
  - exfalso. apply (Hfiles 0 c); [simpl; lia|]. simpl. by rewrite app_nil_r.
  - apply (IH (pre ++ [x])); [done| |done].
    intros k c Hk. rewrite <- app_assoc. apply (Hfiles (S k)). simpl. lia.
  - by simplify_eq.
Qed.

Lemma absolutePath_nonempty (segs : list string) : absolutePath segs ≠ "".
Proof. done. Qed.

Lemma components_absolutePath (fs : Fs.t) (segs : list string) :
  Forall properSegment segs → segs ≠ [] →
  Fs.components fs (absolutePath segs) = "" :: segs.
Proof. intros Hsegs Hne. unfold Fs.components. simpl. by apply split_absolutePath. Qed.

Lemma walk_root_empty (m : gmap (list string) Fs.Node) (segs : list string) :
  m !! [] = Some Fs.Dir → Fs.walk m [] ("" :: segs) = Fs.walk m [] segs.
Proof. intros Hroot. simpl. by rewrite Hroot. Qed.

Lemma locate_absolutePath (fs : Fs.t) (segs : list string) :
  Forall properSegment segs → Fs.nodes fs !! [] = Some Fs.Dir →
  Fs.locate fs (absolutePath segs) = Fs.walk (Fs.nodes fs) [] segs.
Proof.
  intros Hsegs Hroot. unfold Fs.locate.
  rewrite bool_decide_eq_false_2 by apply absolutePath_nonempty.
  destruct (decide (segs = [])) as [->|Hne].
  - unfold Fs.components. simpl. by rewrite Hroot.
  - rewrite components_absolutePath by done. by apply walk_root_empty.
Qed.

Lemma dropEmpty_proper (x : string) (l : list string) :
  properSegment x → Fs.dropEmpty (x :: l) = x :: l.
Proof. intros (Hx & _). simpl. by rewrite bool_decide_eq_false_2. Qed.

Lemma parentAndName_absolutePath (fs : Fs.t) (segs : list string) (x : string) :
  Forall properSegment (segs ++ [x]) → Fs.nodes fs !! [] = Some Fs.Dir →
  Fs.parentAndName fs (absolutePath (segs ++ [x]))
  = Some (match Fs.walk (Fs.nodes fs) [] segs with
          | inl e => inl e
          | inr parent => inr (parent, x)
          end).
Proof.
  intros Hsegs Hroot. unfold Fs.parentAndName.
  rewrite components_absolutePath by (done || by destruct segs).
  apply Forall_app in Hsegs as [_ [Hx _]%Forall_cons].
  change (rev ("" :: segs ++ [x])) with (rev (segs ++ [x]) ++ [""]).
  rewrite rev_app_distr. simpl rev. simpl app.
  rewrite dropEmpty_proper by done.
  rewrite rev_app_distr, rev_involutive. simpl rev. simpl app.
  by rewrite walk_root_empty.
Qed.

Lemma properSegment_not_dots (x : string) :
  properSegment x → ¬ (x = "." ∨ x = "..").
Proof. intros (_ & ? & ? & _) [?|?]; done. Qed.

(** [mkdirSync] on a canonical path. *)
Lemma mkdirSync_absolutePath (fs : Fs.t) (segs : list string) (x : string) :
  Forall properSegment (segs ++ [x]) → Fs.nodes fs !! [] = Some Fs.Dir →
  Fs.mkdirSync fs (absolutePath (segs ++ [x]))
  = match Fs.walk (Fs.nodes fs) [] segs with
    | inl e => inl e
    | inr parent =>
        match Fs.nodes fs !! parent with
        | None => inl Fs.ENOENT
        | Some (Fs.File _) => inl Fs.ENOTDIR
        | Some Fs.Dir =>
            match Fs.nodes fs !! (parent ++ [x]) with
            | Some _ => inl Fs.EEXIST
            | None => inr (Fs.withNodes fs (<[parent ++ [x] := Fs.Dir]> (Fs.nodes fs)))
            end
        end
    end.
Proof.
  intros Hsegs Hroot. unfold Fs.mkdirSync.
  rewrite bool_decide_eq_false_2 by apply absolutePath_nonempty.
  rewrite parentAndName_absolutePath by done.
  apply Forall_app in Hsegs as [_ [Hx _]%Forall_cons].
  destruct (Fs.walk (Fs.nodes fs) [] segs) as [e|parent]; [done|].
  destruct (Fs.nodes fs !! parent) as [[]|]; [done| |done].
  by rewrite bool_decide_eq_false_2 by by apply properSegment_not_dots.
Qed.

(** [statSync] on a canonical path. *)
Lemma statSync_absolutePath (fs : Fs.t) (segs : list string) :
  Forall properSegment segs → Fs.nodes fs !! [] = Some Fs.Dir →
  Fs.statSync fs (absolutePath segs)
  = match Fs.walk (Fs.nodes fs) [] segs with
    | inl e => inl e
    | inr q => match Fs.nodes fs !! q with
               | Some n => inr n
               | None => inl Fs.ENOENT
               end
    end.
Proof. intros Hsegs Hroot. unfold Fs.statSync. by rewrite locate_absolutePath. Qed.

Lemma dirsAlong_walk (m : gmap (list string) Fs.Node) (segs : list string) :
  Forall properSegment segs → dirsAlong m segs →
  Fs.walk m [] segs = inr segs ∧ m !! segs = Some Fs.Dir.
Proof.
  intros Hsegs Hdirs. split.
  - apply (walk_dirs m [] segs Hsegs). intros k Hk. apply Hdirs. lia.
  - rewrite <- (firstn_all segs) at 1. by apply Hdirs.
Qed.


(** ** [mkdirp] *)

Lemma syncFuel_canonical (fuel : nat) (fs : Fs.t) (segs : list string) :
  Path.isAbsolute (Fs.cwd fs) = true → Forall properSegment segs →
  Mkdirp.syncFuel (S fuel) fs (absolutePath segs)
  = match Fs.mkdirSync fs (absolutePath segs) with
    | inr fs' => inr fs'
    | inl Fs.ENOENT =>
        match Mkdirp.syncFuel fuel fs (Path.dirname (absolutePath segs)) with
        | inr fs1 => Mkdirp.syncFuel fuel fs1 (absolutePath segs)
        | inl e => inl e
        end
    | inl err0 =>
        match Fs.statSync fs (absolutePath segs) with
        | inr st => if Fs.isDirectory st then inr fs else inl err0
        | inl _ => inl err0
        end
    end.
Proof.
  intros Hcwd Hsegs. simpl. by rewrite resolve_single_canonical.
Qed.

Lemma dirsAlong_root (m : gmap (list string) Fs.Node) (segs : list string) :
  dirsAlong m segs → m !! [] = Some Fs.Dir.
Proof. intros Hdirs. apply (Hdirs 0). lia. Qed.

Lemma not_prefix_snoc (segs : list string) (x : string) (k : nat) :
  segs ++ [x] ≠ take k segs.
Proof.
  intros Heq. apply (f_equal length) in Heq.
  rewrite length_app, length_take in Heq. simpl in Heq. lia.
Qed.

(** Making the last directory of a path whose parent is there. *)
Lemma syncFuel_last (fuel : nat) (fs : Fs.t) (segs : list string) (x : string) :
  Path.isAbsolute (Fs.cwd fs) = true →
  Forall properSegment (segs ++ [x]) →
  dirsAlong (Fs.nodes fs) segs →
  (∀ c, Fs.nodes fs !! (segs ++ [x]) ≠ Some (Fs.File c)) →
  ∃ fs',
    Mkdirp.syncFuel (S fuel) fs (absolutePath (segs ++ [x])) = inr fs' ∧
    Fs.cwd fs' = Fs.cwd fs ∧
    Fs.nodes fs' !! (segs ++ [x]) = Some Fs.Dir ∧
    ∀ q, q ≠ segs ++ [x] → Fs.nodes fs' !! q = Fs.nodes fs !! q.
Proof.
  intros Hcwd Hproper Hdirs Hfile.
  pose proof (dirsAlong_root _ _ Hdirs) as Hroot.
  pose proof Hproper as [Hsegs [Hx _]%Forall_cons]%Forall_app.
  destruct (dirsAlong_walk _ _ Hsegs Hdirs) as [Hwalk Hparent].
  rewrite syncFuel_canonical, mkdirSync_absolutePath by done.
  rewrite Hwalk, Hparent.
  destruct (Fs.nodes fs !! (segs ++ [x])) as [[c|]|] eqn:Htarget.
  - by destruct (Hfile c).
  - rewrite statSync_absolutePath by done.
    rewrite walk_app, Hwalk, walk_proper_cons, Hparent by done. simpl.
    rewrite Htarget. simpl. exists fs. by rewrite Htarget.
  - eexists. split; [done|]. split; [done|]. simpl. split.
    + by rewrite lookup_insert_eq.
    + intros q Hq. by rewrite lookup_insert_ne.
Qed.

Lemma noFileAlong_init (m : gmap (list string) Fs.Node) (segs : list string)
    (x : string) :
  noFileAlong m (segs ++ [x]) →
  noFileAlong m segs ∧ ∀ c, m !! (segs ++ [x]) ≠ Some (Fs.File c).
Proof.
  intros Hfiles. split.
  - intros k c Hk. rewrite <- (take_app_le segs [x]) by done.
    apply Hfiles. rewrite length_app. lia.
  - intros c. rewrite <- (take_ge (segs ++ [x]) (length (segs ++ [x]))) by done.
    by apply Hfiles.
Qed.

Lemma dirsAlong_snoc (m : gmap (list string) Fs.Node) (segs : list string)
    (x : string) :
  dirsAlong m segs → m !! (segs ++ [x]) = Some Fs.Dir → dirsAlong m (segs ++ [x]).
Proof.
  intros Hdirs Hlast k Hk. rewrite length_app in Hk. simpl in Hk.
  destruct (decide (k ≤ length segs)) as [Hle|Hgt].
  - rewrite take_app_le by done. by apply Hdirs.
  - rewrite take_ge by (rewrite length_app; simpl; lia). done.
Qed.

(** [mkdirp] makes every missing directory of a path on which no regular
    file stands, and touches nothing else. *)
Lemma syncFuel_creates (segs : list string) :
  Forall properSegment segs →
  ∀ fs fuel,
    Path.isAbsolute (Fs.cwd fs) = true →
    Fs.nodes fs !! [] = Some Fs.Dir →
    noFileAlong (Fs.nodes fs) segs →
    length segs + 1 ≤ fuel →
    ∃ fs',
      Mkdirp.syncFuel fuel fs (absolutePath segs) = inr fs' ∧
      Fs.cwd fs' = Fs.cwd fs ∧
      dirsAlong (Fs.nodes fs') segs ∧
      ∀ q, (∀ k, q ≠ take k segs) → Fs.nodes fs' !! q = Fs.nodes fs !! q.
Proof.
  induction segs as [|x segs IH] using rev_ind;
    intros Hproper fs fuel Hcwd Hroot Hfiles Hfuel.
  - destruct fuel as [|fuel]; [simpl in Hfuel; lia|].
    rewrite syncFuel_canonical by done.
    exists fs. split; [|split; [done|split; [|done]]].
    + unfold Fs.mkdirSync, Fs.parentAndName, Fs.statSync, Fs.locate,
        Fs.components. simpl. rewrite !Hroot. simpl. by rewrite ?Hroot.
    + intros k _. by rewrite take_nil.
  - pose proof Hproper as [Hsegs [Hx _]%Forall_cons]%Forall_app.
    destruct (noFileAlong_init _ _ _ Hfiles) as [Hinit Hlast].
    destruct fuel as [|fuel]; [lia|].
    rewrite length_app in Hfuel. simpl in Hfuel.
    assert (∀ fs1, Fs.cwd fs1 = Fs.cwd fs → dirsAlong (Fs.nodes fs1) segs →
              (∀ q, (∀ k, q ≠ take k segs) → Fs.nodes fs1 !! q = Fs.nodes fs !! q) →
              ∀ fuel1, ∃ fs',
                Mkdirp.syncFuel (S fuel1) fs1 (absolutePath (segs ++ [x])) = inr fs' ∧
                Fs.cwd fs' = Fs.cwd fs ∧
                dirsAlong (Fs.nodes fs') (segs ++ [x]) ∧
                ∀ q, (∀ k, q ≠ take k (segs ++ [x])) →
                     Fs.nodes fs' !! q = Fs.nodes fs !! q) as Hstep.
    { intros fs1 Hcwd1 Hdirs1 Hframe1 fuel1.
      destruct (syncFuel_last fuel1 fs1 segs x) as (fs' & Hsync & Hcwd' & Hnew & Hframe');
        [by rewrite Hcwd1|done|done| |].
      { intros c. rewrite Hframe1 by (intros k; apply not_prefix_snoc). apply Hlast. }
      exists fs'. split; [done|]. split; [by rewrite Hcwd'|]. split.
      - apply dirsAlong_snoc; [|done]. intros k Hk.
        rewrite Hframe' by (intros Heq; symmetry in Heq; by apply not_prefix_snoc in Heq).
        by apply Hdirs1.
      - intros q Hq. rewrite Hframe'.
        + apply Hframe1. intros k Heq. apply (Hq (k `min` length segs)).
          rewrite take_app_le by lia. rewrite Heq.
          destruct (decide (k ≤ length segs)) as [?|?].
          * by rewrite Nat.min_l by lia.
          * rewrite Nat.min_r by lia. by rewrite !take_ge by lia.
        + intros ->. apply (Hq (length (segs ++ [x]))). by rewrite take_ge. }
    rewrite syncFuel_canonical, mkdirSync_absolutePath by done.
    assert (∃ fs', match Mkdirp.syncFuel fuel fs (Path.dirname (absolutePath (segs ++ [x]))) with
                   | inr fs1 => Mkdirp.syncFuel fuel fs1 (absolutePath (segs ++ [x]))
                   | inl e => inl e
                   end = inr fs' ∧
                   Fs.cwd fs' = Fs.cwd fs ∧
                   dirsAlong (Fs.nodes fs') (segs ++ [x]) ∧
                   ∀ q, (∀ k, q ≠ take k (segs ++ [x])) →
                        Fs.nodes fs' !! q = Fs.nodes fs !! q) as Hrec.
    { rewrite dirname_absolutePath by done.
      destruct (IH Hsegs fs fuel Hcwd Hroot Hinit) as (fs1 & -> & Hcwd1 & Hdirs1 & Hframe1);
        [lia|].
      destruct fuel as [|fuel1]; [lia|]. by apply Hstep. }
    destruct (Fs.walk (Fs.nodes fs) [] segs) as [e|parent] eqn:Hwalk.
    { assert (e = Fs.ENOENT) as ->; [|done].
      eapply (walk_inl _ [] segs); [done| |done].
      intros k c Hk. apply Hinit. lia. }
    destruct (walk_inr _ _ _ _ Hsegs Hwalk) as [-> Hbelow]. simpl app.
    destruct (Fs.nodes fs !! segs) as [[c|]|] eqn:Hparent; [|clear Hrec|done].
    { exfalso. apply (Hinit (length segs) c); [done|]. by rewrite take_ge. }
    assert (dirsAlong (Fs.nodes fs) segs) as Hdirs.
    { intros k Hk. destruct (decide (k < length segs)) as [?|?].
      - by apply Hbelow.
      - by rewrite take_ge by lia. }
    destruct (Hstep fs eq_refl Hdirs (λ _ _, eq_refl) fuel) as (fs' & Hsync & Hrest).
    rewrite syncFuel_canonical, mkdirSync_absolutePath in Hsync by done.
    rewrite Hwalk in Hsync. simpl app in Hsync. rewrite Hparent in Hsync.
    by exists fs'.
Qed.


(** ** [createFileOrFolder] on a new path *)

Lemma wf_dirs_above (fs : Fs.t) (q : list string) (n : Fs.Node) :
  Fs.wf fs → Fs.nodes fs !! q = Some n →
  ∀ k, k < length q → Fs.nodes fs !! take k q = Some Fs.Dir.
Proof.
  intros [_ Hwf]. revert n.
  induction q as [|x q IH] using rev_ind; intros n Hq k Hk; [simpl in Hk; lia|].
  destruct (Hwf _ _ Hq) as [Hnil|Hparent]; [by destruct q|].
  rewrite removelast_last in Hparent.
  rewrite length_app in Hk. simpl in Hk.
  destruct (decide (k < length q)) as [Hlt|Hge].
  - rewrite take_app_le by lia. by eapply IH.
  - replace k with (length q) by lia. by rewrite take_app_length.
Qed.

Lemma existsSync_false_absent (fs : Fs.t) (segs : list string) :
  Fs.wf fs → Forall properSegment segs →
  Fs.existsSync fs (absolutePath segs) = false →
  Fs.nodes fs !! segs = None.
Proof.
  intros Hwf Hsegs Hexists.
  destruct (Fs.nodes fs !! segs) as [n|] eqn:Hentry; [exfalso|done].
  unfold Fs.existsSync in Hexists.
  rewrite statSync_absolutePath in Hexists by (done || apply Hwf).
  rewrite (walk_dirs _ [] segs) in Hexists; [|done|].
  - simpl in Hexists. by rewrite Hentry in Hexists.
  - intros k Hk. simpl. by eapply wf_dirs_above.
Qed.

Lemma noFileAbove_along (m : gmap (list string) Fs.Node) (segs : list string)
    (x : string) :
  noFileAbove m (segs ++ [x]) → noFileAlong m segs.
Proof.
  unfold noFileAbove. rewrite Forall_forall. intros Hfiles k c Hk Hentry.
  specialize (Hfiles k). rewrite take_app_le, Hentry in Hfiles by done.
  assert (true = false); [|done]. apply Hfiles.
  apply elem_of_seq. rewrite length_app. simpl. lia.
Qed.

Lemma dirsAlong_above (m : gmap (list string) Fs.Node) (segs : list string)
    (x : string) :
  dirsAlong m segs → dirsAbove m (segs ++ [x]).
Proof.
  intros Hdirs. apply Forall_forall. intros k Hk.
  apply elem_of_seq in Hk. rewrite length_app in Hk. simpl in Hk.
  rewrite take_app_le by lia. apply Hdirs. lia.
Qed.

(** Appending to a file that is missing from an existing directory makes
    the file. *)
Lemma appendFileSync_creates (fs : Fs.t) (segs : list string) (x data : string) :
  Forall properSegment (segs ++ [x]) →
  Js.lastCharIs Path.slash (absolutePath (segs ++ [x])) = false →
  dirsAlong (Fs.nodes fs) segs →
  Fs.nodes fs !! (segs ++ [x]) = None →
  Fs.appendFileSync fs (absolutePath (segs ++ [x])) data
  = inr (Fs.withNodes fs (<[segs ++ [x] := Fs.File data]> (Fs.nodes fs))).
Proof.
  intros Hproper Hlast Hdirs Hentry.
  pose proof Hproper as [Hsegs [Hx _]%Forall_cons]%Forall_app.
  destruct (dirsAlong_walk _ _ Hsegs Hdirs) as [Hwalk Hparent].
  unfold Fs.appendFileSync, Fs.openWrite.
  rewrite bool_decide_eq_false_2 by apply absolutePath_nonempty.
  rewrite Hlast. rewrite parentAndName_absolutePath
    by (done || by eapply dirsAlong_root).
  rewrite Hwalk, Hparent.
  rewrite bool_decide_eq_false_2 by by apply properSegment_not_dots.
  by rewrite Hentry.
Qed.

Lemma sync_creates (fs : Fs.t) (segs : list string) :
  Forall properSegment segs →
  Path.isAbsolute (Fs.cwd fs) = true →
  Fs.nodes fs !! [] = Some Fs.Dir →
  noFileAlong (Fs.nodes fs) segs →
  ∃ fs',
    Mkdirp.sync fs (absolutePath segs) = inr fs' ∧
    Fs.cwd fs' = Fs.cwd fs ∧
    dirsAlong (Fs.nodes fs') segs ∧
    ∀ q, (∀ k, q ≠ take k segs) → Fs.nodes fs' !! q = Fs.nodes fs !! q.
Proof.
  intros Hsegs Hcwd Hroot Hfiles. unfold Mkdirp.sync.
  apply syncFuel_creates; [done..|].
  rewrite resolve_single_canonical by done.
  pose proof (absolutePath_length _ Hsegs). lia.
Qed.

(** C7: the path returned by the input box for a typed relative path (below
    an absolute directory, not ending in a slash) that does not exist yet,
    and above which no regular file stands, is created with all its
    directories: [mkdirp] first makes every missing directory above it,
    the file still missing then, and [appendFileSync] then makes the empty
    file; nothing that existed is changed. *)
Theorem createFileOrFolder_creates_intermediate (user : User) (fs : Fs.t)
    (baseDirectory : DirectoryOption) (newFileInput : string) :
  showInputBox user baseDirectory = Some newFileInput →
  Path.isAbsolute (absolute (fsLocation baseDirectory)) = true →
  Path.isAbsolute (Fs.cwd fs) = true →
  isFolderDescriptor newFileInput = false →
  Fs.wf fs →
  Fs.existsSync fs newFileInput = false →
  noFileAbove (Fs.nodes fs) (segmentsOf newFileInput) →
  ∃ fs1 fs',
    Mkdirp.sync fs (Path.dirname newFileInput) = inr fs1 ∧
    dirsAbove (Fs.nodes fs1) (segmentsOf newFileInput) ∧
    Fs.nodes fs1 !! segmentsOf newFileInput = None ∧
    Fs.appendFileSync fs1 newFileInput "" = inr fs' ∧
    createFileOrFolder fs newFileInput = Ok fs' ∧
    dirsAbove (Fs.nodes fs') (segmentsOf newFileInput) ∧
    Fs.nodes fs' !! segmentsOf newFileInput = Some (Fs.File "") ∧
    ∀ q n, Fs.nodes fs !! q = Some n → Fs.nodes fs' !! q = Some n.
Proof.
  unfold showInputBox. destruct (typePath user _) as [input|]; [|done].
  intros [= <-] Hbase Hcwd Hfile Hwf Hexists Hfiles.
  destruct (join_absolute _ input Hbase Hfile) as (segs & x & Hjoin & Hproper & _).
  rewrite Hjoin in *. clear Hjoin.
  rewrite segmentsOf_absolutePath in * by done.
  pose proof Hproper as [Hsegs [Hx _]%Forall_cons]%Forall_app.
  pose proof (proj1 Hwf) as Hroot.
  pose proof (existsSync_false_absent _ _ Hwf Hproper Hexists) as Hentry.
  pose proof (noFileAbove_along _ _ _ Hfiles) as Halong.
  rewrite dirname_absolutePath by done.
  destruct (sync_creates fs segs Hsegs Hcwd Hroot Halong)
    as (fs1 & Hsync & Hcwd1 & Hdirs1 & Hframe1).
  assert (Fs.nodes fs1 !! (segs ++ [x]) = None) as Hentry1.
  { rewrite Hframe1 by (intros k; apply not_prefix_snoc). done. }
  pose proof (appendFileSync_creates fs1 segs x "" Hproper Hfile Hdirs1 Hentry1)
    as Happend.
  eexists fs1, _. split; [exact Hsync|]. split; [by apply dirsAlong_above|].
  split; [done|]. split; [exact Happend|]. split.
  { unfold createFileOrFolder. rewrite Hexists, Hfile. simpl.
    rewrite dirname_absolutePath by done. rewrite Hsync. simpl.
    by rewrite Happend. }
  simpl. split.
  { apply dirsAlong_above. intros k Hk.
    rewrite lookup_insert_ne
      by (intros Heq; by apply not_prefix_snoc in Heq).
    by apply Hdirs1. }
  split; [by rewrite lookup_insert_eq|].
  intros q n Hq.
  assert (q ≠ segs ++ [x]) as Hne by (intros ->; by rewrite Hentry in Hq).
  rewrite lookup_insert_ne by done.
  destruct (decide (q `prefix_of` segs)) as [[rest Hrest]|Hnot].
  - assert (length q ≤ length segs) as Hk
      by (rewrite Hrest, length_app; lia).
    assert (q = take (length q) segs) as Hprefix
      by (by rewrite Hrest, take_app_length).
    rewrite Hprefix, (Hdirs1 _ Hk). destruct n as [c|]; [|done].
    destruct (Halong (length q) c Hk). by rewrite <- Hprefix.
  - rewrite Hframe1; [done|]. intros k ->. apply Hnot.
    exists (drop k segs). by rewrite take_drop.
Qed.

Lemma createFileOrFolder_creates_intermediate_witness :
  ∃ fs',
    createFileOrFolder sampleFs "/w/src/x/y/new.ts" = Ok fs' ∧
    Fs.nodes fs' !! ["w"; "src"; "x"] = Some Fs.Dir ∧
    Fs.nodes fs' !! ["w"; "src"; "x"; "y"] = Some Fs.Dir ∧
    Fs.nodes fs' !! ["w"; "src"; "x"; "y"; "new.ts"] = Some (Fs.File "").
Proof.
  destruct (createFileOrFolder_creates_intermediate typingUser sampleFs dirSrc
              "/w/src/x/y/new.ts")
    as (fs1 & fs' & _ & _ & _ & _ & Hcreate & Hdirs & Hfile & _).
  - vm_compute. reflexivity.
  - reflexivity.
  - reflexivity.
  - vm_compute. reflexivity.
  - apply (bool_decide_unpack _). vm_compute. reflexivity.
  - vm_compute. reflexivity.
  - apply (bool_decide_unpack _). vm_compute. reflexivity.
  - exists fs'. split; [exact Hcreate|].
    unfold dirsAbove in Hdirs. rewrite Forall_forall in Hdirs.
    split; [apply (Hdirs 3); apply (bool_decide_unpack _); vm_compute; reflexivity|].
    split; [apply (Hdirs 4); apply (bool_decide_unpack _); vm_compute; reflexivity|].
    exact Hfile.
Defined.

(* ===================================================================== *)
(** * Part III: further properties of the code                            *)
(* ===================================================================== *)

(** ** More on [sortRoots] *)

Lemma decorate_value {A} (key : A → Z) (input : list A) :
  Lodash.value <$> Lodash.decorate key input = input.
Proof.
  unfold Lodash.decorate. rewrite fmap_imap.
  apply list_eq; intros i. rewrite list_lookup_imap.
  by destruct (input !! i).
Qed.

Lemma StronglySorted_of_lookup {A} (R : relation A) (l : list A) :
  (∀ i j a b, i < j → l !! i = Some a → l !! j = Some b → R a b) →
  StronglySorted R l.
Proof.
  induction l as [|x l IH]; intros Hl; [constructor|].
  constructor.
  - apply IH. intros i j a b Hij Ha Hb. apply (Hl (S i) (S j)); [lia|done..].
  - apply Forall_forall. intros y Hy.
    apply list_elem_of_lookup in Hy as [j Hj]. apply (Hl 0 (S j)); [lia|done..].
Qed.

Lemma StronglySorted_fmap_lookup {A} (f : A → Z) (l : list A) i j x y :
  StronglySorted Z.le (f <$> l) → i < j →
  l !! i = Some x → l !! j = Some y → (f x ≤ f y)%Z.
Proof.
  revert i j. induction l as [|z l IH]; intros i j Hs Hij Hi Hj; [done|].
  rewrite fmap_cons in Hs. apply StronglySorted_inv in Hs as [Hs Hz].
  destruct j as [|j]; [lia|]. destruct i as [|i]; simpl in *.
  - simplify_eq. rewrite Forall_forall in Hz. apply Hz.
    apply list_elem_of_fmap_2. by eapply list_elem_of_lookup_2.
  - eapply (IH i j); [done|lia|done..].
Qed.

(** Sorting a list whose keys ascend already returns the list. *)
Lemma stablySortedBy_sorted {A} (key : A → Z) (input output : list A) :
  StronglySorted Z.le (key <$> input) →
  stablySortedBy key input output → output = input.
Proof.
  intros Hsorted (positions & Hperm & Hall & Hord).
  assert (NoDup positions) as Hnd by (rewrite Hperm; apply NoDup_seq).
  assert (positions = seq 0 (length input)) as ->.
  { apply (StronglySorted_unique_strong lt); [intros; lia| | |done].
    - apply StronglySorted_of_lookup. intros i j a b Hij Ha Hb.
      destruct (Forall2_lookup_l _ _ _ _ _ Hall Ha) as (x & _ & Hx).
      destruct (Forall2_lookup_l _ _ _ _ _ Hall Hb) as (y & _ & Hy).
      destruct (Hord i j a b x y Hij Ha Hb Hx Hy) as [Hlt|[_ ?]]; [|done].
      destruct (Nat.lt_trichotomy a b) as [?|[->|Hba]]; [done| |].
      + assert (i = j) by (by eapply NoDup_lookup). lia.
      + pose proof (StronglySorted_fmap_lookup key input b a y x Hsorted Hba Hy Hx).
        lia.
    - apply StronglySorted_of_lookup. intros i j a b Hij Ha Hb.
      apply lookup_seq in Ha as [-> _]. apply lookup_seq in Hb as [-> _]. lia. }
  apply list_eq. intros i.
  destruct (input !! i) as [x|] eqn:Hi.
  - assert (seq 0 (length input) !! i = Some i) as Hseq
      by (apply lookup_seq; split; [done|by eapply lookup_lt_Some]).
    destruct (Forall2_lookup_l _ _ _ _ _ Hall Hseq) as (y & Hy & Hiy).
    by rewrite Hy, <- Hiy.
  - apply lookup_ge_None. apply lookup_ge_None in Hi.
    rewrite <- (Forall2_length _ _ _ Hall), length_seq. done.
Qed.

(** X1: [sortRoots] only reorders: its result is a permutation of the
    roots, whatever the order list. *)
Theorem sortRoots_permutation (roots : list WorkspaceRoot) (order : list string) :
  sortRoots roots order ≡ₚ roots.
Proof.
  unfold sortRoots, Lodash.sortBy. rewrite baseSortBy_perm.
  by rewrite decorate_value.
Qed.

(** X2: roots that stand in recency order already are returned as they
    are; so are, in particular, roots of which none is in the order list,
    as on the first use of a workspace. *)
Theorem sortRoots_in_order_unchanged (roots : list WorkspaceRoot)
    (order : list string) :
  inRecencyOrder roots order ∨ Forall (λ r, rootPath r ∉ order) roots →
  sortRoots roots order = roots.
Proof.
  intros Hcase. apply (stablySortedBy_sorted (desiredIndexOf roots order));
    [|apply sortRoots_stable].
  destruct Hcase as [Hsorted|Hunseen]; [done|].
  apply StronglySorted_of_lookup. intros i j a b _ Ha Hb.
  rewrite list_lookup_fmap in Ha, Hb.
  destruct (roots !! i) as [x|] eqn:Hx; [|done].
  destruct (roots !! j) as [y|] eqn:Hy; [|done]. simplify_eq/=.
  rewrite Forall_forall in Hunseen.
  rewrite !desiredIndexOf_unseen; [lia|..];
    apply Hunseen; by eapply list_elem_of_lookup_2.
Qed.

Lemma sortRoots_in_order_unchanged_witness :
  sortRoots [rootB; rootA; rootC] ["/b"; "/a"] = [rootB; rootA; rootC] ∧
  sortRoots [rootA; rootB; rootC] [] = [rootA; rootB; rootC].
Proof.
  split; apply sortRoots_in_order_unchanged.
  - left. apply (bool_decide_unpack _). vm_compute. reflexivity.
  - right. apply (bool_decide_unpack _). vm_compute. reflexivity.
Defined.

(** ** More on [cacheSelection] *)

Lemma NoDup_filter_eq_length (l : list string) (p : string) :
  NoDup l → length (filter (λ q, q = p) l) ≤ 1.
Proof.
  induction 1 as [|x l Hx Hnd IH]; [simpl; lia|].
  rewrite filter_cons. case_decide as Hp; [|done]. subst x. simpl.
  assert (filter (λ q, q = p) l = []) as ->; [|simpl; lia].
  apply length_zero_iff_nil.
  destruct (filter (λ q, q = p) l) as [|y ys] eqn:Hf; [done|].
  assert (y ∈ filter (λ q, q = p) l) as Hy by (rewrite Hf; left).
  apply list_elem_of_filter in Hy as [-> Hy]. done.
Qed.

(** What [cacheSelection] does to a cache whose recent roots are a list. *)
Lemma cacheSelection_result (cache : Cache.t) (dir : DirectoryOption)
    (root : WorkspaceRoot) (recent : list string) :
  recentRootsOrEmpty cache = Ok recent →
  cacheSelection cache dir (Some root)
  = (Ok (),
     <["recentRoots" :=
         VStrings (rootPath root ::
           (if (0 <=? Js.indexOf recent (rootPath root))%Z
            then Js.splice1 recent (Z.to_nat (Js.indexOf recent (rootPath root)))
            else recent))]>
       (<["last" := VObject dir]> cache)).
Proof.
  intros Hrecent. unfold cacheSelection, Cache.get, Cache.put.
  rewrite lookup_insert_ne by done.
  by rewrite (recentRootsOrEmpty_inv _ _ Hrecent).
Qed.

Lemma recentRootsOrEmpty_insert (cache : Cache.t) (l : list string) :
  recentRootsOrEmpty (<["recentRoots" := VStrings l]> cache) = Ok l.
Proof.
  unfold recentRootsOrEmpty, Cache.get. by rewrite lookup_insert_eq.
Qed.

(** X3: the recent roots stay a list without repetition of paths of the
    roots of the workspace: from such a list, [cacheSelection] for one of
    the roots leaves such a list, made of the path of the root and the
    former paths. *)
Theorem cacheSelection_keeps_invariant (cache : Cache.t) (dir : DirectoryOption)
    (roots : list WorkspaceRoot) (root : WorkspaceRoot) (recent : list string) :
  recentRootsOrEmpty cache = Ok recent →
  recentRootsInvariant roots recent →
  root ∈ roots →
  ∃ recent',
    recentRootsOrEmpty (cacheSelection cache dir (Some root)).2 = Ok recent' ∧
    recentRootsInvariant roots recent' ∧
    (∀ p, p ∈ recent' ↔ p = rootPath root ∨ p ∈ recent) ∧
    length recent' ≤ length roots.
Proof.
  intros Hrecent [Hnd Hsub] Hroot.
  rewrite (cacheSelection_result _ _ _ _ Hrecent). simpl.
  rewrite recentRootsOrEmpty_insert.
  rewrite (indexOf_splice _ _ (NoDup_filter_eq_length _ _ Hnd)).
  eexists. split; [done|].
  assert (recentRootsInvariant roots
            (rootPath root :: filter (λ q, q ≠ rootPath root) recent)) as Hinv.
  { split.
    - constructor; [|by apply NoDup_filter].
      rewrite list_elem_of_filter. by intros [? _].
    - constructor; [by apply list_elem_of_fmap_2|].
      rewrite Forall_forall in *. intros p [_ Hp]%list_elem_of_filter. by apply Hsub. }
  split; [done|]. split.
  - intros p. rewrite elem_of_cons, list_elem_of_filter.
    destruct (decide (p = rootPath root)) as [->|Hne].
    + split; intros _; by left.
    + split; [intros [?|[_ ?]]|intros [?|?]]; (done || by right).
  - destruct Hinv as [Hnd' Hsub']. rewrite <- (length_fmap rootPath roots).
    apply submseteq_length, NoDup_submseteq; [done|].
    by apply Forall_forall.
Qed.

Lemma cacheSelection_keeps_invariant_witness :
  ∃ recent',
    recentRootsOrEmpty (cacheSelection cacheAB dirB (Some rootB)).2 = Ok recent' ∧
    recentRootsInvariant [rootA; rootB; rootC] recent'.
Proof.
  destruct (cacheSelection_keeps_invariant cacheAB dirB [rootA; rootB; rootC]
              rootB ["/a"; "/b"]) as (recent' & Hrecent & Hinv & _).
  - vm_compute. reflexivity.
  - apply (bool_decide_unpack _). vm_compute. reflexivity.
  - apply (bool_decide_unpack _). vm_compute. reflexivity.
  - by exists recent'.
Defined.

(** X4: under that invariant the sentinel key of [sortRoots] is safe:
    every root that is not among the recent roots sorts after every root
    that is. *)
Theorem sortRoots_unseen_last_of_invariant (roots : list WorkspaceRoot)
    (recent : list string) :
  recentRootsInvariant roots recent →
  unseenLast recent (sortRoots roots recent).
Proof.
  intros [Hnd Hsub]. pose proof (sortRoots_stable roots recent) as Hst.
  assert (length recent ≤ length roots) as Hlen.
  { rewrite <- (length_fmap rootPath roots).
    apply submseteq_length, NoDup_submseteq; [done|]. by apply Forall_forall. }
  intros i j r1 r2 Hi Hj Hunseen Hseen.
  destruct (indexOf_present recent (rootPath r2) Hseen) as (n & Hn & Hfirst & Hidx).
  pose proof (lookup_lt_Some _ _ _ Hn) as Hbound.
  assert (desiredIndexOf roots recent r2 < desiredIndexOf roots recent r1)%Z as Hlt.
  { rewrite (desiredIndexOf_unseen _ _ r1 Hunseen).
    rewrite (desiredIndexOf_seen _ _ _ _ Hn Hfirst). lia. }
  destruct (Nat.lt_trichotomy i j) as [Hij|[->|?]]; [|congruence|done].
  pose proof (stablySortedBy_keys _ _ _ _ _ _ _ Hst Hij Hi Hj). lia.
Qed.

Lemma sortRoots_unseen_last_of_invariant_witness :
  unseenLast ["/b"; "/a"] (sortRoots [rootA; rootB; rootC] ["/b"; "/a"]).
Proof.
  apply sortRoots_unseen_last_of_invariant.
  apply (bool_decide_unpack _). vm_compute. reflexivity.
Defined.

Lemma indexOf_head (l : list string) (p : string) : Js.indexOf (p :: l) p = 0%Z.
Proof. unfold Js.indexOf. simpl. by rewrite bool_decide_eq_true_2. Qed.

(** X5: confirming a selection a second time changes nothing more: the
    cache after [cacheSelection] twice for the same directory and root is
    the cache after once. *)
Theorem cacheSelection_twice (cache : Cache.t) (dir : DirectoryOption)
    (root : WorkspaceRoot) (recent : list string) :
  recentRootsOrEmpty cache = Ok recent →
  cacheSelection (cacheSelection cache dir (Some root)).2 dir (Some root)
  = cacheSelection cache dir (Some root).
Proof.
  intros Hrecent. rewrite (cacheSelection_result _ _ _ _ Hrecent). cbn [snd].
  erewrite cacheSelection_result by apply recentRootsOrEmpty_insert.
  rewrite indexOf_head. simpl. f_equal.
  apply map_eq. intros key. rewrite !lookup_insert.
  repeat case_decide; done.
Qed.

Lemma cacheSelection_twice_witness :
  cacheSelection (cacheSelection cacheAB dirB (Some rootB)).2 dirB (Some rootB)
  = cacheSelection cacheAB dirB (Some rootB).
Proof. apply (cacheSelection_twice cacheAB dirB rootB ["/a"; "/b"]). vm_compute. reflexivity. Defined.

(** ** More on the directory listing *)

Lemma minimatch_globstar_segments (f seg : string) :
  Glob.minimatch false "**" f = true →
  seg ∈ Js.split Path.slash f → Js.startsWith seg "." = false.
Proof.
  unfold Glob.minimatch. change (Js.split Path.slash "**") with ["**"]. simpl.
  intros [_ Hall]%andb_true_iff Hseg.
  rewrite forallb_forall in Hall. specialize (Hall seg).
  unfold Glob.dotOk in Hall. simpl in Hall.
  destruct (Js.startsWith seg "."); [|done].
  symmetry. apply Hall. by apply list_elem_of_In.
Qed.

(** X6: hidden entries are never offered: no candidate of
    [directoriesSync] is the location of a path with a segment that starts
    with a dot. *)
Theorem directoriesSync_no_hidden (fs : Fs.t) (config : Configuration)
    (root : string) (dirs : list FSLocation) (loc : FSLocation) :
  directoriesSync fs config root = Ok dirs →
  loc ∈ dirs →
  ∃ f, loc = locationOf root f ∧
       ∀ seg, seg ∈ Js.split Path.slash f → Js.startsWith seg "." = false.
Proof.
  unfold directoriesSync. intros (ignore & Hignore & Hfilter)%bindOutcome_Ok Hloc.
  destruct (filterOutcome_Ok _ _ _ _ Hfilter Hloc) as [Hin _].
  apply list_elem_of_fmap in Hin as (f & -> & Hf).
  apply glob_sync_not_ignored in Hf as [Hmatch _].
  exists f. split; [done|]. intros seg. by apply minimatch_globstar_segments.
Qed.

Lemma directoriesSync_no_hidden_witness :
  ∃ f, locationOf "/w" "src" = locationOf "/w" f ∧
       ∀ seg, seg ∈ Js.split Path.slash f → Js.startsWith seg "." = false.
Proof.
  apply (directoriesSync_no_hidden sampleFs sampleConfiguration "/w"
           [locationOf "/w" "src"]).
  - vm_compute. reflexivity.
  - constructor.
Defined.

Lemma swapNegation_ordinary (line : string) :
  Js.startsWith line "!" = false →
  GitignoreToGlob.swapNegation line = ("!", line).
Proof.
  destruct line as [|a line]; [done|]. unfold Js.startsWith. simpl.
  destruct (Ascii.ascii_dec "!" a) as [<-|Hne]; [by destruct line|].
  intros _. by destruct a as [[] [] [] [] [] [] [] []].
Qed.

(** The globs of an ordinary line of an ignore file. *)
Lemma ordinaryGlob_elem_of (content line : string) :
  line ∈ Js.split "010" content →
  GitignoreToGlob.isPattern line = true →
  Js.startsWith line "!" = false →
  GitignoreToGlob.notHidden ("!", line) = true →
  "!" +:+ ordinaryGlob line ∈ GitignoreToGlob.ofString content ∧
  "!" +:+ ordinaryGlob line +:+ "/**" ∈ GitignoreToGlob.ofString content.
Proof.
  intros Hline Hpat Hord Hvis.
  pose proof (swapNegation_ordinary _ Hord) as Hswap.
  split; eapply (ofString_line content line); try done;
    rewrite ?Hswap; try done;
    unfold GitignoreToGlob.withChildren, ordinaryGlob; rewrite anchor_flag; simpl.
  - left.
  - right. left.
Qed.

(** X7: a line of a walked-up ignore file that is a pattern (not empty, no
    comment, not negated, not hidden) keeps what it names out of the
    candidates: no candidate is an entry that the glob of the line, or
    that glob followed by [/**], matches. *)
Theorem ignored_line_excludes (fs : Fs.t) (config : Configuration)
    (root : string) (files : list string) (file content line : string)
    (dirs : list FSLocation) (loc : FSLocation) :
  walkupGitignores fs root = Some files → file ∈ files →
  Fs.readFileSync fs file = inr content →
  line ∈ Js.split "010" content →
  GitignoreToGlob.isPattern line = true →
  Js.startsWith line "!" = false →
  GitignoreToGlob.notHidden ("!", line) = true →
  directoriesSync fs config root = Ok dirs →
  loc ∈ dirs →
  (Path.isAbsolute line = false → ordinaryGlob line = "**/" +:+ line) ∧
  ∃ f, loc = locationOf root f ∧
       Glob.ignores (ordinaryGlob line) f = false ∧
       Glob.ignores (ordinaryGlob line +:+ "/**") f = false.
Proof.
  intros Hfiles Hfile Hread Hline Hpat Hord Hvis Hdirs Hloc.
  destruct (ordinaryGlob_elem_of _ _ Hline Hpat Hord Hvis) as [Hg1 Hg2].
  split.
  { intros Hrel. unfold ordinaryGlob, GitignoreToGlob.anchor. simpl.
    destruct line as [|a line]; [done|]. simpl in Hrel.
    apply bool_decide_eq_false in Hrel.
    destruct (Ascii.ascii_dec a "/") as [->|Hne]; [done|].
    destruct a as [[] [] [] [] [] [] [] []]; try done. }
  destruct (directoriesSync_elem_of _ _ _ _ _ Hdirs Hloc)
    as (ignore & f & Hignore & -> & _ & Hnot).
  exists f. split; [done|].
  split; (eapply isIgnored_false; [exact Hnot|]).
  - rewrite <- (invertGlob_flagged (ordinaryGlob line)).
    eapply ignoreGlobs_applicable; [done|]. left. by exists files, file, content.
  - rewrite <- (invertGlob_flagged (ordinaryGlob line +:+ "/**")).
    eapply ignoreGlobs_applicable; [done|]. left. by exists files, file, content.
Qed.

Lemma ignored_line_excludes_witness :
  ∃ f, locationOf "/w" "src" = locationOf "/w" f ∧
       Glob.ignores (ordinaryGlob "build") f = false ∧
       Glob.ignores (ordinaryGlob "build" +:+ "/**") f = false.
Proof.
  apply (ignored_line_excludes sampleFs sampleConfiguration "/w"
           ["/w/.gitignore"] "/w/.gitignore"
           ("build" +:+ TextDocument.eol +:+ "!keep") "build"
           [locationOf "/w" "src"] (locationOf "/w" "src")).
  - vm_compute. reflexivity.
  - constructor.
  - vm_compute. reflexivity.
  - apply (bool_decide_unpack _). vm_compute. reflexivity.
  - reflexivity.
  - reflexivity.
  - reflexivity.
  - vm_compute. reflexivity.
  - constructor.
Defined.

(** ** [configIgnoredGlobs] *)





Example enabledKeys_overriding :
  enabledKeys overridingConfiguration "/w" = ["node_modules"; "out"] ∧
  effectiveExclude overridingConfiguration "/w" "dist" = Some false.
Proof. split; vm_compute; reflexivity. Qed.



(** ** The pickers *)






(** ** More on the command *)

Lemma storeCache_frame (w : World) namespace cache :
  activeTextEditor (storeCache w namespace cache) = activeTextEditor w ∧
  textDocuments (storeCache w namespace cache) = textDocuments w ∧
  fileSystem (storeCache w namespace cache) = fileSystem w ∧
  messages (storeCache w namespace cache) = messages w.
Proof. done. Qed.

(** X11: with no convenience option configured the first picker cannot be
    filled: for an editor with a selection and an open folder, the command
    ends in an exception, having edited and shown nothing. *)
Theorem command_without_convenience_throws (user : User) (w : World)
    (editor : TextEditor) :
  activeTextEditor w = Some editor →
  selectedText w editor ≠ "" →
  workspaceRoots w ≠ [] →
  convenienceOptionNames (configuration w) = [] →
  ∃ e w',
    command user w = (Throw e, w') ∧
    textDocuments w' = textDocuments w ∧
    fileSystem w' = fileSystem w ∧
    messages w' = messages w ∧
    activeTextEditor w' = activeTextEditor w.
Proof.
  intros Hactive Hsel Hroots Hnames.
  unfold command. rewrite Hactive. fold (selectedText w editor).
  rewrite bool_decide_eq_false_2 by (by rewrite string_length_zero).
  rewrite bool_decide_eq_true_2
    by (destruct (workspaceRoots w); [done|simpl; lia]).
  cbv zeta. fold (cacheNamespace (workspaceRoots w)).
  destruct (recentRootsOrEmpty _) as [recent|e]; [|by eexists _, _].
  unfold dirQuickPickItems.
  destruct (mapOutcome _ _) as [[|first rest]|e].
  - eexists _, _. split; [done|].
    unfold storeCacheIfChanged. by rewrite bool_decide_eq_true_2.
  - unfold convenienceOptions. rewrite Hnames.
    destruct (lastSelection _) as [lastValue cache1]. simpl.
    eexists _, _. split; [done|].
    destruct (storeCacheIfChanged_frame w (cacheNamespace (workspaceRoots w))
                (loadCache w (cacheNamespace (workspaceRoots w))) cache1)
      as (? & ? & ? & ?). repeat split; congruence.
  - eexists _, _. split; [done|].
    unfold storeCacheIfChanged. by rewrite bool_decide_eq_true_2.
Qed.

Lemma command_without_convenience_throws_witness :
  ∃ e w', command sampleUser worldWithoutConvenience = (Throw e, w').
Proof.
  destruct (command_without_convenience_throws sampleUser worldWithoutConvenience
              (mkTextEditor "/w/src/a.ts"
                 (TextDocument.mkRange (TextDocument.mkPosition 0 1)
                    (TextDocument.mkPosition 1 2))))
    as (e & w' & Hcommand & _).
  - reflexivity.
  - vm_compute. discriminate.
  - vm_compute. discriminate.
  - reflexivity.
  - by exists e, w'.
Defined.

(** The command up to the second picker. *)
Lemma command_to_file_picker (user : User) (w : World) (editor : TextEditor)
    (dir : DirectoryOption) (cache2 : Cache.t) :
  activeTextEditor w = Some editor →
  selectedText w editor ≠ "" →
  confirmsDirectory user w dir cache2 →
  ∃ w2,
    command user w
    = match filePick user w dir with
      | None => (Ok (), w2)
      | Some choice =>
          match uri choice with
          | Some fileUri => moveToExistingFile w2 editor (selectedText w editor) fileUri
          | None => moveToNewFile user w2 editor (selectedText w editor) dir
          end
      end ∧
    activeTextEditor w2 = activeTextEditor w ∧
    textDocuments w2 = textDocuments w ∧
    fileSystem w2 = fileSystem w ∧
    messages w2 = messages w ∧
    configuration w2 = configuration w ∧
    loadCache w2 (cacheNamespace (workspaceRoots w)) = cache2.
Proof.
  intros Hactive Hsel
    (recent & items & cache1 & i & dirSelection &
     Hrecent & Hitems & Hpick & Hitem & Hdir & Hcached).
  set (roots := workspaceRoots w) in *.
  set (w1 := storeCacheIfChanged w (cacheNamespace roots)
               (loadCache w (cacheNamespace roots)) cache1).
  destruct (storeCacheIfChanged_frame w (cacheNamespace roots)
              (loadCache w (cacheNamespace roots)) cache1) as (Hed & Hdocs & Hfs & Hmsg).
  fold w1 in Hed, Hdocs, Hfs, Hmsg.
  exists (storeCache w1 (cacheNamespace roots) cache2). split.
  - unfold command. rewrite Hactive. fold (selectedText w editor).
    rewrite bool_decide_eq_false_2 by (by rewrite string_length_zero).
    fold roots.
    assert (roots ≠ []) as Hroots.
    { intros Hnil. unfold dirQuickPickItems in Hitems. rewrite Hnil in Hitems.
      unfold sortRoots, Lodash.sortBy in Hitems. simpl in Hitems. done. }
    rewrite bool_decide_eq_true_2 by (destruct roots; [done|simpl; lia]).
    fold (cacheNamespace roots). cbv zeta. rewrite Hrecent, Hitems, Hpick.
    simpl. rewrite Hitem, Hdir, Hcached. fold w1. rewrite Hfs. done.
  - simpl. rewrite Hed, Hdocs, Hfs, Hmsg. repeat split; try done.
    + unfold w1, storeCacheIfChanged. by case_bool_decide.
    + unfold loadCache. simpl. by rewrite lookup_insert_eq.
Qed.

(** X12: dismissing the second picker ends the command with nothing
    edited, shown or written; but the directory confirmed in the first
    picker is recorded by then: it is the last selection of the cache, and
    so it stays. *)
Theorem command_file_picker_dismissed (user : User) (w : World)
    (editor : TextEditor) (dir : DirectoryOption) (cache2 : Cache.t) :
  activeTextEditor w = Some editor →
  selectedText w editor ≠ "" →
  confirmsDirectory user w dir cache2 →
  filePick user w dir = None →
  ∃ w',
    command user w = (Ok (), w') ∧
    textDocuments w' = textDocuments w ∧
    fileSystem w' = fileSystem w ∧
    messages w' = messages w ∧
    activeTextEditor w' = activeTextEditor w ∧
    loadCache w' (cacheNamespace (workspaceRoots w)) = cache2 ∧
    cache2 !! "last" = Some (VObject dir).
Proof.
  intros Hactive Hsel Hconfirms Hpick.
  destruct (command_to_file_picker _ _ _ _ _ Hactive Hsel Hconfirms)
    as (w2 & Hcommand & Hed & Hdocs & Hfs & Hmsg & _ & Hcache).
  rewrite Hpick in Hcommand. exists w2. repeat split; try done.
  destruct Hconfirms as (recent & items & cache1 & i & dirSelection &
     _ & _ & _ & _ & _ & Hcached).
  unfold cacheSelection, Cache.put, Cache.get in Hcached.
  destruct (rootForDir _ dir) as [root|]; [|done].
  destruct (if truthy _ then _ else _) as [[| | | |l|]|]; try done.
  injection Hcached as <-.
  rewrite lookup_insert_ne by done. by rewrite lookup_insert_eq.
Qed.

Lemma command_file_picker_dismissed_witness :
  ∃ w', command dismissingUser sampleWorld = (Ok (), w') ∧
        textDocuments w' = textDocuments sampleWorld ∧
        loadCache w' "workspace:/w" !! "last" = Some (VObject dirSrc).
Proof.
  destruct (command_file_picker_dismissed dismissingUser sampleWorld
              (mkTextEditor "/w/src/a.ts"
                 (TextDocument.mkRange (TextDocument.mkPosition 0 1)
                    (TextDocument.mkPosition 1 2)))
              dirSrc
              (<["recentRoots" := VStrings ["/w"]]> (<["last" := VObject dirSrc]> ∅)))
    as (w' & Hcommand & Hdocs & _ & _ & _ & Hcache & Hlast).
  - reflexivity.
  - vm_compute. discriminate.
  - unfold confirmsDirectory. do 5 eexists.
    repeat (split; [vm_compute; reflexivity|]). vm_compute. reflexivity.
  - vm_compute. reflexivity.
  - exists w'. split; [exact Hcommand|]. split; [exact Hdocs|].
    change (cacheNamespace (workspaceRoots sampleWorld)) with "workspace:/w" in Hcache.
    rewrite Hcache. exact Hlast.
Defined.

(** X13: dismissing the first picker ends the command with nothing
    edited, shown or written. *)
Theorem command_directory_picker_dismissed (user : User) (w : World)
    (editor : TextEditor) (recent : list string)
    (items : list QuickPickItem) (cache1 : Cache.t) :
  activeTextEditor w = Some editor →
  selectedText w editor ≠ "" →
  recentRootsOrEmpty (loadCache w (cacheNamespace (workspaceRoots w))) = Ok recent →
  dirQuickPickItems w (sortRoots (workspaceRoots w) recent)
    (loadCache w (cacheNamespace (workspaceRoots w))) = (Ok items, cache1) →
  pickDirectory user items = None →
  ∃ w',
    command user w = (Ok (), w') ∧
    textDocuments w' = textDocuments w ∧
    fileSystem w' = fileSystem w ∧
    messages w' = messages w ∧
    activeTextEditor w' = activeTextEditor w.
Proof.
  intros Hactive Hsel Hrecent Hitems Hpick.
  set (roots := workspaceRoots w) in *.
  destruct (storeCacheIfChanged_frame w (cacheNamespace roots)
              (loadCache w (cacheNamespace roots)) cache1) as (Hed & Hdocs & Hfs & Hmsg).
  eexists. split; [|split; [exact Hdocs|split; [exact Hfs|split; [exact Hmsg|exact Hed]]]].
  unfold command. rewrite Hactive. fold (selectedText w editor).
  rewrite bool_decide_eq_false_2 by (by rewrite string_length_zero).
  fold roots.
  assert (roots ≠ []) as Hroots.
  { intros Hnil. unfold dirQuickPickItems in Hitems. rewrite Hnil in Hitems.
    unfold sortRoots, Lodash.sortBy in Hitems. simpl in Hitems. done. }
  rewrite bool_decide_eq_true_2 by (destruct roots; [done|simpl; lia]).
  fold (cacheNamespace roots). cbv zeta. by rewrite Hrecent, Hitems, Hpick.
Qed.

Lemma command_directory_picker_dismissed_witness :
  ∃ w', command leavingUser sampleWorld = (Ok (), w') ∧
        textDocuments w' = textDocuments sampleWorld.
Proof.
  destruct (dirQuickPickItems sampleWorld (sortRoots (workspaceRoots sampleWorld) [])
              (loadCache sampleWorld (cacheNamespace (workspaceRoots sampleWorld))))
    as [[items|e] cache1] eqn:Hitems; [|vm_compute in Hitems; discriminate].
  destruct (command_directory_picker_dismissed leavingUser sampleWorld
              (mkTextEditor "/w/src/a.ts"
                 (TextDocument.mkRange (TextDocument.mkPosition 0 1)
                    (TextDocument.mkPosition 1 2)))
              [] items cache1)
    as (w' & Hcommand & Hdocs & _).
  - reflexivity.
  - vm_compute. discriminate.
  - vm_compute. reflexivity.
  - exact Hitems.
  - reflexivity.
  - exists w'. split; [exact Hcommand|exact Hdocs].
Defined.

(** ** [createFileOrFolder] on folders, and where a file is in the way *)

Lemma lastCharIs_app (c : ascii) (s t : string) :
  t ≠ "" → Js.lastCharIs c (s +:+ t) = Js.lastCharIs c t.
Proof.
  intros Ht. induction s as [|a s IH]; [done|].
  rewrite app_String. simpl. destruct (s +:+ t) eqn:Heq; [|exact IH].
  exfalso. destruct s; [by rewrite app_empty_l in Heq|by rewrite app_String in Heq].
Qed.

Lemma lastCharIs_without (c : ascii) (x : string) :
  includesChar c x = false → Js.lastCharIs c x = false.
Proof.
  induction x as [|a x IH]; [done|]. simpl.
  intros [Ha Hx]%orb_false_iff. destruct x; [done|by apply IH].
Qed.

Lemma lastCharIs_absolutePath (segs : list string) :
  Forall properSegment segs → segs ≠ [] →
  Js.lastCharIs Path.slash (absolutePath segs) = false.
Proof.
  destruct segs as [|x segs _] using rev_ind; [done|].
  intros [_ [(Hx & _ & _ & Hslash) _]%Forall_cons]%Forall_app _.
  unfold absolutePath. destruct (decide (segs = [])) as [->|Hne].
  - simpl Js.join. rewrite lastCharIs_app by done. by apply lastCharIs_without.
  - rewrite join_snoc by done. rewrite <- !string_app_assoc.
    rewrite lastCharIs_app by done. by apply lastCharIs_without.
Qed.

Lemma segmentsOf_trailing (p : string) : segmentsOf (p +:+ "/") = segmentsOf p.
Proof.
  unfold segmentsOf. change "/" with (String Path.slash "").
  rewrite split_app_sep, normalizeSegments_app.
  change (Js.split Path.slash "") with [""]. simpl fold_left.
  rewrite pushSegment_empty. apply rev_involutive.
Qed.

(** A normalized absolute path that ends in a slash is the root, or the
    canonical path of its segments followed by a slash. *)
Lemma normalize_absolute_folder (path : string) :
  Path.isAbsolute path = true →
  isFolderDescriptor (Path.normalize path) = true →
  (Path.normalize path = absolutePath (segmentsOf path) +:+ "/" ∧ segmentsOf path ≠ [])
  ∨ (Path.normalize path = "/" ∧ segmentsOf path = []).
Proof.
  intros Habs. unfold Path.normalize, isFolderDescriptor.
  rewrite bool_decide_eq_false_2 by by apply isAbsolute_nonempty.
  rewrite Habs. simpl negb. unfold Path.normalizeString. fold (segmentsOf path).
  case_bool_decide as Hn.
  - intros _. right. split; [done|].
    apply join_empty_iff; [apply segmentsOf_proper|done].
  - assert (segmentsOf path ≠ []) as Hne by (by intros Hnil; rewrite Hnil in Hn).
    destruct (Js.lastCharIs Path.slash path).
    + intros _. left. split; [|done]. unfold absolutePath.
      by rewrite string_app_assoc.
    + intros Hlast. exfalso.
      change (Js.lastCharIs Path.slash (absolutePath (segmentsOf path)) = true) in Hlast.
      rewrite lastCharIs_absolutePath in Hlast; [done|apply segmentsOf_proper|done].
Qed.

(** What the input box returns below an absolute directory, when it ends
    in a slash. *)
Lemma join_absolute_folder (base input : string) :
  Path.isAbsolute base = true →
  isFolderDescriptor (Path.join [base; input]) = true →
  (Path.join [base; input] = absolutePath (segmentsOf (Path.join [base; input])) +:+ "/" ∧
   segmentsOf (Path.join [base; input]) ≠ [])
  ∨ (Path.join [base; input] = "/" ∧ segmentsOf (Path.join [base; input]) = []).
Proof.
  intros Habs. unfold Path.join.
  pose proof (isAbsolute_nonempty _ Habs) as Hne.
  rewrite filter_cons_True by done.
  set (parts := base :: filter (λ a, a ≠ "") [input]).
  assert (Path.isAbsolute (Js.join "/" parts) = true) as Hjoin.
  { unfold parts. rewrite filter_cons. case_decide; [|by rewrite filter_nil].
    rewrite filter_nil, join_cons by done. destruct base; [done|].
    by rewrite app_String. }
  intros Hfolder.
  destruct (normalize_absolute_folder _ Hjoin Hfolder) as [[Hnorm Hsegs]|[Hnorm Hsegs]].
  - left. rewrite Hnorm, segmentsOf_trailing, segmentsOf_absolutePath
      by apply segmentsOf_proper. done.
  - right. by rewrite Hnorm.
Qed.

(** [mkdirp] resolves its argument first. *)
Lemma sync_absolute (fs : Fs.t) (p : string) :
  Path.isAbsolute (Fs.cwd fs) = true → Path.isAbsolute p = true →
  Mkdirp.sync fs p = Mkdirp.sync fs (absolutePath (segmentsOf p)).
Proof.
  intros Hcwd Hp.
  assert (Path.resolve (Fs.cwd fs) [p] = absolutePath (segmentsOf p)) as Hres.
  { rewrite resolve_single by done. unfold fullPath.
    rewrite bool_decide_eq_false_2 by (by apply isAbsolute_nonempty). by rewrite Hp. }
  pose proof (resolve_single_canonical (Fs.cwd fs) (segmentsOf p) Hcwd
                (segmentsOf_proper p)) as Hcanon.
  unfold Mkdirp.sync. rewrite Hres, Hcanon.
  replace (String.length (absolutePath (segmentsOf p)) + 2)
    with (S (String.length (absolutePath (segmentsOf p)) + 1)) by lia.
  cbn [Mkdirp.syncFuel]. by rewrite Hres, Hcanon.
Qed.

Lemma noFileUpTo_along (m : gmap (list string) Fs.Node) (segs : list string) :
  noFileUpTo m segs → noFileAlong m segs.
Proof.
  unfold noFileUpTo. rewrite Forall_forall. intros Hfiles k c Hk Hentry.
  specialize (Hfiles k). rewrite Hentry in Hfiles.
  assert (true = false); [|done]. apply Hfiles. apply elem_of_seq. lia.
Qed.

Lemma existsSync_root (fs : Fs.t) : Fs.wf fs → Fs.existsSync fs "/" = true.
Proof.
  intros [Hroot _]. unfold Fs.existsSync.
  change "/" with (absolutePath []).
  rewrite (statSync_absolutePath fs []) by done. simpl. by rewrite Hroot.
Qed.

(** The walk for a canonical path followed by a slash. *)
Lemma locate_folder (fs : Fs.t) (segs : list string) :
  Forall properSegment segs → segs ≠ [] → Fs.nodes fs !! [] = Some Fs.Dir →
  Fs.locate fs (absolutePath segs +:+ "/")
  = match Fs.walk (Fs.nodes fs) [] segs with
    | inl e => inl e
    | inr cur => Fs.walk (Fs.nodes fs) cur [""]
    end.
Proof.
  intros Hsegs Hne Hroot. unfold Fs.locate, Fs.components.
  rewrite bool_decide_eq_false_2 by done.
  change (Path.isAbsolute (absolutePath segs +:+ "/")) with true. cbv iota.
  change (absolutePath segs +:+ "/")
    with (absolutePath segs +:+ String Path.slash "").
  rewrite split_app_sep, split_absolutePath by done.
  change (Js.split Path.slash "") with [""].
  change (("" :: segs) ++ [""]) with ("" :: (segs ++ [""])).
  by rewrite walk_root_empty, walk_app.
Qed.

(** X14: a typed path that ends in a slash (below an absolute directory),
    that does not exist yet and on which no regular file stands, is made
    as a directory, with every missing directory above it: afterwards the
    path exists, nothing that existed is changed and no file is made. *)
Theorem createFileOrFolder_creates_folder (user : User) (fs : Fs.t)
    (baseDirectory : DirectoryOption) (newFileInput : string) :
  showInputBox user baseDirectory = Some newFileInput →
  Path.isAbsolute (absolute (fsLocation baseDirectory)) = true →
  Path.isAbsolute (Fs.cwd fs) = true →
  isFolderDescriptor newFileInput = true →
  Fs.wf fs →
  Fs.existsSync fs newFileInput = false →
  noFileUpTo (Fs.nodes fs) (segmentsOf newFileInput) →
  ∃ fs',
    createFileOrFolder fs newFileInput = Ok fs' ∧
    dirsAlong (Fs.nodes fs') (segmentsOf newFileInput) ∧
    Fs.existsSync fs' newFileInput = true ∧
    (∀ q n, Fs.nodes fs !! q = Some n → Fs.nodes fs' !! q = Some n) ∧
    (∀ q c, Fs.nodes fs' !! q = Some (Fs.File c) → Fs.nodes fs !! q = Some (Fs.File c)).
Proof.
  unfold showInputBox. destruct (typePath user _) as [input|]; [|done].
  intros [= <-] Hbase Hcwd Hfolder Hwf Hexists Hfiles.
  destruct (join_absolute_folder _ input Hbase Hfolder) as [[Hp Hne]|[Hp _]];
    [|by rewrite Hp, existsSync_root in Hexists].
  set (p := Path.join [absolute (fsLocation baseDirectory); input]) in *.
  set (segs := segmentsOf p) in *.
  pose proof (segmentsOf_proper p) as Hproper. fold segs in Hproper.
  pose proof (proj1 Hwf) as Hroot.
  pose proof (noFileUpTo_along _ _ Hfiles) as Halong.
  assert (Path.isAbsolute p = true) as Habs by (by rewrite Hp).
  destruct (sync_creates fs segs Hproper Hcwd Hroot Halong)
    as (fs' & Hsync & Hcwd' & Hdirs & Hframe).
  exists fs'. split; [|split; [done|split; [|split]]].
  - unfold createFileOrFolder. rewrite Hexists, Hfolder. simpl.
    rewrite sync_absolute by done. fold segs. by rewrite Hsync.
  - unfold Fs.existsSync, Fs.statSync. rewrite Hp.
    rewrite locate_folder by (done || by eapply dirsAlong_root).
    destruct (dirsAlong_walk _ _ Hproper Hdirs) as [-> Hlast].
    simpl. by rewrite !Hlast.
  - intros q n Hq.
    destruct (decide (q `prefix_of` segs)) as [[rest Hrest]|Hnot].
    + assert (length q ≤ length segs) as Hk by (rewrite Hrest, length_app; lia).
      assert (q = take (length q) segs) as Hprefix
        by (by rewrite Hrest, take_app_length).
      rewrite Hprefix, (Hdirs _ Hk). destruct n as [c|]; [|done].
      destruct (Halong (length q) c Hk). by rewrite <- Hprefix.
    + rewrite Hframe; [done|]. intros k ->. apply Hnot.
      exists (drop k segs). by rewrite take_drop.
  - intros q c Hq. rewrite <- Hframe; [done|]. intros k ->.
    destruct (decide (k ≤ length segs)) as [Hk|Hk].
    + by rewrite (Hdirs k Hk) in Hq.
    + rewrite take_ge in Hq by lia.
      rewrite <- (firstn_all segs), (Hdirs (length segs)) in Hq by done. done.
Qed.

Lemma createFileOrFolder_creates_folder_witness :
  ∃ fs',
    createFileOrFolder sampleFs "/w/src/x/y/" = Ok fs' ∧
    Fs.nodes fs' !! ["w"; "src"; "x"] = Some Fs.Dir ∧
    Fs.nodes fs' !! ["w"; "src"; "x"; "y"] = Some Fs.Dir.
Proof.
  destruct (createFileOrFolder_creates_folder folderUser sampleFs dirSrc "/w/src/x/y/")
    as (fs' & Hcreate & Hdirs & _).
  - vm_compute. reflexivity.
  - reflexivity.
  - reflexivity.
  - vm_compute. reflexivity.
  - apply (bool_decide_unpack _). vm_compute. reflexivity.
  - vm_compute. reflexivity.
  - apply (bool_decide_unpack _). vm_compute. reflexivity.
  - exists fs'. split; [exact Hcreate|]. split.
    + apply (Hdirs 3). vm_compute. lia.
    + apply (Hdirs 4). vm_compute. lia.
Defined.

(** A walk stops at a regular file. *)
Lemma walk_blocked (m : gmap (list string) Fs.Node) (segs : list string)
    (k : nat) (c : string) :
  Forall properSegment segs → k < length segs →
  m !! take k segs = Some (Fs.File c) →
  (∀ j, j < k → m !! take j segs = Some Fs.Dir) →
  Fs.walk m [] segs = inl Fs.ENOTDIR.
Proof.
  intros Hsegs Hk Hfile Hdirs.
  rewrite <- (take_drop k segs) at 1. rewrite walk_app.
  rewrite (walk_dirs m [] (take k segs)).
  - simpl app. destruct (drop k segs) as [|y rest] eqn:Hdrop.
    + apply (f_equal length) in Hdrop. rewrite length_drop in Hdrop. simpl in Hdrop. lia.
    + assert (properSegment y) as Hy.
      { assert (Forall properSegment (drop k segs)) as Hall by by apply Forall_drop.
        rewrite Hdrop in Hall. by apply Forall_cons in Hall as [? _]. }
      rewrite walk_proper_cons by done. by rewrite Hfile.
  - by apply Forall_take.
  - intros j Hj. rewrite length_take in Hj. simpl.
    rewrite take_take. replace (j `min` k) with j by lia. apply Hdirs. lia.
Qed.

Lemma ofErrno_inl {A} (e : Fs.Errno) : ∃ s, ofErrno (A := A) (inl e) = Throw s.
Proof. destruct e; by eexists. Qed.

(** [mkdirp] fails on a path on which a regular file stands. *)
Lemma sync_blocked (fs : Fs.t) (segs : list string) (k : nat) (c : string) :
  Forall properSegment segs →
  Path.isAbsolute (Fs.cwd fs) = true →
  Fs.wf fs →
  k ≤ length segs →
  Fs.nodes fs !! take k segs = Some (Fs.File c) →
  ∃ e, Mkdirp.sync fs (absolutePath segs) = inl e.
Proof.
  intros Hproper Hcwd Hwf Hk Hfile.
  pose proof (proj1 Hwf) as Hroot.
  assert (∀ j, j < k → Fs.nodes fs !! take j segs = Some Fs.Dir) as Habove.
  { intros j Hj.
    pose proof (wf_dirs_above fs _ _ Hwf Hfile j) as Hdir.
    rewrite length_take, take_take in Hdir.
    replace (j `min` k) with j in Hdir by lia. apply Hdir. lia. }
  destruct segs as [|y s _] using rev_ind.
  { rewrite take_nil in Hfile. by rewrite Hroot in Hfile. }
  pose proof Hproper as [Hs [Hy _]%Forall_cons]%Forall_app.
  unfold Mkdirp.sync. rewrite Nat.add_comm. change (2 + ?n) with (S (S n)).
  rewrite syncFuel_canonical, mkdirSync_absolutePath, statSync_absolutePath by done.
  rewrite length_app in Hk. simpl in Hk.
  destruct (decide (k ≤ length s)) as [Hle|Hgt].
  - rewrite (walk_blocked _ (s ++ [y]) k c); [|done|rewrite length_app; simpl; lia|done|done].
    rewrite take_app_le in Hfile by done.
    destruct (decide (k < length s)) as [Hlt|Hge].
    + rewrite (walk_blocked _ s k c); [by eexists|done|done|done|].
      intros j Hj. rewrite <- (take_app_le s [y]) by lia. by apply Habove.
    + assert (k = length s) as -> by lia. rewrite firstn_all in Hfile.
      rewrite (walk_dirs _ [] s); [|done|].
      * simpl app. rewrite Hfile. by eexists.
      * intros j Hj. simpl. rewrite <- (take_app_le s [y]) by lia. by apply Habove.
  - assert (k = length (s ++ [y])) as -> by (rewrite length_app; simpl; lia).
    rewrite firstn_all in Hfile.
    assert (dirsAlong (Fs.nodes fs) s) as Hdirs.
    { intros j Hj. rewrite <- (take_app_le s [y]) by lia. apply Habove.
      rewrite length_app. simpl. lia. }
    destruct (dirsAlong_walk _ _ Hs Hdirs) as [Hwalk Hparent].
    rewrite Hwalk, Hparent, Hfile.
    rewrite walk_app, Hwalk, walk_proper_cons, Hparent by done. simpl.
    rewrite Hfile. simpl. by eexists.
Qed.

(** X15: where a regular file stands above the typed path,
    [createFileOrFolder] ends in an exception, for a file and for a folder
    alike; the command's branch for a new file ends in it with the state as
    it was, the selection still in its document. *)
Theorem createFileOrFolder_blocked (user : User) (w : World) (editor : TextEditor)
    (selectionText : string) (dir : DirectoryOption) (newFileInput : string) :
  showInputBox user dir = Some newFileInput →
  Path.isAbsolute (absolute (fsLocation dir)) = true →
  Path.isAbsolute (Fs.cwd (fileSystem w)) = true →
  Fs.wf (fileSystem w) →
  fileAbove (Fs.nodes (fileSystem w)) (segmentsOf newFileInput) →
  ∃ e,
    createFileOrFolder (fileSystem w) newFileInput = Throw e ∧
    moveToNewFile user w editor selectionText dir = (Throw e, w).
Proof.
  intros Hinput Hbase Hcwd Hwf Hblocked.
  assert (∃ e, createFileOrFolder (fileSystem w) newFileInput = Throw e ∧
               newFileInput ≠ "") as (e & Hcreate & Hne).
  { revert Hinput. unfold showInputBox.
    destruct (typePath user _) as [input|]; [|done]. intros [= <-].
    set (fs := fileSystem w) in *.
    pose proof (proj1 Hwf) as Hroot.
    apply Exists_exists in Hblocked as (k & Hk%elem_of_seq & Hfile).
    destruct (Fs.nodes fs !! take k _) as [[c|]|] eqn:Hentry; [clear Hfile|done..].
    assert (∀ j, j < k → Fs.nodes fs !! take j
              (segmentsOf (Path.join [absolute (fsLocation dir); input]))
              = Some Fs.Dir) as Habove.
    { intros j Hj.
      pose proof (wf_dirs_above fs _ _ Hwf Hentry j) as Hdir.
      rewrite length_take, take_take in Hdir.
      replace (j `min` k) with j in Hdir by lia. apply Hdir. lia. }
    destruct (isFolderDescriptor (Path.join [absolute (fsLocation dir); input]))
      eqn:Hfolder.
    - destruct (join_absolute_folder _ input Hbase Hfolder) as [[Hp Hsegs]|[_ Hnil]];
        [|rewrite Hnil in Hk; simpl in Hk; lia].
      set (p := Path.join [absolute (fsLocation dir); input]) in *.
      set (segs := segmentsOf p) in *.
      pose proof (segmentsOf_proper p) as Hproper. fold segs in Hproper.
      assert (Path.isAbsolute p = true) as Habs by (by rewrite Hp).
      destruct (sync_blocked fs segs k c) as [err Hsync]; [done|done|done|lia|done|].
      destruct (ofErrno_inl (A := Fs.t) err) as [s Hs].
      exists s. split; [|by apply isAbsolute_nonempty].
      unfold createFileOrFolder.
      replace (Fs.existsSync fs p) with false.
      + rewrite Hfolder. simpl. rewrite sync_absolute by done. fold segs.
        by rewrite Hsync.
      + unfold Fs.existsSync, Fs.statSync. rewrite Hp.
        rewrite locate_folder by done.
        rewrite (walk_blocked _ segs k c); [done|done|lia|done|done].
    - destruct (join_absolute _ input Hbase Hfolder) as (segs & x & Hp & Hproper & _).
      rewrite Hp in *. rewrite segmentsOf_absolutePath in * by done.
      pose proof Hproper as [Hsegs _]%Forall_app.
      rewrite length_app in Hk. simpl in Hk.
      destruct (sync_blocked fs segs k c) as [err Hsync]; [done|done|done|lia| |].
      { rewrite <- (take_app_le segs [x]) by lia. done. }
      destruct (ofErrno_inl (A := Fs.t) err) as [s Hs].
      exists s. split; [|done].
      unfold createFileOrFolder.
      replace (Fs.existsSync fs (absolutePath (segs ++ [x]))) with false.
      + rewrite Hfolder. simpl. rewrite dirname_absolutePath by done.
        by rewrite Hsync, Hs.
      + unfold Fs.existsSync. rewrite statSync_absolutePath by done.
        rewrite (walk_blocked _ (segs ++ [x]) k c);
          [done|done|rewrite length_app; simpl; lia|done|done]. }
  exists e. split; [done|].
  unfold moveToNewFile. rewrite Hinput.
  rewrite bool_decide_eq_false_2 by done. by rewrite Hcreate.
Qed.

Lemma createFileOrFolder_blocked_witness :
  ∃ e, createFileOrFolder sampleFs "/w/src/a.ts/new.ts" = Throw e ∧
       moveToNewFile blockedUser sampleWorld
         (mkTextEditor "/w/src/a.ts" emptySelection) "ello" dirSrc
       = (Throw e, sampleWorld).
Proof.
  apply (createFileOrFolder_blocked blockedUser sampleWorld
           (mkTextEditor "/w/src/a.ts" emptySelection) "ello" dirSrc
           "/w/src/a.ts/new.ts").
  - vm_compute. reflexivity.
  - reflexivity.
  - reflexivity.
  - apply (bool_decide_unpack _). vm_compute. reflexivity.
  - apply (bool_decide_unpack _). vm_compute. reflexivity.
Defined.

(** ** The branch for a new file *)

Lemma insert_origin (text value : string) :
  TextDocument.insert text (TextDocument.mkPosition 0 0) value = value +:+ text.
Proof.
  unfold TextDocument.insert, TextDocument.offsetAt, TextDocument.lines. simpl.
  pose proof (split_nonempty TextDocument.newline text) as Hne.
  destruct (Js.split TextDocument.newline text) as [|l [|l' ls]]; done.
Qed.

Lemma dirsAlong_insert (m : gmap (list string) Fs.Node) (segs : list string)
    (x : string) (n : Fs.Node) :
  dirsAlong m segs → dirsAlong (<[segs ++ [x] := n]> m) segs.
Proof.
  intros Hdirs k Hk.
  rewrite lookup_insert_ne by (intros Heq; by apply not_prefix_snoc in Heq).
  by apply Hdirs.
Qed.

(** Reading and overwriting a file that is there. *)
Lemma readFileSync_file (fs : Fs.t) (segs : list string) (x c : string) :
  Forall properSegment (segs ++ [x]) →
  dirsAlong (Fs.nodes fs) segs →
  Fs.nodes fs !! (segs ++ [x]) = Some (Fs.File c) →
  Fs.readFileSync fs (absolutePath (segs ++ [x])) = inr c.
Proof.
  intros Hproper Hdirs Hfile.
  unfold Fs.readFileSync.
  rewrite statSync_absolutePath by (done || by eapply dirsAlong_root).
  rewrite (walk_dirs _ [] (segs ++ [x])); [simpl; by rewrite Hfile|done|].
  intros k Hk. rewrite length_app in Hk. simpl in *.
  rewrite take_app_le by lia. apply Hdirs. lia.
Qed.

Lemma writeFileSync_file (fs : Fs.t) (segs : list string) (x c data : string) :
  Forall properSegment (segs ++ [x]) →
  dirsAlong (Fs.nodes fs) segs →
  Fs.nodes fs !! (segs ++ [x]) = Some (Fs.File c) →
  Fs.writeFileSync fs (absolutePath (segs ++ [x])) data
  = inr (Fs.withNodes fs (<[segs ++ [x] := Fs.File data]> (Fs.nodes fs))).
Proof.
  intros Hproper Hdirs Hfile.
  pose proof Hproper as [Hsegs [Hx _]%Forall_cons]%Forall_app.
  destruct (dirsAlong_walk _ _ Hsegs Hdirs) as [Hwalk Hparent].
  unfold Fs.writeFileSync, Fs.openWrite.
  rewrite bool_decide_eq_false_2 by apply absolutePath_nonempty.
  rewrite lastCharIs_absolutePath by (done || by destruct segs).
  rewrite parentAndName_absolutePath by (done || by eapply dirsAlong_root).
  rewrite Hwalk, Hparent.
  rewrite bool_decide_eq_false_2 by by apply properSegment_not_dots.
  by rewrite Hfile.
Qed.

(** A new file on a canonical path: the directories first, then the empty
    file. *)
Lemma createFileOrFolder_new (fs : Fs.t) (segs : list string) (x : string) :
  Forall properSegment (segs ++ [x]) →
  Path.isAbsolute (Fs.cwd fs) = true →
  Fs.wf fs →
  Fs.existsSync fs (absolutePath (segs ++ [x])) = false →
  noFileAlong (Fs.nodes fs) segs →
  ∃ fs1,
    createFileOrFolder fs (absolutePath (segs ++ [x]))
    = Ok (Fs.withNodes fs1 (<[segs ++ [x] := Fs.File ""]> (Fs.nodes fs1))) ∧
    dirsAlong (Fs.nodes fs1) segs.
Proof.
  intros Hproper Hcwd Hwf Hexists Halong.
  pose proof Hproper as [Hsegs _]%Forall_app.
  pose proof (existsSync_false_absent _ _ Hwf Hproper Hexists) as Hentry.
  assert (isFolderDescriptor (absolutePath (segs ++ [x])) = false) as Hfile
    by (apply lastCharIs_absolutePath; [done|by destruct segs]).
  destruct (sync_creates fs segs Hsegs Hcwd (proj1 Hwf) Halong)
    as (fs1 & Hsync & _ & Hdirs1 & Hframe1).
  assert (Fs.nodes fs1 !! (segs ++ [x]) = None) as Hentry1.
  { rewrite Hframe1 by (intros k; apply not_prefix_snoc). done. }
  exists fs1. split; [|done].
  unfold createFileOrFolder. rewrite Hexists, Hfile. simpl.
  rewrite dirname_absolutePath by done. rewrite Hsync. simpl.
  by rewrite (appendFileSync_creates fs1 segs x "" Hproper Hfile Hdirs1 Hentry1).
Qed.

Lemma showTextDocument_frame (w : World) (doc : string) :
  (∃ selection0,
     activeTextEditor (showTextDocument w doc) = Some (mkTextEditor doc selection0)) ∧
  textDocuments (showTextDocument w doc) = textDocuments w ∧
  fileSystem (showTextDocument w doc) = fileSystem w ∧
  messages (showTextDocument w doc) = messages w.
Proof.
  unfold showTextDocument.
  destruct (activeTextEditor w) as [[doc0 selection0]|] eqn:Heditor;
    [case_bool_decide|]; simpl in *; subst; eauto.
Qed.

(** The branch for a new file, for a typed path that is created as a
    file: the selection leaves the source and is the text of the new
    document, which is saved. *)
Lemma moveToNewFile_moves (user : User) (w : World) (editor : TextEditor)
    (selectionText : string) (dir : DirectoryOption) (newFileInput : string) :
  showInputBox user dir = Some newFileInput →
  Path.isAbsolute (absolute (fsLocation dir)) = true →
  Path.isAbsolute (Fs.cwd (fileSystem w)) = true →
  isFolderDescriptor newFileInput = false →
  Fs.wf (fileSystem w) →
  Fs.existsSync (fileSystem w) newFileInput = false →
  noFileAbove (Fs.nodes (fileSystem w)) (segmentsOf newFileInput) →
  is_Some (textDocuments w !! document editor) →
  textDocuments w !! newFileInput = None →
  ∃ w',
    moveToNewFile user w editor selectionText dir = (Ok (), w') ∧
    documentText w' newFileInput = selectionText ∧
    documentText w' (document editor)
    = TextDocument.delete (documentText w (document editor)) (selection editor) ∧
    Fs.readFileSync (fileSystem w') newFileInput = inr selectionText ∧
    activeTextEditor w' = Some (mkTextEditor newFileInput emptySelection) ∧
    messages w' = messages w.
Proof.
  intros Hinput Hbase Hcwd Hfile Hwf Hexists Hfiles [source Hsource] Hclosed.
  assert (∃ segs x, newFileInput = absolutePath (segs ++ [x]) ∧
                    Forall properSegment (segs ++ [x])) as (segs & x & -> & Hproper).
  { revert Hinput Hfile. unfold showInputBox.
    destruct (typePath user _) as [input|]; [|done]. intros [= <-] Hfile.
    destruct (join_absolute _ input Hbase Hfile) as (segs & x & Hjoin & Hproper & _).
    by exists segs, x. }
  rewrite segmentsOf_absolutePath in Hfiles by done.
  set (p := absolutePath (segs ++ [x])) in *.
  assert (p ≠ document editor) as Hne by (intros Heq; by rewrite Heq, Hsource in Hclosed).
  destruct (createFileOrFolder_new _ segs x Hproper Hcwd Hwf Hexists
              (noFileAbove_along _ _ _ Hfiles)) as (fs1 & Hcreate & Hdirs1).
  set (fs' := Fs.withNodes fs1 (<[segs ++ [x] := Fs.File ""]> (Fs.nodes fs1))) in *.
  assert (dirsAlong (Fs.nodes fs') segs) as Hdirs' by by apply dirsAlong_insert.
  assert (Fs.nodes fs' !! (segs ++ [x]) = Some (Fs.File "")) as Hentry'
    by apply lookup_insert_eq.
  pose proof (readFileSync_file fs' segs x "" Hproper Hdirs' Hentry') as Hread.
  pose proof (writeFileSync_file fs' segs x "" selectionText Hproper Hdirs' Hentry')
    as Hwrite.
  set (fs'' := Fs.withNodes fs' (<[segs ++ [x] := Fs.File selectionText]> (Fs.nodes fs')))
    in *.
  assert (Fs.readFileSync fs'' p = inr selectionText) as Hread''.
  { apply readFileSync_file; [done|by apply dirsAlong_insert|apply lookup_insert_eq]. }
  fold p in Hread, Hwrite, Hcreate.
  unfold moveToNewFile. rewrite Hinput.
  rewrite bool_decide_eq_false_2 by apply absolutePath_nonempty.
  rewrite Hcreate. cbv zeta. unfold openFile. rewrite Hfile.
  unfold openTextDocument, edit. simpl textDocuments. simpl fileSystem.
  rewrite lookup_alter_ne by done. rewrite Hclosed, Hread.
  set (w3 := showTextDocument _ p).
  destruct (showTextDocument_frame
              (setTextDocuments
                 (setTextDocuments (setFileSystem w fs')
                    (alter (λ text, TextDocument.delete text (selection editor))
                       (document editor) (textDocuments w)))
                 (<[p := ""]> (alter (λ text, TextDocument.delete text (selection editor))
                                 (document editor) (textDocuments w)))) p)
    as ([selection0 Hed3] & Hdocs3 & Hfs3 & Hmsg3).
  fold w3 in Hed3, Hdocs3, Hfs3, Hmsg3. simpl in Hdocs3, Hfs3, Hmsg3.
  rewrite Hed3. simpl document.
  eexists. split; [reflexivity|].
  unfold save, documentText. simpl.
  rewrite Hdocs3, Hfs3, !lookup_alter_eq, !lookup_insert_eq. simpl.
  rewrite insert_origin, string_app_empty_r, Hwrite. simpl.
  rewrite Hmsg3, lookup_alter_eq, lookup_insert_eq. simpl.
  rewrite lookup_alter_ne, lookup_insert_ne, lookup_alter_eq, Hsource by done.
  simpl. by rewrite insert_origin, string_app_empty_r.
Qed.

(** X16: when the user asks for a new file and types a path (below an
    absolute directory, not ending in a slash) that does not exist yet,
    is not open and has no regular file above it, the command ends with
    the selected text gone from the source document and being the whole
    text of the new document, which is on disk with that text and is shown
    in the active editor, its selection at the origin. *)
Theorem command_new_file_moves (user : User) (w : World) (editor : TextEditor)
    (dir : DirectoryOption) (cache2 : Cache.t) (choice : QuickPickItem)
    (newFileInput : string) :
  activeTextEditor w = Some editor →
  selectedText w editor ≠ "" →
  confirmsDirectory user w dir cache2 →
  filePick user w dir = Some choice →
  uri choice = None →
  showInputBox user dir = Some newFileInput →
  Path.isAbsolute (absolute (fsLocation dir)) = true →
  Path.isAbsolute (Fs.cwd (fileSystem w)) = true →
  isFolderDescriptor newFileInput = false →
  Fs.wf (fileSystem w) →
  Fs.existsSync (fileSystem w) newFileInput = false →
  noFileAbove (Fs.nodes (fileSystem w)) (segmentsOf newFileInput) →
  textDocuments w !! newFileInput = None →
  ∃ w',
    command user w = (Ok (), w') ∧
    documentText w' newFileInput = selectedText w editor ∧
    documentText w' (document editor)
    = TextDocument.delete (documentText w (document editor)) (selection editor) ∧
    Fs.readFileSync (fileSystem w') newFileInput = inr (selectedText w editor) ∧
    activeTextEditor w' = Some (mkTextEditor newFileInput emptySelection) ∧
    messages w' = messages w.
Proof.
  intros Hactive Hsel Hconfirms Hpick Huri Hinput Hbase Hcwd Hfile Hwf Hexists
    Hfiles Hclosed.
  destruct (command_to_file_picker _ _ _ _ _ Hactive Hsel Hconfirms)
    as (w2 & Hcommand & Hed & Hdocs & Hfs & Hmsg & _ & _).
  rewrite Hpick, Huri in Hcommand.
  destruct (moveToNewFile_moves user w2 editor (selectedText w editor) dir newFileInput)
    as (w' & Hmove & Htarget & Hsource & Hdisk & Heditor & Hmessages);
    rewrite ?Hfs, ?Hdocs; try done.
  { by apply selectedText_nonempty_open. }
  exists w'. split; [by rewrite Hcommand|].
  split; [done|]. split; [|split; [done|split; [done|congruence]]].
  rewrite Hsource. unfold documentText. by rewrite Hdocs.
Qed.

Lemma command_new_file_moves_witness :
  ∃ w',
    command typingUser sampleWorld = (Ok (), w') ∧
    documentText w' "/w/src/x/y/new.ts" = "ello" +:+ TextDocument.eol +:+ "wo" ∧
    documentText w' "/w/src/a.ts" = "hrld" ∧
    Fs.readFileSync (fileSystem w') "/w/src/x/y/new.ts"
    = inr ("ello" +:+ TextDocument.eol +:+ "wo").
Proof.
  destruct (command_new_file_moves typingUser sampleWorld
              (mkTextEditor "/w/src/a.ts"
                 (TextDocument.mkRange (TextDocument.mkPosition 0 1)
                    (TextDocument.mkPosition 1 2)))
              dirSrc
              (<["recentRoots" := VStrings ["/w"]]> (<["last" := VObject dirSrc]> ∅))
              (mkQuickPickItem "Create new file" None None None)
              "/w/src/x/y/new.ts")
    as (w' & Hcommand & Htarget & Hsource & Hdisk & _).
  - reflexivity.
  - vm_compute. discriminate.
  - unfold confirmsDirectory. do 5 eexists.
    repeat (split; [vm_compute; reflexivity|]). vm_compute. reflexivity.
  - vm_compute. reflexivity.
  - reflexivity.
  - vm_compute. reflexivity.
  - reflexivity.
  - reflexivity.
  - vm_compute. reflexivity.
  - apply (bool_decide_unpack _). vm_compute. reflexivity.
  - vm_compute. reflexivity.
  - apply (bool_decide_unpack _). vm_compute. reflexivity.
  - vm_compute. reflexivity.
  - exists w'. split; [exact Hcommand|]. split; [|split].
    + rewrite Htarget. vm_compute. reflexivity.
    + etrans; [exact Hsource|]. vm_compute. reflexivity.
    + rewrite Hdisk. vm_compute. reflexivity.
Defined.

(** X17: when the typed path ends in a slash and is created, no document
    is opened for it: the command reports the folder in an information
    message (when these are switched on), the editor of the source stays
    the active one, its selection moved to the origin, and no other
    document is touched. *)
Theorem command_new_folder_reports (user : User) (w : World) (editor : TextEditor)
    (dir : DirectoryOption) (cache2 : Cache.t) (choice : QuickPickItem)
    (newFileInput : string) (fs' : Fs.t) :
  activeTextEditor w = Some editor →
  selectedText w editor ≠ "" →
  confirmsDirectory user w dir cache2 →
  filePick user w dir = Some choice →
  uri choice = None →
  showInputBox user dir = Some newFileInput →
  isFolderDescriptor newFileInput = true →
  createFileOrFolder (fileSystem w) newFileInput = Ok fs' →
  ∃ w',
    command user w = (Ok (), w') ∧
    messages w'
    = messages w ++
      (if showInformationMessages (configuration w)
       then [InformationMessage ("Folder created: " +:+ newFileInput)] else []) ∧
    activeTextEditor w' = Some (mkTextEditor (document editor) emptySelection) ∧
    ∀ doc, doc ≠ document editor → textDocuments w' !! doc = textDocuments w !! doc.
Proof.
  intros Hactive Hsel Hconfirms Hpick Huri Hinput Hfolder Hcreate.
  destruct (command_to_file_picker _ _ _ _ _ Hactive Hsel Hconfirms)
    as (w2 & Hcommand & Hed & Hdocs & Hfs & Hmsg & Hconfig & _).
  rewrite Hpick, Huri in Hcommand. rewrite Hcommand.
  unfold moveToNewFile. rewrite Hinput.
  rewrite bool_decide_eq_false_2 by (intros ->; done).
  rewrite Hfs, Hcreate. cbv zeta. unfold openFile. rewrite Hfolder.
  simpl configuration. rewrite Hconfig.
  destruct (showInformationMessages (configuration w)); simpl;
    rewrite Hed, Hactive; (eexists; split; [reflexivity|]);
    unfold save; simpl; repeat case_match; simpl;
    rewrite ?Hmsg, ?app_nil_r; (split; [done|]); (split; [done|]);
    intros doc Hdoc; by rewrite !lookup_alter_ne, Hdocs by done.
Qed.

Lemma command_new_folder_reports_witness :
  ∃ w',
    command folderUser sampleWorld = (Ok (), w') ∧
    messages w' = [InformationMessage "Folder created: /w/src/x/y/"] ∧
    activeTextEditor w' = Some (mkTextEditor "/w/src/a.ts" emptySelection).
Proof.
  destruct (createFileOrFolder sampleFs "/w/src/x/y/") as [fs'|e] eqn:Hcreate;
    [|vm_compute in Hcreate; discriminate].
  destruct (command_new_folder_reports folderUser sampleWorld
              (mkTextEditor "/w/src/a.ts"
                 (TextDocument.mkRange (TextDocument.mkPosition 0 1)
                    (TextDocument.mkPosition 1 2)))
              dirSrc
              (<["recentRoots" := VStrings ["/w"]]> (<["last" := VObject dirSrc]> ∅))
              (mkQuickPickItem "Create new file" None None None)
              "/w/src/x/y/" fs')
    as (w' & Hcommand & Hmessages & Heditor & _).
  - reflexivity.
  - vm_compute. discriminate.
  - unfold confirmsDirectory. do 5 eexists.
    repeat (split; [vm_compute; reflexivity|]). vm_compute. reflexivity.
  - vm_compute. reflexivity.
  - reflexivity.
  - vm_compute. reflexivity.
  - vm_compute. reflexivity.
  - exact Hcreate.
  - exists w'. split; [exact Hcommand|]. split; [exact Hmessages|exact Heditor].
Defined.

(** ** The candidates lie below their root *)

Lemma prefix_app (p s : string) : String.prefix p (p +:+ s) = true.
Proof.
  induction p as [|a p IH]; [by destruct s|].
  rewrite app_String. simpl. by destruct (Ascii.ascii_dec a a).
Qed.

Lemma startsWith_refl (s : string) : Js.startsWith s s = true.
Proof.
  unfold Js.startsWith. rewrite <- (string_app_empty_r s) at 2. apply prefix_app.
Qed.

Lemma join_app (sep : string) (l1 l2 : list string) :
  l1 ≠ [] → l2 ≠ [] →
  Js.join sep (l1 ++ l2) = Js.join sep l1 +:+ sep +:+ Js.join sep l2.
Proof.
  intros Hl1 Hl2. induction l1 as [|x l1 IH]; [done|].
  destruct l1 as [|y l1].
  - simpl app. by rewrite join_cons.
  - change ((x :: y :: l1) ++ l2) with (x :: ((y :: l1) ++ l2)).
    rewrite join_cons by done. rewrite IH by done.
    rewrite (join_cons sep x (y :: l1)) by done. by rewrite !string_app_assoc.
Qed.

Lemma absolutePath_startsWith (rs segs : list string) :
  Js.startsWith (absolutePath (rs ++ segs)) (absolutePath rs) = true.
Proof.
  unfold Js.startsWith, absolutePath.
  destruct (decide (segs = [])) as [->|Hsegs].
  { rewrite app_nil_r. apply startsWith_refl. }
  destruct (decide (rs = [])) as [->|Hrs]; [apply (prefix_app "/")|].
  rewrite join_app by done. rewrite <- string_app_assoc. apply prefix_app.
Qed.

Lemma lastCharIs_join (segs : list string) :
  Forall properSegment segs → Js.lastCharIs Path.slash (Js.join "/" segs) = false.
Proof.
  destruct segs as [|x segs _] using rev_ind; [done|].
  intros [_ [(Hx & _ & _ & Hslash) _]%Forall_cons]%Forall_app.
  destruct (decide (segs = [])) as [->|Hne].
  - by apply lastCharIs_without.
  - rewrite join_snoc by done. rewrite <- string_app_assoc.
    rewrite lastCharIs_app by done. by apply lastCharIs_without.
Qed.

Lemma join_nonempty (segs : list string) :
  Forall properSegment segs → segs ≠ [] → Js.join "/" segs ≠ "".
Proof. intros Hsegs Hne Hjoin. by apply Hne, join_empty_iff. Qed.

(** [path.join] of a canonical directory and a relative path of proper
    segments. *)
Lemma join_below (rs segs : list string) :
  Forall properSegment rs → Forall properSegment segs → segs ≠ [] →
  Path.join [absolutePath rs; Js.join "/" segs] = absolutePath (rs ++ segs).
Proof.
  intros Hrs Hsegs Hne.
  pose proof (join_nonempty _ Hsegs Hne) as Hf.
  unfold Path.join.
  rewrite filter_cons_True by done. rewrite filter_cons_True by done.
  rewrite filter_nil. rewrite join_cons by done. simpl (Js.join "/" [_]).
  set (f := Js.join "/" segs) in *.
  assert (segmentsOf (absolutePath rs +:+ "/" +:+ f) = rs ++ segs) as Hsegments.
  { unfold segmentsOf. change ("/" +:+ f) with (String Path.slash f).
    rewrite split_app_sep, normalizeSegments_app.
    fold (segmentsOf (absolutePath rs)). rewrite segmentsOf_absolutePath by done.
    unfold f.
    rewrite (split_join Path.slash) by (by apply properSegment_noSlash || done).
    rewrite fold_pushSegment_proper by done.
    by rewrite rev_app_distr, !rev_involutive. }
  unfold Path.normalize.
  rewrite bool_decide_eq_false_2 by done.
  change (Path.isAbsolute (absolutePath rs +:+ "/" +:+ f)) with true.
  simpl negb. cbv zeta. unfold Path.normalizeString.
  fold (segmentsOf (absolutePath rs +:+ "/" +:+ f)). rewrite Hsegments.
  rewrite bool_decide_eq_false_2.
  - rewrite <- string_app_assoc, lastCharIs_app by done.
    unfold f. by rewrite lastCharIs_join.
  - apply join_nonempty; [by apply Forall_app|]. by destruct rs, segs.
Qed.

Lemma stripPrefix_Some (pre l rest : list string) :
  Fs.stripPrefix pre l = Some rest → l = pre ++ rest.
Proof.
  revert l. induction pre as [|x pre IH]; intros l; simpl; [by intros [= ->]|].
  destruct l as [|y l]; [done|]. case_bool_decide; [|done].
  intros ->%IH. by subst.
Qed.

(** What [glob] returns is made of the names of entries. *)
Lemma glob_sync_segments (fs : Fs.t) (pattern cwd : string)
    (ignore : list string) (f : string) :
  properTree fs →
  f ∈ Glob.sync fs pattern cwd ignore →
  ∃ segs, f = Js.join "/" segs ∧ segs ≠ [] ∧ Forall properSegment segs.
Proof.
  intros Htree. unfold Glob.sync. destruct (Fs.locate fs cwd) as [e|dir].
  { intros Hf. by apply elem_of_nil in Hf. }
  rewrite merge_sort_Permutation, list_elem_of_filter.
  intros [_ (segs & -> & Hsegs)%list_elem_of_fmap].
  exists segs. split; [done|].
  unfold Fs.descendants in Hsegs.
  apply list_elem_of_omap in Hsegs as ([key n] & Hkey%elem_of_map_to_list & Hstrip).
  simpl in Hstrip.
  destruct (Fs.stripPrefix dir key) as [[|x rest]|] eqn:Hprefix; [done| |done].
  injection Hstrip as <-. split; [done|].
  apply stripPrefix_Some in Hprefix. specialize (Htree _ _ Hkey). simpl in Htree.
  rewrite Hprefix in Htree. by apply Forall_app in Htree as [_ Htree].
Qed.

(** The candidates of a canonical root, by their segments. *)
Lemma directoriesSync_segments (fs : Fs.t) (config : Configuration)
    (rs : list string) (dirs : list FSLocation) (loc : FSLocation) :
  Forall properSegment rs →
  properTree fs →
  directoriesSync fs config (absolutePath rs) = Ok dirs →
  loc ∈ dirs →
  ∃ segs,
    segs ≠ [] ∧ Forall properSegment segs ∧
    relative loc = absolutePath segs ∧
    absolute loc = absolutePath (rs ++ segs) ∧
    Fs.statSync fs (absolute loc) = inr Fs.Dir.
Proof.
  intros Hrs Htree Hdirs Hloc.
  pose proof Hdirs as Hdirs'. unfold directoriesSync in Hdirs'.
  apply bindOutcome_Ok in Hdirs' as (ignore & _ & Hfilter).
  destruct (filterOutcome_Ok _ _ _ _ Hfilter Hloc) as [Hin _].
  apply list_elem_of_fmap in Hin as (f & Hf & Hglob).
  destruct (glob_sync_segments _ _ _ _ _ Htree Hglob) as (segs & -> & Hne & Hsegs).
  destruct (directoriesSync_elem_of _ _ _ _ _ Hdirs Hloc) as (_ & _ & _ & _ & Hstat & _).
  exists segs. split; [done|]. split; [done|]. subst loc. simpl.
  split; [|split; [by apply join_below|done]].
  change Path.sep with (absolutePath []). by rewrite join_below.
Qed.

(** X18: every candidate [directoriesSync] returns for a canonical root,
    in a tree of properly named entries, is a directory strictly below the
    root: its absolute path is the canonical path of an entry of the tree
    that is a directory, and its relative path is the canonical path of
    the segments that lead there from the root. *)
Theorem directoriesSync_below_root (fs : Fs.t) (config : Configuration)
    (rs : list string) (dirs : list FSLocation) (loc : FSLocation) :
  Forall properSegment rs →
  properTree fs →
  directoriesSync fs config (absolutePath rs) = Ok dirs →
  loc ∈ dirs →
  ∃ segs,
    segs ≠ [] ∧
    relative loc = absolutePath segs ∧
    absolute loc = absolutePath (rs ++ segs) ∧
    Fs.nodes fs !! (rs ++ segs) = Some Fs.Dir.
Proof.
  intros Hrs Htree Hdirs Hloc.
  destruct (directoriesSync_segments _ _ _ _ _ Hrs Htree Hdirs Hloc)
    as (segs & Hne & Hsegs & Hrel & Habs & Hstat).
  exists segs. split; [done|]. split; [done|]. split; [done|].
  assert (Forall properSegment (rs ++ segs)) as Hproper by by apply Forall_app.
  rewrite Habs in Hstat.
  destruct (Fs.nodes fs !! []) as [[c|]|] eqn:Hroot.
  - unfold Fs.statSync, Fs.locate, Fs.components in Hstat.
    rewrite bool_decide_eq_false_2 in Hstat by done.
    change (Path.isAbsolute (absolutePath (rs ++ segs))) with true in Hstat.
    rewrite split_absolutePath in Hstat by (done || by destruct rs, segs).
    simpl in Hstat. by rewrite Hroot in Hstat.
  - rewrite statSync_absolutePath in Hstat by done.
    destruct (Fs.walk (Fs.nodes fs) [] (rs ++ segs)) as [e|q] eqn:Hwalk; [done|].
    apply walk_inr in Hwalk as [-> _]; [|done]. simpl in Hstat.
    by destruct (Fs.nodes fs !! (rs ++ segs)) as [[]|].
  - unfold Fs.statSync, Fs.locate, Fs.components in Hstat.
    rewrite bool_decide_eq_false_2 in Hstat by done.
    change (Path.isAbsolute (absolutePath (rs ++ segs))) with true in Hstat.
    rewrite split_absolutePath in Hstat by (done || by destruct rs, segs).
    simpl in Hstat. by rewrite Hroot in Hstat.
Qed.

Lemma directoriesSync_below_root_witness :
  ∃ segs,
    segs ≠ [] ∧
    "/src" = absolutePath segs ∧
    "/w/src" = absolutePath (["w"] ++ segs) ∧
    Fs.nodes sampleFs !! (["w"] ++ segs) = Some Fs.Dir.
Proof.
  destruct (directoriesSync sampleFs sampleConfiguration (absolutePath ["w"]))
    as [dirs|e] eqn:Hdirs; [|vm_compute in Hdirs; discriminate].
  apply (directoriesSync_below_root sampleFs sampleConfiguration ["w"] dirs
           (mkFSLocation "/src" "/w/src")).
  - apply (bool_decide_unpack _). vm_compute. reflexivity.
  - apply (bool_decide_unpack _). vm_compute. reflexivity.
  - exact Hdirs.
  - vm_compute in Hdirs. injection Hdirs as <-. apply (bool_decide_unpack _).
    vm_compute. reflexivity.
Defined.

(** X19: every option the first picker is filled with for the roots has a
    root: [rootForDir] finds one for each option of [rootOptions], for the
    option of the current file, and (for a canonical root and a tree of
    properly named entries) for each option of [subdirOptionsForRoot]; the
    path of the root found is a prefix of the option's. *)
Theorem offered_options_have_root (w : World) (roots : list WorkspaceRoot)
    (o : DirectoryOption) :
  o ∈ rootOptions roots ∨
  currentEditorPathOption w roots = Some o ∨
  (∃ root rs opts,
     root ∈ roots ∧ rootPath root = absolutePath rs ∧ Forall properSegment rs ∧
     properTree (fileSystem w) ∧
     subdirOptionsForRoot w root = Ok opts ∧ o ∈ opts) →
  ∃ r, rootForDir roots o = Some r ∧ r ∈ roots ∧
       Js.startsWith (absolute (fsLocation o)) (rootPath r) = true.
Proof.
  assert (∀ root, root ∈ roots →
            Js.startsWith (absolute (fsLocation o)) (rootPath root) = true →
            ∃ r, rootForDir roots o = Some r ∧ r ∈ roots ∧
                 Js.startsWith (absolute (fsLocation o)) (rootPath r) = true) as Hfind.
  { intros root Hroot Hstarts. unfold rootForDir, Js.find.
    destruct (List.find _ roots) as [r|] eqn:Hr.
    - apply find_some in Hr as [Hin%list_elem_of_In Hr]. by exists r.
    - apply list_elem_of_In in Hroot.
      pose proof (find_none _ _ Hr _ Hroot) as Hnone. simpl in Hnone. congruence. }
  intros [Ho|[Ho|(root & rs & opts & Hroot & Hpath & Hrs & Htree & Hopts & Ho)]].
  - unfold rootOptions in Ho. apply list_elem_of_fmap in Ho as (root & -> & Hroot).
    apply (Hfind root Hroot). simpl. apply startsWith_refl.
  - unfold currentEditorPathOption in Ho.
    destruct (currentEditorPath w) as [currentFilePath|]; [|done].
    case_bool_decide; [done|].
    destruct (Js.find _ roots) as [root|] eqn:Hroot; [|done].
    injection Ho as <-. unfold Js.find in Hroot.
    apply find_some in Hroot as [Hin Hstarts].
    apply (Hfind root); [by apply list_elem_of_In|done].
  - unfold subdirOptionsForRoot, directories in Hopts.
    apply bindOutcome_Ok in Hopts as (dirs & Hdirs & [= <-]).
    apply list_elem_of_fmap in Ho as (loc & -> & Hloc).
    rewrite Hpath in Hdirs.
    destruct (directoriesSync_segments _ _ _ _ _ Hrs Htree Hdirs Hloc)
      as (segs & _ & _ & _ & Habs & _).
    apply (Hfind root Hroot). simpl. rewrite Habs, Hpath.
    apply absolutePath_startsWith.
Qed.

Lemma offered_options_have_root_witness :
  ∃ r, rootForDir (workspaceRoots sampleWorld) dirSrc = Some r ∧
       r ∈ workspaceRoots sampleWorld ∧
       Js.startsWith (absolute (fsLocation dirSrc)) (rootPath r) = true.
Proof.
  destruct (subdirOptionsForRoot sampleWorld (mkWorkspaceRoot "/w" "w" false))
    as [opts|e] eqn:Hopts; [|vm_compute in Hopts; discriminate].
  apply (offered_options_have_root sampleWorld).
  right. right. exists (mkWorkspaceRoot "/w" "w" false), ["w"], opts.
  split; [apply (bool_decide_unpack _); vm_compute; reflexivity|].
  split; [reflexivity|].
  split; [apply (bool_decide_unpack _); vm_compute; reflexivity|].
  split; [apply (bool_decide_unpack _); vm_compute; reflexivity|].
  split; [exact Hopts|].
  vm_compute in Hopts. injection Hopts as <-.
  apply (bool_decide_unpack _). vm_compute. reflexivity.
Defined.

(** X20: when the path returned by the input box names a directory that
    is there (as it does when nothing is typed) and does not end in a
    slash, nothing is created, but the selection is deleted from the
    source all the same, and the command then ends in the exception of
    opening a directory as a document: no document is opened, nothing is
    inserted and nothing is written. *)
Theorem command_existing_directory_throws (user : User) (w : World)
    (editor : TextEditor) (dir : DirectoryOption) (cache2 : Cache.t)
    (choice : QuickPickItem) (newFileInput : string) :
  activeTextEditor w = Some editor →
  selectedText w editor ≠ "" →
  confirmsDirectory user w dir cache2 →
  filePick user w dir = Some choice →
  uri choice = None →
  showInputBox user dir = Some newFileInput →
  isFolderDescriptor newFileInput = false →
  Fs.statSync (fileSystem w) newFileInput = inr Fs.Dir →
  textDocuments w !! newFileInput = None →
  ∃ e w',
    command user w = (Throw e, w') ∧
    documentText w' (document editor)
    = TextDocument.delete (documentText w (document editor)) (selection editor) ∧
    textDocuments w' !! newFileInput = None ∧
    fileSystem w' = fileSystem w ∧
    messages w' = messages w ∧
    activeTextEditor w' = activeTextEditor w.
Proof.
  intros Hactive Hsel Hconfirms Hpick Huri Hinput Hfile Hstat Hclosed.
  destruct (selectedText_nonempty_open _ _ Hsel) as [source Hsource].
  assert (newFileInput ≠ document editor) as Hne
    by (intros Heq; by rewrite Heq, Hsource in Hclosed).
  assert (newFileInput ≠ "") as Hnonempty.
  { intros ->. unfold Fs.statSync, Fs.locate in Hstat. simpl in Hstat. done. }
  destruct (command_to_file_picker _ _ _ _ _ Hactive Hsel Hconfirms)
    as (w2 & Hcommand & Hed & Hdocs & Hfs & Hmsg & _ & _).
  rewrite Hpick, Huri in Hcommand. rewrite Hcommand.
  unfold moveToNewFile. rewrite Hinput.
  rewrite bool_decide_eq_false_2 by done.
  unfold createFileOrFolder, Fs.existsSync. rewrite Hfs, Hstat. simpl negb.
  cbv iota zeta. unfold openFile. rewrite Hfile.
  unfold openTextDocument, edit, Fs.readFileSync. simpl textDocuments.
  simpl fileSystem. rewrite lookup_alter_ne by done.
  rewrite Hdocs, Hclosed, Hstat. simpl.
  eexists _, _. split; [reflexivity|].
  unfold documentText. simpl.
  rewrite lookup_alter_eq, lookup_alter_ne, Hsource, Hclosed by done.
  simpl. repeat split; congruence.
Qed.

Lemma command_existing_directory_throws_witness :
  ∃ e w',
    command silentUser sampleWorld = (Throw e, w') ∧
    documentText w' "/w/src/a.ts" = "hrld" ∧
    fileSystem w' = fileSystem sampleWorld.
Proof.
  destruct (command_existing_directory_throws silentUser sampleWorld
              (mkTextEditor "/w/src/a.ts"
                 (TextDocument.mkRange (TextDocument.mkPosition 0 1)
                    (TextDocument.mkPosition 1 2)))
              dirSrc
              (<["recentRoots" := VStrings ["/w"]]> (<["last" := VObject dirSrc]> ∅))
              (mkQuickPickItem "Create new file" None None None)
              "/w/src")
    as (e & w' & Hcommand & Hsource & _ & Hfs & _).
  - reflexivity.
  - vm_compute. discriminate.
  - unfold confirmsDirectory. do 5 eexists.
    repeat (split; [vm_compute; reflexivity|]). vm_compute. reflexivity.
  - vm_compute. reflexivity.
  - reflexivity.
  - vm_compute. reflexivity.
  - reflexivity.
  - vm_compute. reflexivity.
  - vm_compute. reflexivity.
  - exists e, w'. split; [exact Hcommand|]. split; [|exact Hfs].
    etrans; [exact Hsource|]. vm_compute. reflexivity.
Defined.

(** ** The convenience options *)






(** ** The second picker *)

Lemma last_snoc {A} (l : list A) (x d : A) : List.last (l ++ [x]) d = x.
Proof. induction l as [|y l IH]; [done|]. simpl. rewrite IH. by destruct l. Qed.

(** X22: the second picker lists the regular files that lie directly in
    the directory picked, each under its name and with its canonical path,
    and one more entry, the only one without a file, for a new file. *)
Theorem fileChoices_local_files (fs : Fs.t) (base : string) (choice : QuickPickItem) :
  properTree fs →
  choice ∈ fileChoices (findFiles fs base) →
  (uri choice = None ∧ choice = createNewFile) ∨
  (∃ dir name c,
     Fs.locate fs base = inr dir ∧
     Fs.nodes fs !! (dir ++ [name]) = Some (Fs.File c) ∧
     uri choice = Some (absolutePath (dir ++ [name])) ∧
     label choice = name).
Proof.
  intros Htree. unfold fileChoices. rewrite elem_of_app, list_elem_of_fmap.
  intros [(file & -> & Hfile)|Hnew%list_elem_of_singleton]; [right|by left; subst].
  unfold findFiles in Hfile. destruct (Fs.locate fs base) as [e|dir].
  { by apply elem_of_nil in Hfile. }
  rewrite merge_sort_Permutation in Hfile.
  apply list_elem_of_omap in Hfile as ([key n] & Hkey%elem_of_map_to_list & Hstrip).
  simpl in Hstrip.
  destruct (Fs.stripPrefix dir key) as [[|name [|? ?]]|] eqn:Hprefix; try done.
  destruct n as [c|]; [|done]. injection Hstrip as <-.
  apply stripPrefix_Some in Hprefix. subst key.
  exists dir, name, c. split; [done|]. split; [done|]. split; [done|].
  change (List.last (Js.split Path.slash (absolutePath (dir ++ [name]))) "" = name).
  rewrite split_absolutePath by (by eapply Htree || by destruct dir).
  change ("" :: dir ++ [name]) with (("" :: dir) ++ [name]). apply last_snoc.
Qed.

Lemma fileChoices_local_files_witness :
  (uri (mkQuickPickItem "b.ts" None None (Some "/w/src/b.ts")) = None ∧
   mkQuickPickItem "b.ts" None None (Some "/w/src/b.ts") = createNewFile) ∨
  (∃ dir name c,
     Fs.locate sampleFs "/w/src" = inr dir ∧
     Fs.nodes sampleFs !! (dir ++ [name]) = Some (Fs.File c) ∧
     Some "/w/src/b.ts" = Some (absolutePath (dir ++ [name])) ∧
     "b.ts" = name).
Proof.
  apply (fileChoices_local_files sampleFs "/w/src"
           (mkQuickPickItem "b.ts" None None (Some "/w/src/b.ts"))).
  - apply (bool_decide_unpack _). vm_compute. reflexivity.
  - apply (bool_decide_unpack _). vm_compute. reflexivity.
Defined.

(** ** The roots *)

Lemma filter_proper (segs : list string) :
  Forall properSegment segs → filter (λ s, s ≠ "") segs = segs.
Proof.
  induction 1 as [|x segs [Hx _] _ IH]; [done|].
  rewrite filter_cons_True by done. by rewrite IH.
Qed.

Lemma basename_absolutePath (segs : list string) (x : string) :
  Forall properSegment (segs ++ [x]) →
  Path.basename (absolutePath (segs ++ [x])) = x.
Proof.
  intros Hproper. unfold Path.basename.
  rewrite split_absolutePath by (done || by destruct segs).
  rewrite filter_cons_False by (by intros ?).
  rewrite filter_proper by done. apply last_snoc.
Qed.

(** X23: the options of the workspace folders: each folder (here one with
    a canonical path) has an option with its path, shown as a single
    slash in a workspace of one folder and as a slash and the name of the
    folder in a workspace of several. *)
Theorem rootOptions_of_folders (w : World) (folders : list string) (i : nat)
    (segs : list string) (x : string) :
  workspaceFolders w = Some folders →
  folders !! i = Some (absolutePath (segs ++ [x])) →
  Forall properSegment (segs ++ [x]) →
  rootOptions (workspaceRoots w) !! i
  = Some (mkDirectoryOption
            (if bool_decide (1 < length folders) then "/" +:+ x else "/")
            (mkFSLocation "/" (absolutePath (segs ++ [x])))).
Proof.
  intros Hfolders Hfolder Hproper.
  unfold rootOptions, workspaceRoots. rewrite Hfolders.
  rewrite !list_lookup_fmap, Hfolder. simpl.
  rewrite basename_absolutePath by done.
  case_bool_decide; [|done]. do 2 f_equal.
  apply Forall_app in Hproper as [_ Hx].
  apply (join_below [] [x]); [done|done|done].
Qed.

Lemma rootOptions_of_folders_witness :
  rootOptions (workspaceRoots twoFolderWorld) !! 1
  = Some (mkDirectoryOption "/keep" (mkFSLocation "/" "/w/keep")).
Proof.
  apply (rootOptions_of_folders twoFolderWorld ["/w/src"; "/w/keep"] 1 ["w"] "keep").
  - reflexivity.
  - reflexivity.
  - apply (bool_decide_unpack _). vm_compute. reflexivity.
Defined.
